(** * learn-a-maze: the simulation core

    A shallow embedding of [services/MazeGenerator.ts] and
    [services/QLearningAgent.ts], with the properties of the two classes
    that the specification states.

    - [JS]: the fragment of JavaScript both classes rely on: numbers, which
      are IEEE 754 doubles, arrays that are read and written by index,
      objects used as string-keyed maps, and a heap in which arrays and
      objects are shared by reference.
    - [Types]: [types.ts].
    - [MazeGenerator]: [SeededRandom], [getUnvisitedNeighbors], [generate].
    - [QLearningAgent]: the agent and every public method.
    - [MazeScene]: the scale [components/MazeScene.tsx] reads off the table.
    - [App]: the simulation loop of [App.tsx], which drives the two.
    - [DoubleSpec]: what the proofs need of the arithmetic of doubles.
    - [TypesSpec], [MazeGeneratorSpec], [QLearningAgentSpec],
      [MazeSceneSpec], [AppSpec]: the properties. *)

From Stdlib Require Import ZArith Floats Uint63 Lia Ascii.
From stdpp Require Import gmap strings list pretty.

(** The decimal literals of the source ([0.1], [0.995], ...) denote the
    nearest double, here as there. *)
#[global] Set Warnings "-inexact-float".

(* ===================================================================== *)
(** * JavaScript values *)
(* ===================================================================== *)

Module JS.

(** ** Numbers *)

(** An integer as a number, exact below 2^53: a literal, or a [length]. *)
Definition float_of_Z (z : Z) : float :=
  if (z <? 0)%Z then PrimFloat.opp (PrimFloat.of_uint63 (Uint63.of_Z (- z)))
  else PrimFloat.of_uint63 (Uint63.of_Z z).

(** [Math.max(a, b)]: NaN if either is, and -0 below +0. *)
Definition float_max (a b : float) : float :=
  if PrimFloat.is_nan a || PrimFloat.is_nan b then PrimFloat.nan
  else if PrimFloat.ltb a b then b
  else if PrimFloat.ltb b a then a
  else if PrimFloat.is_zero a && PrimFloat.get_sign a then b
  else a.

(** [Math.max(...xs)]: the running maximum starts from -Infinity. *)
Definition Math_max (xs : list float) : float :=
  fold_left float_max xs PrimFloat.neg_infinity.

(** [Math.floor(a)] as an integer, for use as an index; [None] when [a] is
    NaN or infinite.  A finite double is [m * 2^e] up to sign, and shifting
    an integer rounds towards minus infinity. *)
Definition float_floor (a : float) : option Z :=
  match Prim2SF a with
  | S754_zero _ => Some 0%Z
  | S754_finite s m e => Some (Z.shiftl (if s then Z.neg m else Z.pos m) e)
  | S754_infinity _ | S754_nan => None
  end.

(** Not negative: a zero of either sign, a positive number, +Infinity. *)
Definition SF_nonneg (a : spec_float) : Prop :=
  match a with
  | S754_zero _ => True
  | S754_infinity s | S754_finite s _ _ => s = false
  | S754_nan => False
  end.

(** ** Arrays *)

(** [xs[i]]: [undefined] off the array. *)
Definition index {A : Type} (xs : list A) (i : Z) : option A :=
  if (i <? 0)%Z then None else xs !! Z.to_nat i.

(** [xs[i] = v]: an index past the end grows the array.  The holes this
    leaves read as [undefined], which every later use here (arithmetic,
    [Math.max]) turns into NaN. *)
Definition array_store (xs : list float) (i : nat) (v : float) : list float :=
  if (i <? length xs)%nat then <[i := v]> xs
  else xs ++ replicate (i - length xs) PrimFloat.nan ++ [v].

(** ** The heap

    Arrays and objects are reached through references, and a reference can
    be held in several places at once.  A heap lists the arrays (the rows
    of a Q-table) and the objects (the Q-tables: maps from a key to the
    reference of a row) allocated so far; a reference is a position in the
    list, and nothing is ever freed. *)

Abbreviation loc := nat.

Record heap : Type := {
  arrays : list (list float);
  objects : list (gmap string loc)
}.

Definition empty_heap : heap := {| arrays := []; objects := [] |}.

(** An array literal [[v0, v1, ...]] *)
Definition array_new (xs : list float) (h : heap) : loc * heap :=
  (length (arrays h), {| arrays := arrays h ++ [xs]; objects := objects h |}).

(** An object literal *)
Definition object_new (o : gmap string loc) (h : heap) : loc * heap :=
  (length (objects h), {| arrays := arrays h; objects := objects h ++ [o] |}).

(** [o[k]] *)
Definition object_get (h : heap) (o : loc) (k : string) : option loc :=
  objects h !! o ≫= λ fields, fields !! k.

(** [o[k] = r] *)
Definition object_set (h : heap) (o : loc) (k : string) (r : loc) : heap :=
  {| arrays := arrays h; objects := alter (insert k r) o (objects h) |}.

(** [delete o[k]] *)
Definition object_delete (h : heap) (o : loc) (k : string) : heap :=
  {| arrays := arrays h; objects := alter (delete k) o (objects h) |}.

(** [{ ...o }]: a new object with the properties of [o], each holding the
    very value it holds in [o]. *)
Definition object_spread (h : heap) (o : loc) : loc * heap :=
  object_new (default ∅ (objects h !! o)) h.

(** The elements of the array at [r]. *)
Definition array_elements (h : heap) (r : loc) : list float :=
  default [] (arrays h !! r).

(** [r[i] = v] *)
Definition array_set (h : heap) (r : loc) (i : nat) (v : float) : heap :=
  {| arrays := alter (λ xs, array_store xs i v) r (arrays h);
     objects := objects h |}.

(** What an object holds, rows read through: the table one would print. *)
Definition contents (h : heap) (o : loc) : option (gmap string (list float)) :=
  fmap (M := gmap string) (array_elements h) <$> objects h !! o.

(** What the holder of the object [o] can do to it without touching an
    existing row: create an array, bind a key of [o], delete a key of [o]. *)
Inductive mutates_object (o : loc) : heap → heap → Prop :=
  | mutates_new_array h qs : mutates_object o h (array_new qs h).2
  | mutates_set h k row : mutates_object o h (object_set h o k row)
  | mutates_delete h k : mutates_object o h (object_delete h o k).

End JS.

(* ===================================================================== *)
(** * types.ts *)
(* ===================================================================== *)

Module Types.

Record Position := { x : Z; y : Z }.

(** The fields of a [Position], the sizes and the counters are numbers of
    the code, held here as integers.  An integer below 2^53 in absolute
    value ([Number.isSafeInteger]) is a number the code holds exactly: a
    sum or a difference on [Z] is the one of the code when it is such an
    integer, and its decimal numeral is the string a template literal
    makes of it. *)
Definition safe_integer (n : Z) : Prop := (Z.abs n < 2 ^ 53)%Z.

Inductive Action := UP | RIGHT | DOWN | LEFT.

(** The numeric value of an [Action], which is how the agent indexes a row. *)
Definition action_index (a : Action) : nat :=
  match a with UP => 0 | RIGHT => 1 | DOWN => 2 | LEFT => 3 end.

Record MazeCell := { cell_x : Z; cell_y : Z; isWall : bool }.

(** The template literal [`${x},${y}`] both classes use as a key, for
    safe integers [px] and [py]. *)
Definition key_of (px py : Z) : string := pretty px +:+ "," +:+ pretty py.

#[export] Instance Position_eq_dec : EqDecision Position.
Proof. solve_decision. Defined.

(** No comma occurs in the string: true of the decimal numerals. *)
Fixpoint comma_free (s : string) : bool :=
  match s with
  | EmptyString => true
  | String c s' => negb (Ascii.eqb c ","%char) && comma_free s'
  end.

End Types.

(* ===================================================================== *)
(** * services/MazeGenerator.ts *)
(* ===================================================================== *)

Module MazeGenerator.
Import JS Types.
Local Open Scope Z_scope.

(** ** Outcomes

    A call returns, throws a [TypeError] (a property of [undefined] was read
    or written), or, in the embedding only, runs out of fuel. *)

Inductive outcome (A : Type) : Type :=
  | Returns (a : A)
  | Throws
  | OutOfFuel.
Arguments Returns {A} a.
Arguments Throws {A}.
Arguments OutOfFuel {A}.

Definition bind {A B : Type} (m : outcome A) (k : A → outcome B) : outcome B :=
  match m with
  | Returns a => k a
  | Throws => Throws
  | OutOfFuel => OutOfFuel
  end.

Notation "'do' a <- m ; k" := (bind m (λ a, k))
  (at level 10, a name, m at level 100, k at level 200).

(** ** SeededRandom *)

Record SeededRandom := { seed : Z }.

(** [this.seed = (this.seed * 9301 + 49297) % 233280; return this.seed / 233280].
    The seed is an integer below 2^53 throughout, on which the arithmetic of
    doubles is exact; the quotient that is returned is a double. *)
Definition next (this : SeededRandom) : float * SeededRandom :=
  let s := Z.rem (seed this * 9301 + 49297) 233280 in
  (PrimFloat.div (float_of_Z s) 233280%float, {| seed := s |}).

(** ** The grid *)

Abbreviation Grid := (list (list MazeCell)).

(** [grid[row][col].isWall = false] *)
Definition clear_wall (grid : Grid) (row col : Z) : outcome Grid :=
  match index grid row with
  | None => Throws
  | Some cells =>
    match index cells col with
    | None => Throws
    | Some cell =>
      let cell' := {| cell_x := cell_x cell; cell_y := cell_y cell;
                      isWall := false |} in
      Returns (<[Z.to_nat row := <[Z.to_nat col := cell']> cells]> grid)
    end
  end.

(** [Array.from({ length: height }, (_, y) => Array.from({ length: width },
    (_, x) => ({ x, y, isWall: true })))] *)
Definition init_grid (width height : Z) : Grid :=
  (λ cy, (λ cx, {| cell_x := cx; cell_y := cy; isWall := true |})
           <$> seqZ 0 width) <$> seqZ 0 height.

(** [(a + b) / 2] as an index: a half-integer is no index of an array. *)
Definition midpoint (a b : Z) : option Z :=
  if Z.even (a + b) then Some ((a + b) / 2) else None.

(** ** MazeGenerator *)

Record MazeGenerator := { width : Z; height : Z; rng : SeededRandom }.

Definition new (w h : Z) : MazeGenerator :=
  {| width := w; height := h; rng := {| seed := 555 |} |}.

Definition directions : list Position :=
  [ {| x := 0; y := -2 |}; {| x := 2; y := 0 |};
    {| x := 0; y := 2 |}; {| x := -2; y := 0 |} ].

(** The bounds test of [getUnvisitedNeighbors].  The sums [pos.x + dir.x]
    and [pos.y + dir.y] and the differences [this.width - 1] and
    [this.height - 1] are those of the code when they are safe integers,
    as they are on the cells of a grid. *)
Definition interiorb (w h nx ny : Z) : bool :=
  (0 <? nx) && (nx <? w - 1) && (0 <? ny) && (ny <? h - 1).

Fixpoint neighbors_in (w h : Z) (pos : Position) (visited : gset string)
    (dirs : list Position) : list Position :=
  match dirs with
  | [] => []
  | dir :: dirs' =>
    let nx := x pos + x dir in
    let ny := y pos + y dir in
    if interiorb w h nx ny && negb (bool_decide (key_of nx ny ∈ visited))
    then {| x := nx; y := ny |} :: neighbors_in w h pos visited dirs'
    else neighbors_in w h pos visited dirs'
  end.

Definition getUnvisitedNeighbors (this : MazeGenerator) (pos : Position)
    (visited : gset string) : list Position :=
  neighbors_in (width this) (height this) pos visited directions.

(** The state of the loop of [generate]; the head of [stack] is its top. *)
Record dfs := {
  grid : Grid;
  stack : list Position;
  visited : gset string;
  gen : MazeGenerator
}.

(** [neighbors[Math.floor(this.rng.next() * neighbors.length)]] *)
Definition choose (r : SeededRandom) (neighbors : list Position)
  : option Position * SeededRandom :=
  let '(v, r') := next r in
  (float_floor (PrimFloat.mul v (float_of_Z (Z.of_nat (length neighbors))))
     ≫= index neighbors, r').

(** One turn of the [while] loop, [current] being the top of the stack. *)
Definition carve_step (st : dfs) (current : Position) : outcome dfs :=
  let neighbors := getUnvisitedNeighbors (gen st) current (visited st) in
  if (0 <? length neighbors)%nat then
    let '(chosen, r') := choose (rng (gen st)) neighbors in
    match chosen with
    | None => Throws
    | Some nxt =>
      match midpoint (x current) (x nxt), midpoint (y current) (y nxt) with
      | Some wallX, Some wallY =>
        do g1 <- clear_wall (grid st) wallY wallX;
        do g2 <- clear_wall g1 (y nxt) (x nxt);
        Returns {| grid := g2;
                   stack := nxt :: stack st;
                   visited := {[ key_of (x nxt) (y nxt) ]} ∪ visited st;
                   gen := {| width := width (gen st); height := height (gen st);
                             rng := r' |} |}
      | _, _ => Throws
      end
    end
  else
    Returns {| grid := grid st; stack := tail (stack st);
               visited := visited st; gen := gen st |}.

(** [while (stack.length > 0) { ... }] *)
Fixpoint carve (fuel : nat) (st : dfs) : outcome dfs :=
  match fuel with
  | O => OutOfFuel
  | S fuel' =>
    match stack st with
    | [] => Returns st
    | current :: _ => do st' <- carve_step st current; carve fuel' st'
    end
  end.

(** The cells [getUnvisitedNeighbors] can return: each is pushed at most
    once and popped at most once, which bounds the turns of the loop. *)
Definition interior (w h : Z) : list Position :=
  cx ← seqZ 1 (w - 2); cy ← seqZ 1 (h - 2); [ {| x := cx; y := cy |} ].

Definition carve_fuel (w h : Z) : nat := (2 * length (interior w h) + 3)%nat.

Definition generate (this : MazeGenerator) : outcome (Grid * MazeGenerator) :=
  let this := {| width := width this; height := height this;
                 rng := {| seed := 555 |} |} in
  let grid := init_grid (width this) (height this) in
  let startNode := {| x := 1; y := 1 |} in
  do grid <- clear_wall grid (y startNode) (x startNode);
  do st <- carve (carve_fuel (width this) (height this))
             {| grid := grid; stack := [startNode];
                visited := {[ key_of (x startNode) (y startNode) ]};
                gen := this |};
  let this := gen st in
  do grid <- clear_wall (MazeGenerator.grid st) 0 0;
  do grid <- clear_wall grid 0 1;
  do grid <- clear_wall grid 1 0;
  do grid <- clear_wall grid 1 1;
  do grid <- clear_wall grid (height this - 1) (width this - 1);
  do grid <- clear_wall grid (height this - 2) (width this - 1);
  do grid <- clear_wall grid (height this - 1) (width this - 2);
  do grid <- clear_wall grid (height this - 2) (width this - 2);
  Returns (grid, this).

(** The maze as a picture, one string per row: [#] wall, [.] floor. *)
Definition render (g : Grid) : list string :=
  (λ row, fold_right (λ c s, (if isWall c then "#" else ".") +:+ s) "" row)
    <$> g.

(** ** What the properties below speak of *)

(** The cell a write of [isWall = false] leaves. *)
Definition cleared (cell : MazeCell) : MazeCell :=
  {| cell_x := cell_x cell; cell_y := cell_y cell; isWall := false |}.

(** [grid[row][col]] *)
Definition cell_at (g : Grid) (row col : Z) : option MazeCell :=
  index g row ≫= λ cells, index cells col.

Definition is_floor (g : Grid) (row col : Z) : Prop :=
  isWall <$> cell_at g row col = Some false.

(** A fully populated [h]-by-[w] grid: [h] rows of [w] cells, each cell
    carrying its own column and row. *)
Record populated (w h : Z) (g : Grid) : Prop := {
  populated_rows : length g = Z.to_nat h;
  populated_cols : Forall (λ cells, length cells = Z.to_nat w) g;
  populated_coords : ∀ row col cell,
    cell_at g row col = Some cell → cell_x cell = col ∧ cell_y cell = row
}.

(** The wall layout of a grid. *)
Definition walls (g : Grid) : list (list bool) := map (map isWall) g.

Definition in_bounds (w h : Z) (p : Position) : Prop :=
  0 ≤ x p < w ∧ 0 ≤ y p < h.

Definition interior_cell (w h : Z) (p : Position) : Prop :=
  0 < x p < w - 1 ∧ 0 < y p < h - 1.

(** The seeds [next] leaves behind, 555 among them. *)
Definition seed_ok (r : SeededRandom) : Prop := 0 ≤ seed r < 233280.

(** What every turn of the loop of [generate] maintains. *)
Record dfs_inv (w h : Z) (st : dfs) : Prop := {
  inv_width : width (gen st) = w;
  inv_height : height (gen st) = h;
  inv_grid : populated w h (grid st);
  inv_stack : Forall (in_bounds w h) (stack st);
  inv_seed : seed_ok (rng (gen st))
}.

(** The state in which [generate] enters its loop, once the write to
    [grid[1][1]] has returned [grid1], and the states the loop passes
    through from there. *)
Definition dfs_start (this : MazeGenerator) (grid1 : Grid) : dfs :=
  {| grid := grid1; stack := [ {| x := 1; y := 1 |} ];
     visited := {[ key_of 1 1 ]};
     gen := {| width := width this; height := height this;
               rng := {| seed := 555 |} |} |}.

Inductive reachable (this : MazeGenerator) : dfs → Prop :=
  | reachable_start grid1 :
      clear_wall (init_grid (width this) (height this)) 1 1 = Returns grid1 →
      reachable this (dfs_start this grid1)
  | reachable_turn st current rest st' :
      reachable this st →
      stack st = current :: rest →
      carve_step st current = Returns st' →
      reachable this st'.

(** The interior cells not yet visited, and the turns the loop has left
    at most: two per such cell (its push, its pop) and one per cell on
    the stack. *)
Definition unvisited (w h : Z) (seen : gset string) : list Position :=
  List.filter (λ p, negb (bool_decide (key_of (x p) (y p) ∈ seen)))
    (interior w h).

Definition turns_left (st : dfs) : nat :=
  (2 * length (unvisited (width (gen st)) (height (gen st)) (visited st))
   + length (stack st))%nat.

(** The doubles [next] can return, checked one seed at a time: the value
    lies in [0, 1), and scaled by a length from 1 to 4 it stays below that
    length. *)
Definition sample_ok (s : Z) : bool :=
  let v := PrimFloat.div (float_of_Z s) 233280%float in
  PrimFloat.leb 0 v && PrimFloat.ltb v 1 &&
  forallb (λ n, let f := PrimFloat.mul v (float_of_Z n) in
                PrimFloat.leb 0 f && PrimFloat.ltb f (float_of_Z n))
    [1; 2; 3; 4].

Fixpoint all_from (count : nat) (s : Z) (p : Z → bool) : bool :=
  match count with
  | O => true
  | S count' => p s && all_from count' (s + 1) p
  end.

(** The seed after [n] calls of [next], from the seed [s]. *)
Definition seed_after (n : nat) (s : Z) : Z :=
  Nat.iter n (λ s, seed (snd (next {| seed := s |}))) s.

(** [count] calls of [next] from the seed [s], given up as soon as one of
    them leaves the seed [s0]. *)
Fixpoint calls_avoiding (count : nat) (s0 s : Z) : option Z :=
  match count with
  | O => Some s
  | S count' =>
    let s' := seed (snd (next {| seed := s |})) in
    if s' =? s0 then None else calls_avoiding count' s0 s'
  end.

(** *** The shape of a maze *)

Definition floor_at (g : Grid) (p : Position) : Prop := is_floor g (y p) (x p).

Definition wall_at (g : Grid) (p : Position) : Prop :=
  isWall <$> cell_at g (y p) (x p) = Some true.

(** Two cells that share a side; a step of a runner, from a cell to a
    floor cell beside it; and the cells a runner can get to from a floor
    cell. *)
Definition adjacent (p q : Position) : Prop :=
  x q = x p ∧ (y q = y p - 1 ∨ y q = y p + 1) ∨
  y q = y p ∧ (x q = x p + 1 ∨ x q = x p - 1).

Definition walk (g : Grid) (p q : Position) : Prop :=
  adjacent p q ∧ floor_at g q.

Definition connected (g : Grid) (p q : Position) : Prop :=
  floor_at g p ∧ rtc (walk g) p q.

(** The two blocks of four cells that [generate] clears at the end. *)
Definition start_block (p : Position) : Prop :=
  0 ≤ x p ≤ 1 ∧ 0 ≤ y p ≤ 1.

Definition end_block (w h : Z) (p : Position) : Prop :=
  w - 2 ≤ x p ≤ w - 1 ∧ h - 2 ≤ y p ≤ h - 1.

Definition odd_cell (p : Position) : Prop :=
  Z.odd (x p) = true ∧ Z.odd (y p) = true.

(** The cells the loop can clear: the odd cells of the interior, and the
    cell between two of them that are two apart. *)
Definition carvable (w h : Z) (p : Position) : Prop :=
  interior_cell w h p ∧
  (Z.even (y p) = true → Z.odd (x p) = true ∧ y p < h - 2) ∧
  (Z.even (x p) = true → Z.odd (y p) = true ∧ x p < w - 2).

(** [pos] moved by [dir]. *)
Definition moved (pos dir : Position) : Position :=
  {| x := x pos + x dir; y := y pos + y dir |}.

(** What the loop of [generate] maintains of the maze it carves.  A cell
    is seen once its key is in [visited]. *)
Definition seen (st : dfs) (p : Position) : Prop :=
  key_of (x p) (y p) ∈ visited st.

Record maze_inv (w h : Z) (st : dfs) : Prop := {
  inv_start : seen st {| x := 1; y := 1 |};
  inv_floor : ∀ p, floor_at (grid st) p →
    carvable w h p ∨ p = {| x := 1; y := 1 |};
  inv_seen : ∀ p, seen st p →
    odd_cell p ∧ floor_at (grid st) p ∧
    (interior_cell w h p ∨ p = {| x := 1; y := 1 |});
  inv_on_stack : Forall (seen st) (stack st);
  inv_connected : ∀ p, floor_at (grid st) p →
    connected (grid st) {| x := 1; y := 1 |} p;
  inv_closed : ∀ p, seen st p →
    p ∈ stack st ∨
    ∀ dir, dir ∈ directions → interior_cell w h (moved p dir) →
      seen st (moved p dir)
}.

End MazeGenerator.

(* ===================================================================== *)
(** * services/QLearningAgent.ts *)
(* ===================================================================== *)

Module QLearningAgent.
Import JS Types.
Local Open Scope float_scope.

Record QLearningAgent : Type := {
  qTable : loc;
  alpha : float;
  gamma : float;
  epsilon : float;
  initialEpsilon : float;
  minEpsilon : float;
  decayRate : float
}.

(** Assignments to the fields of [this]. *)
Definition set_qTable (v : loc) (this : QLearningAgent) : QLearningAgent :=
  {| qTable := v; alpha := alpha this; gamma := gamma this;
     epsilon := epsilon this; initialEpsilon := initialEpsilon this;
     minEpsilon := minEpsilon this; decayRate := decayRate this |}.
Definition set_alpha (v : float) (this : QLearningAgent) : QLearningAgent :=
  {| qTable := qTable this; alpha := v; gamma := gamma this;
     epsilon := epsilon this; initialEpsilon := initialEpsilon this;
     minEpsilon := minEpsilon this; decayRate := decayRate this |}.
Definition set_gamma (v : float) (this : QLearningAgent) : QLearningAgent :=
  {| qTable := qTable this; alpha := alpha this; gamma := v;
     epsilon := epsilon this; initialEpsilon := initialEpsilon this;
     minEpsilon := minEpsilon this; decayRate := decayRate this |}.
Definition set_epsilon (v : float) (this : QLearningAgent) : QLearningAgent :=
  {| qTable := qTable this; alpha := alpha this; gamma := gamma this;
     epsilon := v; initialEpsilon := initialEpsilon this;
     minEpsilon := minEpsilon this; decayRate := decayRate this |}.
Definition set_initialEpsilon (v : float) (this : QLearningAgent)
  : QLearningAgent :=
  {| qTable := qTable this; alpha := alpha this; gamma := gamma this;
     epsilon := epsilon this; initialEpsilon := v;
     minEpsilon := minEpsilon this; decayRate := decayRate this |}.

Definition actions : list Action := [UP; RIGHT; DOWN; LEFT].

(** The field initialisers run first, then the body of the constructor. *)
Definition new (alpha0 gamma0 epsilon0 : float) (h : heap)
  : QLearningAgent * heap :=
  let '(table, h) := object_new ∅ h in
  let this := {| qTable := table;
                 alpha := 0.1;
                 gamma := 0.9;
                 epsilon := 0.1;
                 initialEpsilon := 0.1;
                 minEpsilon := 0.01;
                 decayRate := 0.995 |} in
  let this := set_alpha alpha0 this in
  let this := set_gamma gamma0 this in
  let this := set_epsilon epsilon0 this in
  let this := set_initialEpsilon epsilon0 this in
  (this, h).

Definition getStateKey (pos : Position) : string := key_of (x pos) (y pos).

(** Returns the reference of the row, which is the row the table holds. *)
Definition getQValues (this : QLearningAgent) (pos : Position) (h : heap)
  : loc * heap :=
  let key := getStateKey pos in
  match object_get h (qTable this) key with
  | Some row => (row, h)
  | None =>
    let '(row, h) := array_new [0; 0; 0; 0] h in
    (row, object_set h (qTable this) key row)
  end.

Definition getMaxQ (this : QLearningAgent) (pos : Position) (h : heap)
  : float * heap :=
  let '(row, h) := getQValues this pos h in
  (Math_max (array_elements h row), h).

(** [xs[Math.floor(r * xs.length)]] *)
Definition pick {A : Type} (xs : list A) (r : float) : option A :=
  float_floor (r * float_of_Z (Z.of_nat (length xs))) ≫= index xs.

(** [random1] and [random2] are what the two calls of [Math.random()]
    return; the result is [None] when the index falls off the array. *)
Definition chooseAction (this : QLearningAgent) (random1 random2 : float)
    (pos : Position) (h : heap) : option Action * heap :=
  if random1 <? epsilon this then (pick actions random2, h)
  else
    let '(row, h) := getQValues this pos h in
    let qValues := array_elements h row in
    let maxQ := Math_max qValues in
    let bestActions :=
      List.filter (λ a, match qValues !! action_index a with
                        | Some q => q =? maxQ
                        | None => false
                        end) actions in
    (pick bestActions random2, h).

(** An entry read off the end of the row is [undefined], of which the
    arithmetic that follows makes NaN. *)
Definition update (this : QLearningAgent) (state : Position) (action : Action)
    (reward : float) (nextState : Position) (h : heap) : heap :=
  let '(currentQValues, h) := getQValues this state h in
  let oldQ := default PrimFloat.nan
                (array_elements h currentQValues !! action_index action) in
  let '(maxNextQ, h) := getMaxQ this nextState h in
  let newQ := oldQ + alpha this * (reward + gamma this * maxNextQ - oldQ) in
  let h := array_set h currentQValues (action_index action) newQ in
  object_set h (qTable this) (getStateKey state) currentQValues.

Definition decayCuriosity (this : QLearningAgent) : QLearningAgent :=
  set_epsilon (float_max (minEpsilon this) (epsilon this * decayRate this)) this.

Definition resetQTable (this : QLearningAgent) (h : heap)
  : QLearningAgent * heap :=
  let '(table, h) := object_new ∅ h in
  let this := set_qTable table this in
  (set_epsilon (initialEpsilon this) this, h).

Definition setParameters (this : QLearningAgent)
    (alpha0 gamma0 initialEpsilon0 : float) : QLearningAgent :=
  let this := set_alpha alpha0 this in
  let this := set_gamma gamma0 this in
  let this := set_initialEpsilon initialEpsilon0 this in
  set_epsilon initialEpsilon0 this.

Definition setQTable (this : QLearningAgent) (newQTable : loc) (h : heap)
  : QLearningAgent * heap :=
  let '(table, h) := object_spread h newQTable in
  (set_qTable table this, h).

(** ** What the properties below speak of *)

(** [this.qTable[key] = [q0, q1, ...]], as the tests of the repository
    prepare a table. *)
Definition assign_row (this : QLearningAgent) (key : string) (qs : list float)
    (h : heap) : heap :=
  let '(row, h) := array_new qs h in
  object_set h (qTable this) key row.

(** The row [getQValues] creates for a key it does not find. *)
Definition zero_row : list float := [0; 0; 0; 0].

(** The invariant of the Q-table at [table]: it is an object of the heap,
    and every key present in it holds an array of exactly four numbers. *)
Definition table_inv (h : heap) (table : loc) : Prop :=
  ∃ t, objects h !! table = Some t ∧
    ∀ k row, t !! k = Some row →
      ∃ qs, arrays h !! row = Some qs ∧ length qs = 4%nat.

(** The row the table holds for [pos], if any, and the row it stands for:
    an absent key reads as four zeros. *)
Definition row_of (h : heap) (this : QLearningAgent) (pos : Position)
  : option (list float) :=
  object_get h (qTable this) (getStateKey pos) ≫= λ row, arrays h !! row.

Definition lazy_row (h : heap) (this : QLearningAgent) (pos : Position)
  : list float :=
  default zero_row (row_of h this pos).

(** No two keys of the table hold the same array. *)
Definition unshared (h : heap) (table : loc) : Prop :=
  ∀ t k1 k2 row, objects h !! table = Some t →
    t !! k1 = Some row → t !! k2 = Some row → k1 = k2.

(** No entry of the row is NaN. *)
Definition numbers (qs : list float) : Prop :=
  Forall (λ q, PrimFloat.is_nan q = false) qs.

(** [qValues[a]], for an action [a]. *)
Definition entry (qs : list float) (a : Action) : float :=
  default PrimFloat.nan (qs !! action_index a).

End QLearningAgent.

(* ===================================================================== *)
(** * components/MazeScene.tsx: the scale of the heat map *)
(* ===================================================================== *)

Module MazeScene.

(** [globalMaxQ]; [values] is [Object.values(qTable)], each of them an
    array: the rows of the table in the order of its keys:
    [let max = 0.0001;
     values.forEach(qs => qs.forEach(q => { if (q > max) max = q; }))] *)
Definition globalMaxQ (values : list (list float)) : float :=
  fold_left
    (λ max qs, fold_left (λ max q, if PrimFloat.ltb max q then q else max) qs max)
    values 0.0001%float.

End MazeScene.

(* ===================================================================== *)
(** * App.tsx: the simulation *)
(* ===================================================================== *)

Module App.
Import JS Types.
Import MazeGenerator (outcome, Returns, Throws, bind, Grid, cell_at).

Definition MAZE_SIZE : Z := 15.
Definition DEFAULT_START : Position := {| x := 0; y := 0 |}.
Definition DEFAULT_GOAL : Position :=
  {| x := MAZE_SIZE - 1; y := MAZE_SIZE - 1 |}.
Definition MAX_STEPS : Z := 2000.

Definition DEFAULT_ALPHA : float := 0.1.
Definition DEFAULT_GAMMA : float := 0.9.
Definition DEFAULT_EPSILON : float := 0.2.

(** [SimulationState], of [types.ts].  The counters are integers that stay
    far below 2^53, where the arithmetic of doubles is exact. *)
Record SimulationState := {
  episode : Z;
  step : Z;
  totalReward : float;
  epsilon : float;
  isGoalReached : bool;
  bestStepCount : option Z
}.

(** What the callbacks of the component work on: the agent, the refs
    [simInternalState], [agentPosInternal], [gridInternal] and
    [exploredCellsInternal], and the [startPos] and [goalPos] the callbacks
    have captured. *)
Record App := {
  agentRef : QLearningAgent.QLearningAgent;
  simInternalState : SimulationState;
  agentPosInternal : Position;
  gridInternal : Grid;
  exploredCellsInternal : gset string;
  startPos : Position;
  goalPos : Position
}.

Definition freshState : SimulationState :=
  {| episode := 1; step := 0; totalReward := 0; epsilon := DEFAULT_EPSILON;
     isGoalReached := false; bestStepCount := None |}.

(** [agentRef.current.update(pos, action, reward, finalNextPos)].  When
    [chooseAction] has returned [undefined], [currentQValues[undefined]]
    reads as [undefined] and the write [currentQValues[undefined] = NaN]
    sets a property that is no element of the array: the two rows are
    looked up, which creates them if need be, and no entry changes. *)
Definition update (this : QLearningAgent.QLearningAgent) (state : Position)
    (action : option Action) (reward : float) (nextState : Position)
    (h : heap) : heap :=
  match action with
  | Some action => QLearningAgent.update this state action reward nextState h
  | None =>
    let '(currentQValues, h) := QLearningAgent.getQValues this state h in
    let '(_, h) := QLearningAgent.getMaxQ this nextState h in
    object_set h (QLearningAgent.qTable this)
      (QLearningAgent.getStateKey state) currentQValues
  end.

(** [runStep]; [random1] and [random2] are what the two calls of
    [Math.random()] in [chooseAction] return.  The counters [episode] and
    [step] are counted up as the code does as long as they are safe
    integers. *)
Definition runStep (app : App) (random1 random2 : float) (h : heap)
  : outcome (App * heap) :=
  let s := simInternalState app in
  let pos := agentPosInternal app in
  let grid := gridInternal app in
  if isGoalReached s || (MAX_STEPS <=? step s)%Z then
    let finalCount := step s in
    let success := isGoalReached s in
    let agent := QLearningAgent.decayCuriosity (agentRef app) in
    let s' :=
      {| episode := episode s + 1;
         step := 0;
         totalReward := 0;
         epsilon := QLearningAgent.epsilon agent;
         isGoalReached := false;
         bestStepCount :=
           if success then
             match bestStepCount s with
             | None => Some finalCount
             | Some best => Some (Z.min best finalCount)
             end
           else bestStepCount s |} in
    Returns
      ({| agentRef := agent;
          simInternalState := s';
          agentPosInternal := startPos app;
          gridInternal := grid;
          exploredCellsInternal :=
            {[ key_of (x (startPos app)) (y (startPos app)) ]};
          startPos := startPos app;
          goalPos := goalPos app |}, h)
  else
    let '(action, h) :=
      QLearningAgent.chooseAction (agentRef app) random1 random2 pos h in
    let nextX :=
      match action with
      | Some RIGHT => x pos + 1
      | Some LEFT => x pos - 1
      | _ => x pos
      end%Z in
    let nextY :=
      match action with
      | Some UP => y pos - 1
      | Some DOWN => y pos + 1
      | _ => y pos
      end%Z in
    let outOfBounds :=
      ((nextX <? 0) || (MAZE_SIZE <=? nextX) ||
       (nextY <? 0) || (MAZE_SIZE <=? nextY))%Z in
    bind (if outOfBounds then Returns true
          else match cell_at grid nextY nextX with
               | Some cell => Returns (isWall cell)
               | None => Throws
               end)
      (λ hitWall,
        let '(reward, finalNextPos, reached) :=
          if hitWall then ((-100)%float, pos, false)
          else if ((nextX =? x (goalPos app)) && (nextY =? y (goalPos app)))%Z
          then (1000%float, {| x := nextX; y := nextY |}, true)
          else ((-1)%float, {| x := nextX; y := nextY |}, false) in
        let h := update (agentRef app) pos action reward finalNextPos h in
        Returns
          ({| agentRef := agentRef app;
              simInternalState :=
                {| episode := episode s;
                   step := step s + 1;
                   totalReward := PrimFloat.add (totalReward s) reward;
                   epsilon := epsilon s;
                   isGoalReached := reached;
                   bestStepCount := bestStepCount s |};
              agentPosInternal := finalNextPos;
              gridInternal := grid;
              exploredCellsInternal :=
                {[ key_of (x finalNextPos) (y finalNextPos) ]}
                  ∪ exploredCellsInternal app;
              startPos := startPos app;
              goalPos := goalPos app |}, h)).

(** Successive calls of [runStep], one pair of random numbers each. *)
Fixpoint run (draws : list (float * float)) (app : App) (h : heap)
  : outcome (App * heap) :=
  match draws with
  | [] => Returns (app, h)
  | (random1, random2) :: draws =>
    bind (runStep app random1 random2 h) (λ '(app, h), run draws app h)
  end.

(** [resetRunner] *)
Definition resetRunner (app : App) (h : heap) : App * heap :=
  let '(agent, h) := QLearningAgent.resetQTable (agentRef app) h in
  let agent :=
    QLearningAgent.setParameters agent
      DEFAULT_ALPHA DEFAULT_GAMMA DEFAULT_EPSILON in
  ({| agentRef := agent;
      simInternalState := freshState;
      agentPosInternal := startPos app;
      gridInternal := gridInternal app;
      exploredCellsInternal :=
        {[ key_of (x (startPos app)) (y (startPos app)) ]};
      startPos := startPos app;
      goalPos := goalPos app |}, h).

(** The component as it mounts: the initial values of its refs, then its
    two effects, which set the parameters of the agent to the defaults,
    generate the maze and call [resetRunner]. *)
Definition mount (h : heap) : outcome (App * heap) :=
  let '(agent, h) :=
    QLearningAgent.new DEFAULT_ALPHA DEFAULT_GAMMA DEFAULT_EPSILON h in
  let mazeGen := MazeGenerator.new MAZE_SIZE MAZE_SIZE in
  let agent :=
    QLearningAgent.setParameters agent
      DEFAULT_ALPHA DEFAULT_GAMMA DEFAULT_EPSILON in
  bind (MazeGenerator.generate mazeGen)
    (λ '(staticMaze, _),
      Returns
        (resetRunner
           {| agentRef := agent;
              simInternalState := freshState;
              agentPosInternal := DEFAULT_START;
              gridInternal := staticMaze;
              exploredCellsInternal := ∅;
              startPos := DEFAULT_START;
              goalPos := DEFAULT_GOAL |} h)).

(** ** What the properties below speak of *)

(** The runner stands on a floor cell of a grid that has a cell wherever
    [runStep] may look, and so does the start. *)
Record arena (app : App) : Prop := {
  arena_cells : ∀ row col,
    (0 ≤ row < MAZE_SIZE)%Z → (0 ≤ col < MAZE_SIZE)%Z →
    is_Some (cell_at (gridInternal app) row col);
  arena_runner :
    MazeGenerator.in_bounds MAZE_SIZE MAZE_SIZE (agentPosInternal app) ∧
    MazeGenerator.floor_at (gridInternal app) (agentPosInternal app);
  arena_start :
    MazeGenerator.in_bounds MAZE_SIZE MAZE_SIZE (startPos app) ∧
    MazeGenerator.floor_at (gridInternal app) (startPos app)
}.

(** The books of the simulation are in order. *)
Record books (app : App) : Prop := {
  books_step : (0 ≤ step (simInternalState app) ≤ MAX_STEPS)%Z;
  books_episode : (1 ≤ episode (simInternalState app))%Z;
  books_epsilon :
    epsilon (simInternalState app) = QLearningAgent.epsilon (agentRef app);
  books_goal :
    isGoalReached (simInternalState app) = true →
    agentPosInternal app = goalPos app ∧
    (1 ≤ step (simInternalState app))%Z;
  books_best : ∀ best,
    bestStepCount (simInternalState app) = Some best →
    (1 ≤ best ≤ MAX_STEPS)%Z
}.

(** The table of the agent is in order: rows of four entries, no row
    under two keys. *)
Definition table_ok (app : App) (h : heap) : Prop :=
  QLearningAgent.table_inv h (QLearningAgent.qTable (agentRef app)) ∧
  QLearningAgent.unshared h (QLearningAgent.qTable (agentRef app)).

End App.

(* ===================================================================== *)
(** * Properties of doubles *)
(* ===================================================================== *)

Module DoubleSpec.
Import JS.
Local Open Scope Z_scope.

(** ** Shifting a mantissa right *)

Lemma iter_pos_nat {A : Type} (f : A → A) (p : positive) (x : A) :
  SpecFloat.iter_pos f p x = Nat.iter (Pos.to_nat p) f x.
Proof.
  revert x. induction p as [p IH|p IH|]; intros x.
  - change (SpecFloat.iter_pos f p~1 x) with (SpecFloat.iter_pos f p (SpecFloat.iter_pos f p (f x))).
    rewrite !IH, Pos2Nat.inj_xI, Nat.iter_succ_r.
    replace (2 * Pos.to_nat p)%nat with (Pos.to_nat p + Pos.to_nat p)%nat by lia.
    by rewrite Nat.iter_add.
  - change (SpecFloat.iter_pos f p~0 x) with (SpecFloat.iter_pos f p (SpecFloat.iter_pos f p x)).
    rewrite !IH, Pos2Nat.inj_xO.
    replace (2 * Pos.to_nat p)%nat with (Pos.to_nat p + Pos.to_nat p)%nat by lia.
    by rewrite Nat.iter_add.
  - done.
Qed.

Lemma shr_1_spec (mrs : shr_record) :
  0 ≤ shr_m mrs →
  shr_m (shr_1 mrs) = shr_m mrs / 2 ∧
  (shr_r mrs || shr_s mrs = false → Z.even (shr_m mrs) = true →
   shr_r (shr_1 mrs) || shr_s (shr_1 mrs) = false).
Proof.
  destruct mrs as [m r s]. simpl. intros Hm.
  destruct m as [|[p|p|]|p]; simpl; try lia.
  - split; [done|]. by intros ->.
  - split; [|done]. rewrite Pos2Z.inj_xI.
    apply Z.div_unique with 1; lia.
  - split; [|by intros ->]. rewrite Pos2Z.inj_xO.
    apply Z.div_unique with 0; lia.
  - split; [|done]. done.
Qed.

(** After [k] shifts the mantissa is the quotient by [2^k], and the
    location is exact whenever nothing was shifted out. *)
Lemma shr_iter_spec (m : Z) (k : nat) :
  0 ≤ m →
  let mrs := Nat.iter k shr_1 (Build_shr_record m false false) in
  shr_m mrs = m / 2 ^ Z.of_nat k ∧
  (m mod 2 ^ Z.of_nat k = 0 → shr_r mrs || shr_s mrs = false).
Proof.
  intros Hm. induction k as [|k IH]; simpl.
  - split; [by rewrite Z.div_1_r | done].
  - destruct IH as [IHm IHe].
    set (mrs := Nat.iter k shr_1 _) in *.
    assert (0 ≤ shr_m mrs) as Hpos.
    { rewrite IHm. apply Z.div_pos; [done|]. apply Z.pow_pos_nonneg; lia. }
    destruct (shr_1_spec mrs Hpos) as [H1 H2].
    assert (0 < 2 ^ Z.of_nat k) by (apply Z.pow_pos_nonneg; lia).
    replace (Z.of_nat (S k)) with (Z.of_nat k + 1) by lia.
    rewrite Z.pow_add_r, Z.pow_1_r by lia.
    split.
    + rewrite H1, IHm. rewrite Z.div_div by lia. done.
    + intros Hmod. apply H2.
      * apply IHe. apply Z.mod_divide in Hmod; [|lia].
        apply Z.mod_divide; [lia|].
        destruct Hmod as [c Hc]. exists (c * 2). lia.
      * rewrite IHm. apply Z.mod_divide in Hmod; [|lia].
        destruct Hmod as [c Hc]. subst m.
        replace (c * (2 ^ Z.of_nat k * 2)) with (c * 2 * 2 ^ Z.of_nat k) by lia.
        rewrite Z.div_mul by lia. rewrite Z.even_mul. simpl. apply orb_true_r.
Qed.

Lemma shr_spec (m e n : Z) :
  0 ≤ m →
  let k := Z.max n 0 in
  let mrs := fst (shr (Build_shr_record m false false) e n) in
  snd (shr (Build_shr_record m false false) e n) = e + k ∧
  shr_m mrs = m / 2 ^ k ∧
  (m mod 2 ^ k = 0 → loc_of_shr_record mrs = loc_Exact).
Proof.
  intros Hm. unfold shr. destruct n as [|p|p]; simpl.
  - split; [lia|]. split; [by rewrite Z.div_1_r | done].
  - rewrite iter_pos_nat.
    destruct (shr_iter_spec m (Pos.to_nat p) Hm) as [H1 H2].
    rewrite positive_nat_Z in H1, H2.
    split; [lia|]. split; [done|]. intros Hmod. specialize (H2 Hmod).
    destruct (Nat.iter _ _ _) as [m' r s]. simpl in *.
    by apply orb_false_elim in H2 as [-> ->].
  - split; [lia|]. split; [by rewrite Z.div_1_r | done].
Qed.

(** Rounding to nearest never passes a multiple of the new unit that lies
    at or above the number rounded. *)
Lemma round_shr_le (m e n X : Z) :
  0 ≤ m →
  let mrs := fst (shr (Build_shr_record m false false) e n) in
  m ≤ X * 2 ^ Z.max n 0 →
  0 ≤ round_nearest_even (shr_m mrs) (loc_of_shr_record mrs) ≤ X.
Proof.
  intros Hm mrs HX. destruct (shr_spec m e n Hm) as (_ & Hq & Hexact).
  fold mrs in Hq, Hexact.
  set (k := Z.max n 0) in *.
  assert (0 < 2 ^ k) as Hk by (apply Z.pow_pos_nonneg; lia).
  assert (0 ≤ shr_m mrs) as Hq0 by (rewrite Hq; by apply Z.div_pos).
  assert (shr_m mrs ≤ X) as HqX.
  { rewrite Hq. apply Z.div_le_upper_bound; [done|]. by rewrite Z.mul_comm. }
  assert (loc_of_shr_record mrs ≠ loc_Exact → shr_m mrs + 1 ≤ X) as Hinexact.
  { intros Hloc. destruct (Z.eq_dec (m mod 2 ^ k) 0) as [Hmod|Hmod];
      [by apply Hexact in Hmod|].
    rewrite Hq. assert (m / 2 ^ k < X); [|lia].
    apply Z.div_lt_upper_bound; [done|]. rewrite Z.mul_comm.
    destruct (Z.eq_dec m (X * 2 ^ k)) as [Heq|Hne]; [|lia].
    exfalso. apply Hmod. rewrite Heq. apply Z.mod_mul. lia. }
  unfold round_nearest_even.
  destruct (loc_of_shr_record mrs) as [|[| |]]; try lia.
  - destruct (Z.even _); [lia|]. split; [lia|]. by apply Hinexact.
  - split; [lia|]. by apply Hinexact.
Qed.

(** ** The number of bits of a mantissa *)

Lemma digits2_pos_upper (m : positive) : Z.pos m < 2 ^ Z.pos (digits2_pos m).
Proof.
  induction m as [p IH|p IH|]; simpl digits2_pos.
  - rewrite Pos2Z.inj_succ, Z.pow_succ_r by lia. lia.
  - rewrite Pos2Z.inj_succ, Z.pow_succ_r by lia. lia.
  - reflexivity.
Qed.

Lemma digits2_pos_lower (m : positive) : 2 ^ (Z.pos (digits2_pos m) - 1) ≤ Z.pos m.
Proof.
  induction m as [p IH|p IH|]; simpl digits2_pos.
  - rewrite Pos2Z.inj_succ. replace (Z.succ (Z.pos (digits2_pos p)) - 1)
      with (Z.succ (Z.pos (digits2_pos p) - 1)) by lia.
    rewrite Z.pow_succ_r by lia. lia.
  - rewrite Pos2Z.inj_succ. replace (Z.succ (Z.pos (digits2_pos p)) - 1)
      with (Z.succ (Z.pos (digits2_pos p) - 1)) by lia.
    rewrite Z.pow_succ_r by lia. lia.
  - reflexivity.
Qed.

Lemma digits2_pos_mul (a b : positive) :
  Z.pos (digits2_pos (a * b)) ≤ Z.pos (digits2_pos a) + Z.pos (digits2_pos b).
Proof.
  pose proof (digits2_pos_upper a) as Ha. pose proof (digits2_pos_upper b) as Hb.
  pose proof (digits2_pos_lower (a * b)) as Hab.
  assert (Z.pos (a * b) < 2 ^ (Z.pos (digits2_pos a) + Z.pos (digits2_pos b))) as Hlt.
  { rewrite Z.pow_add_r, Pos2Z.inj_mul by lia. nia. }
  assert (Z.pos (digits2_pos (a * b)) - 1
            < Z.pos (digits2_pos a) + Z.pos (digits2_pos b)); [|lia].
  apply (Z.pow_lt_mono_r_iff 2); lia.
Qed.

Lemma Zdigits2_lower (m : Z) : 0 < m → 2 ^ (Zdigits2 m - 1) ≤ m.
Proof. destruct m as [|p|p]; try lia. intros _. apply digits2_pos_lower. Qed.

Lemma Zdigits2_nonneg (m : Z) : 0 ≤ Zdigits2 m.
Proof. destruct m; simpl; lia. Qed.

(** What [valid_binary] says of a finite double. *)
Lemma valid_finite s m e :
  valid_binary (S754_finite s m e) = true →
  Z.pos (digits2_pos m) ≤ 53 ∧ -1074 ≤ e ≤ 971 ∧
  (-1074 < e → Z.pos (digits2_pos m) = 53).
Proof.
  unfold SpecFloat.valid_binary, bounded, canonical_mantissa, fexp, emin, emax, prec.
  intros [Hc He]%andb_prop. apply Z.eqb_eq in Hc. apply Z.leb_le in He. lia.
Qed.

(** ** Rounding a product *)

(** [binary_round_aux] on a positive mantissa returns a zero or a finite
    number of the sign asked for, and when the value rounded is at most
    [M * 2^ex], a value on the grid of the result, so is the result. *)
Lemma binary_round_aux_le (s : bool) (m0 M : positive) (e0 ex : Z) :
  e0 ≤ ex →
  fexp prec emax (Z.pos (digits2_pos m0) + e0) ≤ ex →
  Z.pos m0 ≤ Z.pos M * 2 ^ (ex - e0) →
  Z.pos M < 2 ^ 53 →
  ex ≤ 971 →
  let R := binary_round_aux prec emax s (Z.pos m0) e0 loc_Exact in
  R = S754_zero s ∨
  ∃ m e, R = S754_finite s m e ∧ e ≤ ex ∧ Z.pos m ≤ Z.pos M * 2 ^ (ex - e).
Proof.
  intros He0 Hfexp Hm0 HM Hex. unfold binary_round_aux, shr_fexp.
  change (shr_record_of_loc ?m loc_Exact) with (Build_shr_record m false false).
  change (Zdigits2 (Z.pos m0)) with (Z.pos (digits2_pos m0)).
  set (n := fexp prec emax (Z.pos (digits2_pos m0) + e0) - e0).
  destruct (shr_spec (Z.pos m0) e0 n ltac:(lia)) as (He' & _ & _).
  pose proof (round_shr_le (Z.pos m0) e0 n (Z.pos M * 2 ^ (ex - (e0 + Z.max n 0)))
                ltac:(lia)) as Hround.
  destruct (shr (Build_shr_record (Z.pos m0) false false) e0 n) as [mrs' e'].
  simpl in He', Hround. subst e'.
  set (e' := e0 + Z.max n 0) in *.
  assert (e' ≤ ex) as He'ex by (unfold e', n; lia).
  set (m1 := round_nearest_even (shr_m mrs') (loc_of_shr_record mrs')) in *.
  destruct Hround as [Hm1 Hm1X].
  { rewrite <- Z.mul_assoc, <- Z.pow_add_r by lia.
    replace (ex - e' + Z.max n 0) with (ex - e0) by (unfold e'; lia). done. }
  set (n2 := fexp prec emax (Zdigits2 m1 + e') - e').
  destruct (shr_spec m1 e' n2 Hm1) as (He'' & Hm2 & _).
  destruct (shr (Build_shr_record m1 false false) e' n2) as [mrs'' e''].
  simpl in He'', Hm2. subst e''.
  set (e'' := e' + Z.max n2 0) in *.
  assert (0 < 2 ^ (ex - e')) as Hp1 by (apply Z.pow_pos_nonneg; lia).
  assert (e'' ≤ ex) as He''ex.
  { unfold e''. destruct (Z.max_spec n2 0) as [[_ ->]|[Hn2 ->]]; [lia|].
    unfold n2, fexp. unfold fexp in Hfexp.
    assert (Zdigits2 m1 + e' - prec ≤ ex); [|unfold emin, emax, prec in *; lia].
    destruct (Z.eq_dec m1 0) as [->|Hne]; [simpl; unfold prec; lia|].
    pose proof (Zdigits2_lower m1 ltac:(lia)) as Hd.
    assert (2 ^ (Zdigits2 m1 - 1) < 2 ^ (53 + (ex - e'))) as Hlt.
    { rewrite Z.pow_add_r by lia. nia. }
    apply Z.pow_lt_mono_r_iff in Hlt; unfold prec; lia. }
  assert (0 < 2 ^ Z.max n2 0) as Hp2 by (apply Z.pow_pos_nonneg; lia).
  assert (0 ≤ shr_m mrs'' ≤ Z.pos M * 2 ^ (ex - e'')) as [Hlo Hhi].
  { rewrite Hm2. split; [by apply Z.div_pos|].
    apply Z.div_le_upper_bound; [done|].
    rewrite (Z.mul_comm (2 ^ _)), <- Z.mul_assoc, <- Z.pow_add_r by lia.
    replace (ex - e'' + Z.max n2 0) with (ex - e') by (unfold e''; lia). done. }
  destruct (shr_m mrs'') as [|m|m]; [by left| |lia].
  right. exists m, e''. split; [|done].
  destruct (Z.leb_spec e'' (emax - prec)); [done|]. unfold emax, prec in *. lia.
Qed.

Lemma binary_round_aux_not_nan (s : bool) (m0 : positive) (e0 : Z) :
  binary_round_aux prec emax s (Z.pos m0) e0 loc_Exact ≠ S754_nan.
Proof.
  unfold binary_round_aux, shr_fexp.
  change (shr_record_of_loc ?m loc_Exact) with (Build_shr_record m false false).
  set (n := fexp prec emax _ - e0).
  pose proof (round_shr_le (Z.pos m0) e0 n (Z.pos m0) ltac:(lia)) as Hround.
  destruct (shr (Build_shr_record (Z.pos m0) false false) e0 n) as [mrs' e'].
  simpl in Hround.
  set (m1 := round_nearest_even (shr_m mrs') (loc_of_shr_record mrs')) in *.
  destruct Hround as [Hm1 _].
  { assert (0 < 2 ^ Z.max n 0) by (apply Z.pow_pos_nonneg; lia). nia. }
  set (n2 := fexp prec emax _ - e').
  destruct (shr_spec m1 e' n2 Hm1) as (_ & Hm2 & _).
  destruct (shr (Build_shr_record m1 false false) e' n2) as [mrs'' e''].
  simpl in Hm2.
  assert (0 ≤ shr_m mrs'') as Hlo.
  { rewrite Hm2. apply Z.div_pos; [done|]. apply Z.pow_pos_nonneg; lia. }
  destruct (shr_m mrs'') as [|m|m]; [done| |lia].
  by destruct (_ <=? _).
Qed.

(** ** The order of doubles *)

Lemma SFcompare_antisym (a b : spec_float) :
  SFcompare b a = CompOpp <$> SFcompare a b.
Proof.
  destruct a as [sa|sa| |sa ma ea], b as [sb|sb| |sb mb eb]; simpl; try done;
    try (by destruct sa); try (by destruct sb); try (by destruct sa, sb).
  destruct sa, sb; try done.
  - rewrite (Z.compare_antisym ea eb).
    destruct (ea ?= eb); simpl; try done.
    rewrite !Pos.compare_cont_spec. simpl.
    rewrite (Pos.compare_antisym ma mb). by destruct (ma ?= mb)%positive.
  - rewrite (Z.compare_antisym ea eb).
    destruct (ea ?= eb); simpl; try done.
    rewrite !Pos.compare_cont_spec. simpl.
    rewrite (Pos.compare_antisym ma mb). by destruct (ma ?= mb)%positive.
Qed.

Lemma SFcompare_refl (a : spec_float) : a ≠ S754_nan → SFcompare a a = Some Eq.
Proof.
  destruct a as [s|s| |s m e]; simpl; try done; try (by destruct s).
  intros _. rewrite Z.compare_refl, Pos.compare_cont_spec, Pos.compare_refl.
  by destruct s.
Qed.

Lemma SFleb_zero (a : spec_float) :
  SFleb (S754_zero false) a = true ↔ SF_nonneg a.
Proof. destruct a as [s|s| |s m e]; simpl; try done; by destruct s. Qed.

(** Anything at or above a number that is not negative is not negative. *)
Lemma SF_nonneg_le (a b : spec_float) :
  SF_nonneg a → SFleb a b = true → SF_nonneg b.
Proof.
  destruct a as [sa|sa| |sa ma ea], b as [sb|sb| |sb mb eb]; simpl; try done;
    unfold SFleb; simpl; try (by destruct sb); try (by destruct sa, sb).
Qed.

(** A double strictly between 0 and 1. *)
Lemma SF_rate (r : spec_float) :
  valid_binary r = true →
  SFltb (S754_zero false) r = true →
  SFltb r (S754_finite false 4503599627370496 (-52)) = true →
  ∃ m e, r = S754_finite false m e ∧ Z.pos (digits2_pos m) + e ≤ 0.
Proof.
  intros Hv H0 H1. unfold SFltb in H0, H1.
  destruct r as [s|s| |s m e]; cbn [SFcompare] in H0, H1;
    try discriminate; try (destruct s; discriminate).
  destruct s; [discriminate|]. exists m, e. split; [reflexivity|].
  apply valid_finite in Hv as (Hd & He & Hn).
  destruct (Z.compare_spec e (-52)) as [->|Hlt|Hgt]; [|lia|discriminate].
  rewrite Pos.compare_cont_spec in H1. cbn [Pos.switch_Eq] in H1.
  destruct (Pos.compare_spec m 4503599627370496) as [|Hm|]; try discriminate.
  assert (Z.pos (digits2_pos m) - 1 < 52) as Hlt; [|clear -Hlt; lia].
  apply (Z.pow_lt_mono_r_iff 2); [clear; lia..|].
  pose proof (digits2_pos_lower m) as Hl. change (2 ^ 52) with 4503599627370496.
  apply Pos2Z.pos_lt_pos in Hm.
  eapply Z.le_lt_trans; [exact Hl | exact Hm].
Qed.

(** ** Multiplying by a rate *)

(** The product of a double that is not negative by a double strictly
    between 0 and 1 is not above the double, and not negative. *)
Lemma SFmul_rate (x r : spec_float) :
  valid_binary x = true → valid_binary r = true →
  SF_nonneg x →
  SFltb (S754_zero false) r = true →
  SFltb r (S754_finite false 4503599627370496 (-52)) = true →
  SFleb (SFmul prec emax x r) x = true ∧ SF_nonneg (SFmul prec emax x r) ∧
  (∀ s, x = S754_zero s → SFmul prec emax x r = x).
Proof.
  intros Hvx Hvr Hx H0 H1.
  destruct (SF_rate r Hvr H0 H1) as (mr & er & -> & Hdr). clear H0 H1.
  destruct x as [s|s| |s mx ex]; cbn [SFmul SF_nonneg] in *.
  - rewrite xorb_false_r. split; [reflexivity|]. split; [exact I|]. reflexivity.
  - subst s. split; [reflexivity|]. split; [reflexivity|]. discriminate.
  - destruct Hx.
  - subst s. cbn [xorb].
    apply valid_finite in Hvx as (Hdx & Hex & _).
    apply valid_finite in Hvr as (Hdmr & Her & _).
    pose proof (digits2_pos_upper mx) as Hmx.
    pose proof (digits2_pos_upper mr) as Hmr.
    pose proof (digits2_pos_mul mx mr) as Hmul.
    destruct (binary_round_aux_le false (mx * mr) mx (ex + er) ex)
      as [->|(m & e & -> & He & Hm)].
    + lia.
    + unfold fexp, emin, emax, prec. lia.
    + replace (ex - (ex + er)) with (- er) by lia. rewrite Pos2Z.inj_mul.
      assert (2 ^ Z.pos (digits2_pos mr) ≤ 2 ^ (- er))
        by (apply Z.pow_le_mono_r; lia).
      apply Z.mul_le_mono_nonneg_l; [lia|].
      apply Z.lt_le_incl. eapply Z.lt_le_trans; [exact Hmr | assumption].
    + eapply Z.lt_le_trans; [exact Hmx|]. apply Z.pow_le_mono_r; lia.
    + lia.
    + split; [reflexivity|]. split; [exact I|]. discriminate.
    + split; [|split; [reflexivity | discriminate]].
      unfold SFleb. cbn [SFcompare].
      destruct (Z.compare_spec e ex) as [->|Hlt|Hgt]; [|reflexivity|lia].
      rewrite Z.sub_diag, Z.mul_1_r in Hm.
      rewrite Pos.compare_cont_spec. cbn [Pos.switch_Eq].
      destruct (Pos.compare_spec m mx) as [| |Hgt]; try reflexivity.
      apply Pos2Z.pos_lt_pos in Hgt. lia.
Qed.

Lemma SFmul_rate_not_nan (x r : spec_float) :
  valid_binary r = true →
  x ≠ S754_nan →
  SFltb (S754_zero false) r = true →
  SFltb r (S754_finite false 4503599627370496 (-52)) = true →
  SFmul prec emax x r ≠ S754_nan.
Proof.
  intros Hvr Hx H0 H1.
  destruct (SF_rate r Hvr H0 H1) as (mr & er & -> & Hdr). clear H0 H1.
  destruct x as [s|s| |s mx ex]; cbn [SFmul]; try discriminate.
  - contradiction.
  - apply binary_round_aux_not_nan.
Qed.

(** ** Doubles *)

Lemma is_nan_false (a : float) :
  PrimFloat.is_nan a = false ↔ Prim2SF a ≠ S754_nan.
Proof.
  unfold PrimFloat.is_nan. rewrite FloatAxioms.eqb_spec. unfold SFeqb.
  rewrite negb_false_iff. split.
  - intros H Hnan. rewrite Hnan in H. discriminate.
  - intros H. by rewrite SFcompare_refl.
Qed.

Lemma leb_not_nan (a b : float) :
  PrimFloat.leb a b = true →
  PrimFloat.is_nan a = false ∧ PrimFloat.is_nan b = false.
Proof.
  rewrite FloatAxioms.leb_spec. unfold SFleb. intros H.
  split; apply is_nan_false; intros Hnan; rewrite Hnan in H;
    [|destruct (Prim2SF a)]; discriminate.
Qed.

Lemma leb_refl (a : float) :
  PrimFloat.is_nan a = false → PrimFloat.leb a a = true.
Proof.
  intros H%is_nan_false. rewrite FloatAxioms.leb_spec. unfold SFleb.
  by rewrite SFcompare_refl.
Qed.

Lemma ltb_leb (a b : float) :
  PrimFloat.ltb a b = true → PrimFloat.leb a b = true.
Proof.
  rewrite FloatAxioms.ltb_spec, FloatAxioms.leb_spec. unfold SFltb, SFleb.
  by destruct (SFcompare _ _) as [[| |]|].
Qed.

(** Two numbers neither of which is below the other compare equal. *)
Lemma not_ltb_leb (a b : float) :
  PrimFloat.is_nan a = false → PrimFloat.is_nan b = false →
  PrimFloat.ltb b a = false → PrimFloat.leb a b = true.
Proof.
  intros Ha%is_nan_false Hb%is_nan_false.
  rewrite FloatAxioms.ltb_spec, FloatAxioms.leb_spec. unfold SFltb, SFleb.
  rewrite (SFcompare_antisym (Prim2SF a) (Prim2SF b)).
  destruct (SFcompare (Prim2SF a) (Prim2SF b)) as [[| |]|] eqn:E; simpl; try done.
  destruct (Prim2SF a), (Prim2SF b); simpl in E; done.
Qed.

Lemma leb_not_ltb (a b : float) :
  PrimFloat.leb a b = true → PrimFloat.ltb b a = false.
Proof.
  rewrite FloatAxioms.ltb_spec, FloatAxioms.leb_spec. unfold SFltb, SFleb.
  rewrite (SFcompare_antisym (Prim2SF a) (Prim2SF b)).
  by destruct (SFcompare (Prim2SF a) (Prim2SF b)) as [[| |]|].
Qed.

(** Anything at or above a number that is not negative is not negative. *)
Lemma leb_zero_trans (a b : float) :
  PrimFloat.leb 0 a = true → PrimFloat.leb a b = true →
  PrimFloat.leb 0 b = true.
Proof.
  rewrite !FloatAxioms.leb_spec. change (Prim2SF 0) with (S754_zero false).
  rewrite !SFleb_zero. apply SF_nonneg_le.
Qed.

(** ** [Math.max] of two numbers *)

Lemma float_max_cases (a b : float) :
  PrimFloat.is_nan a = false → PrimFloat.is_nan b = false →
  (float_max a b = a ∧ PrimFloat.leb b a = true) ∨
  (float_max a b = b ∧ PrimFloat.leb a b = true).
Proof.
  intros Ha Hb. unfold float_max. rewrite Ha, Hb. simpl.
  destruct (PrimFloat.ltb a b) eqn:Hab; [right; split; [done|by apply ltb_leb]|].
  destruct (PrimFloat.ltb b a) eqn:Hba; [left; split; [done|by apply ltb_leb]|].
  destruct (_ && _).
  - right. split; [done|]. by apply not_ltb_leb.
  - left. split; [done|]. by apply not_ltb_leb.
Qed.

Lemma float_max_ge_l (a b : float) :
  PrimFloat.is_nan a = false → PrimFloat.is_nan b = false →
  PrimFloat.leb a (float_max a b) = true ∧
  PrimFloat.is_nan (float_max a b) = false.
Proof.
  intros Ha Hb. destruct (float_max_cases a b Ha Hb) as [[-> _]|[-> H]].
  - split; [by apply leb_refl | done].
  - done.
Qed.

Lemma float_max_le (a b c : float) :
  PrimFloat.leb a c = true → PrimFloat.leb b c = true →
  PrimFloat.leb (float_max a b) c = true.
Proof.
  intros Ha Hb. destruct (leb_not_nan _ _ Ha) as [Hna _].
  destruct (leb_not_nan _ _ Hb) as [Hnb _].
  by destruct (float_max_cases a b Hna Hnb) as [[-> _]|[-> _]].
Qed.

(** ** Multiplying by a rate *)

Lemma mul_rate (e r : float) :
  PrimFloat.leb 0 e = true →
  PrimFloat.ltb 0 r = true → PrimFloat.ltb r 1 = true →
  PrimFloat.leb (PrimFloat.mul e r) e = true ∧
  PrimFloat.leb 0 (PrimFloat.mul e r) = true ∧
  (PrimFloat.is_zero e = true → PrimFloat.mul e r = e).
Proof.
  rewrite !FloatAxioms.leb_spec, !FloatAxioms.ltb_spec, FloatAxioms.mul_spec.
  change (Prim2SF 0) with (S754_zero false).
  change (Prim2SF 1) with (S754_finite false 4503599627370496 (-52)).
  rewrite !SFleb_zero. intros He H0 H1.
  destruct (SFmul_rate (Prim2SF e) (Prim2SF r)
              (Prim2SF_valid e) (Prim2SF_valid r) He H0 H1) as (Hle & Hnn & Hz).
  split; [done|]. split; [done|].
  unfold PrimFloat.is_zero. rewrite FloatAxioms.eqb_spec.
  change (Prim2SF PrimFloat.zero) with (S754_zero false).
  intros Hzero. apply Prim2SF_inj. rewrite FloatAxioms.mul_spec.
  destruct (Prim2SF e) as [s|s| |s m ex] eqn:E; try done.
  - by apply (Hz s).
  - by destruct s.
  - by destruct s.
Qed.

Lemma mul_rate_not_nan (e r : float) :
  PrimFloat.is_nan e = false →
  PrimFloat.ltb 0 r = true → PrimFloat.ltb r 1 = true →
  PrimFloat.is_nan (PrimFloat.mul e r) = false.
Proof.
  rewrite !is_nan_false, !FloatAxioms.ltb_spec, FloatAxioms.mul_spec.
  change (Prim2SF 0) with (S754_zero false).
  change (Prim2SF 1) with (S754_finite false 4503599627370496 (-52)).
  intros He H0 H1. by apply SFmul_rate_not_nan; [apply Prim2SF_valid|..].
Qed.

(** One call of [decayCuriosity], on the numbers. *)
Lemma decay_step (m e r : float) :
  PrimFloat.ltb 0 r = true → PrimFloat.ltb r 1 = true →
  PrimFloat.leb 0 m = true →
  (PrimFloat.is_nan e = false →
     PrimFloat.leb m (float_max m (PrimFloat.mul e r)) = true ∧
     PrimFloat.is_nan (float_max m (PrimFloat.mul e r)) = false) ∧
  (PrimFloat.leb m e = true →
     PrimFloat.leb (float_max m (PrimFloat.mul e r)) e = true) ∧
  float_max m (PrimFloat.mul m r) = m.
Proof.
  intros H0 H1 Hm. destruct (leb_not_nan _ _ Hm) as [_ Hnm]. split_and!.
  - intros He. apply float_max_ge_l; [done|]. by apply mul_rate_not_nan.
  - intros Hme. apply float_max_le; [done|].
    by apply mul_rate; [eapply leb_zero_trans|..].
  - destruct (mul_rate m r Hm H0 H1) as (Hle & _ & Hzero).
    destruct (PrimFloat.is_zero m) eqn:Hz.
    + rewrite Hzero by done. unfold float_max. rewrite Hnm. cbn [orb].
      destruct (PrimFloat.ltb m m); [done|]. by destruct (_ && _).
    + destruct (leb_not_nan _ _ Hle) as [Hnp _].
      unfold float_max. rewrite Hnm, Hnp, Hz. cbn [orb andb].
      rewrite (leb_not_ltb _ _ Hle).
      case (PrimFloat.ltb (PrimFloat.mul m r) m); reflexivity.
Qed.

(** ** [Math.floor] *)

(** [Math.floor] of a double in [0, n), for [n] from 1 to 4, is an index
    below [n]. *)
Lemma float_floor_below (f : float) (n : Z) :
  1 ≤ n ≤ 4 →
  PrimFloat.leb 0 f = true → PrimFloat.ltb f (float_of_Z n) = true →
  ∃ i, float_floor f = Some i ∧ 0 ≤ i < n.
Proof.
  intros Hn Hle Hlt.
  rewrite FloatAxioms.leb_spec in Hle. rewrite FloatAxioms.ltb_spec in Hlt.
  assert (∃ mn en, Prim2SF (float_of_Z n) = S754_finite false mn en ∧
            en < 0 ∧ Z.pos mn = n * 2 ^ (- en) ∧ 2 ^ 53 ≤ n * 2 ^ (- en + 1))
    as (mn & en & Hn' & Hen & Hmn & Hbig).
  { assert (n = 1 ∨ n = 2 ∨ n = 3 ∨ n = 4) as [->|[->|[->| ->]]] by lia.
    - by exists 4503599627370496%positive, (-52).
    - by exists 4503599627370496%positive, (-51).
    - by exists 6755399441055744%positive, (-51).
    - by exists 4503599627370496%positive, (-50). }
  rewrite Hn' in Hlt. clear Hn'.
  pose proof (Prim2SF_valid f) as Hv. unfold float_floor.
  change (Prim2SF 0) with (S754_zero false) in Hle.
  destruct (Prim2SF f) as [s|s| |s m e]; simpl in Hle, Hlt.
  - exists 0. split; [done | lia].
  - by destruct s.
  - done.
  - destruct s; [done|].
    apply valid_finite in Hv as (Hd & _ & _).
    pose proof (digits2_pos_upper m) as Hm53.
    assert (Z.pos m < 2 ^ 53) as Hv.
    { eapply Z.lt_le_trans; [exact Hm53|]. apply Z.pow_le_mono_r; lia. }
    exists (Z.shiftl (Z.pos m) e). split; [done|].
    split; [by apply Z.shiftl_nonneg|].
    assert (e ≤ en ∧ Z.pos m < n * 2 ^ (- e)) as [He Hm].
    { unfold SFltb, SFcompare in Hlt.
      destruct (Z.compare_spec e en) as [->|He|He].
      - split; [lia|]. rewrite <- Hmn.
        rewrite Pos.compare_cont_spec in Hlt. simpl in Hlt.
        destruct (Pos.compare_spec m mn); done.
      - split; [lia|].
        assert (2 ^ (- en + 1) ≤ 2 ^ (- e)) by (apply Z.pow_le_mono_r; lia).
        nia.
      - done. }
    rewrite <- (Z.opp_involutive e) at 1.
    rewrite Z.shiftl_opp_r, Z.shiftr_div_pow2 by lia.
    apply Z.div_lt_upper_bound; [apply Z.pow_pos_nonneg; lia|]. lia.
Qed.

(** ** The order of doubles *)

Lemma SFleb_trans (a b c : spec_float) :
  SFleb a b = true → SFleb b c = true → SFleb a c = true.
Proof.
  unfold SFleb.
  destruct a as [sa|sa| |sa ma ea], b as [sb|sb| |sb mb eb],
           c as [sc|sc| |sc mc ec];
    cbn [SFcompare]; try discriminate; try reflexivity;
    repeat match goal with s : bool |- _ => destruct s end;
    try discriminate; try reflexivity;
    rewrite ?Pos.compare_cont_spec; cbn [Pos.switch_Eq];
    destruct (Z.compare_spec ea eb), (Z.compare_spec eb ec),
             (Z.compare_spec ea ec);
    try discriminate; try reflexivity; try lia; subst;
    destruct (Pos.compare_spec ma mb), (Pos.compare_spec mb mc),
             (Pos.compare_spec ma mc);
    cbn [CompOpp]; try discriminate; try reflexivity; lia.
Qed.

Lemma leb_trans (a b c : float) :
  PrimFloat.leb a b = true → PrimFloat.leb b c = true →
  PrimFloat.leb a c = true.
Proof. rewrite !FloatAxioms.leb_spec. apply SFleb_trans. Qed.

Lemma eqb_refl (a : float) :
  PrimFloat.is_nan a = false → PrimFloat.eqb a a = true.
Proof.
  intros H%is_nan_false. rewrite FloatAxioms.eqb_spec. unfold SFeqb.
  by rewrite SFcompare_refl.
Qed.

Lemma eqb_leb (a b : float) :
  PrimFloat.eqb a b = true → PrimFloat.leb a b = true.
Proof.
  rewrite FloatAxioms.eqb_spec, FloatAxioms.leb_spec. unfold SFeqb, SFleb.
  by destruct (SFcompare _ _) as [[| |]|].
Qed.

Lemma eqb_sym (a b : float) : PrimFloat.eqb a b = PrimFloat.eqb b a.
Proof.
  rewrite !FloatAxioms.eqb_spec. unfold SFeqb.
  rewrite (SFcompare_antisym (Prim2SF b) (Prim2SF a)).
  by destruct (SFcompare (Prim2SF b) (Prim2SF a)) as [[| |]|].
Qed.

(** ** [Math.max] *)

Lemma float_max_is_nan (a b : float) :
  PrimFloat.is_nan (float_max a b) = PrimFloat.is_nan a || PrimFloat.is_nan b.
Proof.
  destruct (PrimFloat.is_nan a) eqn:Ha; [unfold float_max; by rewrite Ha|].
  destruct (PrimFloat.is_nan b) eqn:Hb;
    [unfold float_max; rewrite Ha, Hb; done|].
  by destruct (float_max_cases a b Ha Hb) as [[-> _]|[-> _]].
Qed.

Lemma float_max_neg_infinity (a : float) :
  PrimFloat.is_nan a = false → float_max PrimFloat.neg_infinity a = a.
Proof.
  intros Ha. unfold float_max. rewrite Ha.
  change (PrimFloat.is_nan PrimFloat.neg_infinity) with false. cbn [orb].
  destruct (PrimFloat.ltb PrimFloat.neg_infinity a) eqn:Hlt; [done|].
  assert (a = PrimFloat.neg_infinity) as ->.
  { apply Prim2SF_inj. apply is_nan_false in Ha.
    rewrite FloatAxioms.ltb_spec in Hlt.
    change (Prim2SF PrimFloat.neg_infinity) with (S754_infinity true) in *.
    unfold SFltb in Hlt.
    destruct (Prim2SF a) as [s|[|]| |s m e]; cbn [SFcompare] in Hlt;
      try discriminate; done. }
  reflexivity.
Qed.

Lemma fold_float_max (xs : list float) (acc : float) :
  PrimFloat.is_nan acc = false →
  Forall (λ q, PrimFloat.is_nan q = false) xs →
  let r := fold_left float_max xs acc in
  PrimFloat.is_nan r = false ∧
  PrimFloat.leb acc r = true ∧
  Forall (λ q, PrimFloat.leb q r = true) xs ∧
  (r = acc ∨ r ∈ xs).
Proof.
  intros Hacc Hxs. revert acc Hacc.
  induction Hxs as [|q xs Hq _ IH]; intros acc Hacc; simpl.
  - split; [done|]. split; [by apply leb_refl|]. split; [constructor | by left].
  - assert (PrimFloat.is_nan (float_max acc q) = false) as Hn
      by (by rewrite float_max_is_nan, Hacc, Hq).
    destruct (IH _ Hn) as (Hr & Hle & Hall & Hmem).
    destruct (float_max_ge_l acc q Hacc Hq) as [Hl _].
    assert (PrimFloat.leb q (float_max acc q) = true) as Hqle.
    { destruct (float_max_cases acc q Hacc Hq) as [[-> ?]|[-> ?]];
        [done | by apply leb_refl]. }
    split; [done|]. split; [by eapply leb_trans|].
    split; [constructor; [by eapply leb_trans | done]|].
    destruct Hmem as [Hmem|Hmem].
    + rewrite Hmem.
      destruct (float_max_cases acc q Hacc Hq) as [[-> _]|[-> _]];
        [by left | right; apply elem_of_cons; by left].
    + right. apply elem_of_cons. by right.
Qed.

(** [Math.max] of numbers none of which is NaN is one of them, and none of
    them is above it. *)
Lemma Math_max_spec (xs : list float) :
  xs ≠ [] →
  Forall (λ q, PrimFloat.is_nan q = false) xs →
  Math_max xs ∈ xs ∧
  PrimFloat.is_nan (Math_max xs) = false ∧
  Forall (λ q, PrimFloat.leb q (Math_max xs) = true) xs.
Proof.
  destruct xs as [|q xs]; [done|]. intros _ Hxs.
  apply Forall_cons in Hxs as [Hq Hxs].
  unfold Math_max. simpl. rewrite float_max_neg_infinity by done.
  destruct (fold_float_max xs q Hq Hxs) as (Hr & Hle & Hall & Hmem).
  split; [|split; [done | by constructor]].
  apply elem_of_cons. destruct Hmem as [->|?]; auto.
Qed.

(** With a NaN among them, [Math.max] is NaN. *)
Lemma fold_float_max_nan (xs : list float) (acc : float) :
  PrimFloat.is_nan (fold_left float_max xs acc)
    = PrimFloat.is_nan acc || existsb PrimFloat.is_nan xs.
Proof.
  revert acc. induction xs as [|q xs IH]; intros acc; simpl.
  - by rewrite orb_false_r.
  - by rewrite IH, float_max_is_nan, orb_assoc.
Qed.

Lemma Math_max_nan (xs : list float) :
  PrimFloat.is_nan (Math_max xs) = existsb PrimFloat.is_nan xs.
Proof. unfold Math_max. by rewrite fold_float_max_nan. Qed.

(** ** Rounding below a midpoint *)

(** The round bit is the last bit shifted out. *)
Lemma shr_1_round (mrs : shr_record) :
  0 ≤ shr_m mrs → shr_r (shr_1 mrs) = Z.odd (shr_m mrs).
Proof.
  destruct mrs as [m r s]. simpl. intros Hm.
  destruct m as [|[p|p|]|p]; simpl; (reflexivity || lia).
Qed.

Lemma shr_iter_round (m : Z) (k : nat) :
  0 ≤ m →
  shr_r (Nat.iter (S k) shr_1 (Build_shr_record m false false))
    = Z.odd (m / 2 ^ Z.of_nat k).
Proof.
  intros Hm. simpl. destruct (shr_iter_spec m k Hm) as [Hq _].
  rewrite shr_1_round; [by rewrite Hq|].
  rewrite Hq. apply Z.div_pos; [done|]. apply Z.pow_pos_nonneg; lia.
Qed.

(** A number strictly below the midpoint of [X] and [X + 1] units does
    not round above [X] units. *)
Lemma round_shr_half (m e n X : Z) :
  0 ≤ m →
  let mrs := fst (shr (Build_shr_record m false false) e n) in
  2 * m < (2 * X + 1) * 2 ^ Z.max n 0 →
  0 ≤ round_nearest_even (shr_m mrs) (loc_of_shr_record mrs) ≤ X.
Proof.
  intros Hm mrs HX.
  destruct (shr_spec m e n Hm) as (_ & Hq & _). fold mrs in Hq.
  destruct n as [|p|p].
  - subst mrs. unfold shr. cbn [fst shr_m loc_of_shr_record round_nearest_even].
    change (Z.max 0 0) with 0 in HX. rewrite Z.pow_0_r in HX. lia.
  - assert (∃ k, Pos.to_nat p = S k) as [k Hk]
      by (exists (Nat.pred (Pos.to_nat p)); lia).
    assert (shr_r mrs = Z.odd (m / 2 ^ Z.of_nat k)) as Hr.
    { subst mrs. unfold shr. cbn [fst]. rewrite iter_pos_nat, Hk.
      by apply shr_iter_round. }
    replace (Z.max (Z.pos p) 0) with (Z.of_nat k + 1) in * by lia.
    rewrite Z.pow_add_r, Z.pow_1_r in * by lia.
    set (K := 2 ^ Z.of_nat k) in *.
    assert (0 < K) as HK by (apply Z.pow_pos_nonneg; lia).
    set (q := m / (K * 2)) in *.
    assert (0 ≤ q) as Hq0 by (apply Z.div_pos; lia).
    assert (q ≤ X) as HqX.
    { assert (q < X + 1); [|lia]. apply Z.div_lt_upper_bound; [lia|]. nia. }
    assert (q = X → shr_r mrs = false) as Hround.
    { intros HqeX. rewrite Hr.
      assert (m / K = 2 * X) as ->.
      { assert (m / K < 2 * X + 1)
          by (apply Z.div_lt_upper_bound; [lia|]; nia).
        assert (2 * X ≤ m / K); [|lia].
        apply Z.div_le_lower_bound; [lia|].
        pose proof (Z.mul_div_le m (K * 2) ltac:(lia)) as Hle.
        fold q in Hle. rewrite HqeX in Hle. lia. }
      rewrite Z.odd_mul. reflexivity. }
    rewrite Hq. unfold round_nearest_even, loc_of_shr_record.
    destruct mrs as [m' r s]. cbn [shr_r] in Hround.
    destruct r, s; try lia.
    destruct (Z.even q); [lia|].
    destruct (Z.eq_dec q X) as [Heq|Hne]; [by specialize (Hround Heq)|lia].
  - subst mrs. unfold shr. cbn [fst shr_m loc_of_shr_record round_nearest_even].
    change (Z.max (Z.neg p) 0) with 0 in HX. rewrite Z.pow_0_r in HX. lia.
Qed.

(** The rounding of a product that lies strictly below the midpoint of the
    double [M * 2^ex] and the double after it is not above [M * 2^ex]. *)
Lemma binary_round_aux_half (s : bool) (m0 M : positive) (e0 ex : Z) :
  e0 ≤ ex →
  fexp prec emax (Z.pos (digits2_pos m0) + e0) ≤ ex →
  2 * Z.pos m0 < (2 * Z.pos M + 1) * 2 ^ (ex - e0) →
  2 ^ 52 ≤ Z.pos M < 2 ^ 53 →
  ex ≤ 971 →
  let R := binary_round_aux prec emax s (Z.pos m0) e0 loc_Exact in
  R = S754_zero s ∨
  ∃ m e, R = S754_finite s m e ∧ e ≤ ex ∧ Z.pos m ≤ Z.pos M * 2 ^ (ex - e).
Proof.
  intros He0 Hfexp Hm0 [HM52 HM] Hex. unfold binary_round_aux, shr_fexp.
  change (shr_record_of_loc ?m loc_Exact) with (Build_shr_record m false false).
  change (Zdigits2 (Z.pos m0)) with (Z.pos (digits2_pos m0)).
  set (n := fexp prec emax (Z.pos (digits2_pos m0) + e0) - e0).
  destruct (shr_spec (Z.pos m0) e0 n ltac:(lia)) as (He' & _ & _).
  pose proof (round_shr_half (Z.pos m0) e0 n (Z.pos M) ltac:(lia)) as Hhalf.
  pose proof (round_shr_le (Z.pos m0) e0 n (2 ^ 53) ltac:(lia)) as Hle.
  destruct (shr (Build_shr_record (Z.pos m0) false false) e0 n) as [mrs' e'].
  simpl in He', Hhalf, Hle. subst e'.
  set (e' := e0 + Z.max n 0) in *.
  assert (e' ≤ ex) as He'ex by (unfold e', n; lia).
  set (m1 := round_nearest_even (shr_m mrs') (loc_of_shr_record mrs')) in *.
  assert (0 < 2 ^ (ex - e')) as Hp1 by (apply Z.pow_pos_nonneg; lia).
  assert (0 ≤ m1 ≤ Z.pos M * 2 ^ (ex - e')) as [Hm1 Hm1X].
  { destruct (Z.eq_dec e' ex) as [Heq|Hne].
    - rewrite Heq, Z.sub_diag, Z.pow_0_r, Z.mul_1_r. apply Hhalf.
      replace (Z.max n 0) with (ex - e0) by (unfold e' in Heq; lia). done.
    - destruct Hle as [Hlo Hhi].
      { pose proof (digits2_pos_upper m0) as Hup.
        rewrite <- Z.pow_add_r by lia.
        assert (2 ^ Z.pos (digits2_pos m0) ≤ 2 ^ (53 + Z.max n 0)); [|lia].
        apply Z.pow_le_mono_r; [lia|]. unfold n, fexp, prec. lia. }
      split; [done|].
      assert (2 ^ 1 ≤ 2 ^ (ex - e')) as Hp by (apply Z.pow_le_mono_r; lia).
      change (2 ^ 1) with 2 in Hp. change (2 ^ 53) with (2 ^ 52 * 2) in Hhi.
      nia. }
  set (n2 := fexp prec emax (Zdigits2 m1 + e') - e').
  destruct (shr_spec m1 e' n2 Hm1) as (He'' & Hm2 & _).
  destruct (shr (Build_shr_record m1 false false) e' n2) as [mrs'' e''].
  simpl in He'', Hm2. subst e''.
  set (e'' := e' + Z.max n2 0) in *.
  assert (e'' ≤ ex) as He''ex.
  { unfold e''. destruct (Z.max_spec n2 0) as [[_ ->]|[Hn2 ->]]; [lia|].
    unfold n2, fexp. unfold fexp in Hfexp.
    assert (Zdigits2 m1 + e' - prec ≤ ex); [|unfold emin, emax, prec in *; lia].
    destruct (Z.eq_dec m1 0) as [->|Hne]; [simpl; unfold prec; lia|].
    pose proof (Zdigits2_lower m1 ltac:(lia)) as Hd.
    assert (2 ^ (Zdigits2 m1 - 1) < 2 ^ (53 + (ex - e'))) as Hlt.
    { rewrite Z.pow_add_r by lia. nia. }
    apply Z.pow_lt_mono_r_iff in Hlt; unfold prec; lia. }
  assert (0 < 2 ^ Z.max n2 0) as Hp2 by (apply Z.pow_pos_nonneg; lia).
  assert (0 ≤ shr_m mrs'' ≤ Z.pos M * 2 ^ (ex - e'')) as [Hlo Hhi].
  { rewrite Hm2. split; [by apply Z.div_pos|].
    apply Z.div_le_upper_bound; [done|].
    rewrite (Z.mul_comm (2 ^ _)), <- Z.mul_assoc, <- Z.pow_add_r by lia.
    replace (ex - e'' + Z.max n2 0) with (ex - e') by (unfold e''; lia). done. }
  destruct (shr_m mrs'') as [|m|m]; [by left| |lia].
  right. exists m, e''. split; [|done].
  destruct (Z.leb_spec e'' (emax - prec)); [done|]. unfold emax, prec in *. lia.
Qed.

(** ** Scaling a number of [0, 1)

    The product of a double [r] of [0, 1) by a double [n = mn * 2^en] is
    below [n], whenever the largest double below 1, times [n], lies
    strictly below the midpoint of [n] and the double [M * 2^ex] before
    it. *)

Lemma SFmul_below (mr : positive) (er : Z) (mn M : positive) (en ex D : Z) :
  valid_binary (S754_finite false mr er) = true →
  Z.pos (digits2_pos mr) + er ≤ 0 →
  0 ≤ D → Z.pos mn ≤ 2 ^ D → D + en - 53 ≤ ex → -1074 ≤ ex ≤ 971 →
  2 ^ 52 ≤ Z.pos M < 2 ^ 53 →
  0 ≤ ex - en + 53 →
  2 * (2 ^ 53 - 1) * Z.pos mn < (2 * Z.pos M + 1) * 2 ^ (ex - en + 53) →
  ex ≤ en → (ex = en → Z.pos M < Z.pos mn) →
  let R := SFmul prec emax (S754_finite false mr er) (S754_finite false mn en) in
  SF_nonneg R ∧ SFltb R (S754_finite false mn en) = true.
Proof.
  intros Hv Hdr HD Hmn Hex1 Hex HM HC0 HC Hle Heq. cbn [SFmul xorb].
  apply valid_finite in Hv as (Hd & Her & Hn).
  assert (er ≤ -53) as Her53 by lia.
  pose proof (digits2_pos_upper mr) as Hup.
  assert (Z.pos mr < 2 ^ 53) as Hmr.
  { eapply Z.lt_le_trans; [exact Hup|]. apply Z.pow_le_mono_r; lia. }
  assert (Z.pos (digits2_pos (mr * mn)) ≤ Z.pos (digits2_pos mr) + D) as Hdig.
  { pose proof (digits2_pos_lower (mr * mn)) as Hlo.
    assert (2 ^ (Z.pos (digits2_pos (mr * mn)) - 1)
            < 2 ^ (Z.pos (digits2_pos mr) + D)) as Hlt.
    { eapply Z.le_lt_trans; [exact Hlo|].
      rewrite Pos2Z.inj_mul, Z.pow_add_r by lia.
      assert (0 < 2 ^ D) by (apply Z.pow_pos_nonneg; lia). nia. }
    apply Z.pow_lt_mono_r_iff in Hlt; lia. }
  destruct (binary_round_aux_half false (mr * mn) M (er + en) ex)
    as [->|(m & e & -> & He & Hm)].
  - lia.
  - unfold fexp, emin, emax, prec. lia.
  - rewrite Pos2Z.inj_mul.
    replace (ex - (er + en)) with ((ex - en + 53) + (- er - 53)) by lia.
    rewrite Z.pow_add_r by lia.
    assert (0 < 2 ^ (- er - 53)) as HP by (apply Z.pow_pos_nonneg; lia).
    assert (0 < 2 ^ (ex - en + 53)) as HCp by (apply Z.pow_pos_nonneg; lia).
    set (P := 2 ^ (- er - 53)) in *. set (C := 2 ^ (ex - en + 53)) in *.
    set (T := 2 ^ 53) in *. clearbody P C T.
    assert (2 * Z.pos mr * Z.pos mn ≤ 2 * (T - 1) * Z.pos mn) by nia.
    assert ((2 * Z.pos M + 1) * C ≤ (2 * Z.pos M + 1) * C * P) by nia.
    lia.
  - done.
  - lia.
  - split; [exact I | reflexivity].
  - split; [reflexivity|]. unfold SFltb. cbn [SFcompare].
    destruct (Z.compare_spec e en) as [->|Hlt|Hgt]; [|reflexivity|lia].
    assert (ex = en) as -> by lia. specialize (Heq eq_refl).
    rewrite Z.sub_diag, Z.pow_0_r, Z.mul_1_r in Hm.
    rewrite Pos.compare_cont_spec. cbn [Pos.switch_Eq].
    destruct (Pos.compare_spec m mn) as [->|Hmlt|Hmgt]; [lia|reflexivity|].
    apply Pos2Z.pos_lt_pos in Hmgt. lia.
Qed.

(** A double of [0, 1) is a zero, or a positive double whose digits end
    right of the point. *)
Lemma SF_unit (r : spec_float) :
  valid_binary r = true →
  SF_nonneg r →
  SFltb r (S754_finite false 4503599627370496 (-52)) = true →
  (∃ s, r = S754_zero s) ∨
  ∃ m e, r = S754_finite false m e ∧ Z.pos (digits2_pos m) + e ≤ 0.
Proof.
  intros Hv H0 H1. destruct r as [s|s| |s m e]; cbn [SF_nonneg] in H0.
  - left. by exists s.
  - subst s. discriminate.
  - destruct H0.
  - right. subst s. by apply SF_rate.
Qed.

(** [Math.random() * n] lies in [0, n), for [n] from 1 to 4. *)
Lemma mul_below (r : float) (n : Z) :
  1 ≤ n ≤ 4 →
  PrimFloat.leb 0 r = true → PrimFloat.ltb r 1 = true →
  PrimFloat.leb 0 (PrimFloat.mul r (float_of_Z n)) = true ∧
  PrimFloat.ltb (PrimFloat.mul r (float_of_Z n)) (float_of_Z n) = true.
Proof.
  intros Hn.
  rewrite !FloatAxioms.leb_spec, !FloatAxioms.ltb_spec, FloatAxioms.mul_spec.
  change (Prim2SF 0) with (S754_zero false).
  change (Prim2SF 1) with (S754_finite false 4503599627370496 (-52)).
  rewrite !SFleb_zero. unfold SF64mul. intros H0 H1.
  destruct (SF_unit (Prim2SF r) (Prim2SF_valid r) H0 H1)
    as [[s ->]|(m & e & Hr & Hd)].
  - assert (n = 1 ∨ n = 2 ∨ n = 3 ∨ n = 4) as [->|[->|[->| ->]]] by lia;
      by destruct s.
  - pose proof (Prim2SF_valid r) as Hv. rewrite Hr in Hv |- *.
    assert (n = 1 ∨ n = 2 ∨ n = 3 ∨ n = 4) as [->|[->|[->| ->]]] by lia.
    + change (Prim2SF (float_of_Z 1))
        with (S754_finite false 4503599627370496 (-52)).
      apply (SFmul_below m e 4503599627370496 9007199254740991 (-52) (-53) 52);
        try done; try (split; done); lia.
    + change (Prim2SF (float_of_Z 2))
        with (S754_finite false 4503599627370496 (-51)).
      apply (SFmul_below m e 4503599627370496 9007199254740991 (-51) (-52) 52);
        try done; try (split; done); lia.
    + change (Prim2SF (float_of_Z 3))
        with (S754_finite false 6755399441055744 (-51)).
      apply (SFmul_below m e 6755399441055744 6755399441055743 (-51) (-51) 53);
        try done; try (split; done); lia.
    + change (Prim2SF (float_of_Z 4))
        with (S754_finite false 4503599627370496 (-50)).
      apply (SFmul_below m e 4503599627370496 9007199254740991 (-50) (-51) 52);
        try done; try (split; done); lia.
Qed.

End DoubleSpec.

(* ===================================================================== *)
(** * Properties of the keys *)
(* ===================================================================== *)

Module TypesSpec.
Import JS Types.
Local Open Scope Z_scope.

(** ** Keys

    [`${x},${y}`] tells any two cells apart: the numerals hold no comma, so
    the first comma of a key ends its column. *)

Lemma pretty_N_go_comma_free (n : N) (s : string) :
  comma_free s = true → comma_free (pretty_N_go n s) = true.
Proof.
  revert s. induction (N.lt_wf_0 n) as [n _ IH]; intros s Hs.
  destruct (decide (n = 0%N)) as [->|Hn]; [by rewrite pretty_N_go_0|].
  rewrite pretty_N_go_step by lia. apply IH.
  - apply N.div_lt; lia.
  - simpl. rewrite Hs, andb_true_r.
    unfold pretty_N_char. by repeat case_match.
Qed.

Lemma pretty_N_comma_free (n : N) : comma_free (pretty n) = true.
Proof.
  unfold pretty, pretty_N. case_decide; [done|].
  by apply pretty_N_go_comma_free.
Qed.

Lemma pretty_Z_comma_free (z : Z) : comma_free (pretty z) = true.
Proof.
  destruct z as [|p|p]; [done|..].
  - apply (pretty_N_comma_free (Npos p)).
  - change (pretty (Z.neg p)) with ("-" +:+ pretty (Npos p)). simpl.
    apply (pretty_N_comma_free (Npos p)).
Qed.

Lemma comma_split (a b c d : string) :
  comma_free a = true → comma_free c = true →
  a +:+ "," +:+ b = c +:+ "," +:+ d → a = c ∧ b = d.
Proof.
  revert c. induction a as [|ch a IH]; intros [|ch' c] Ha Hc Heq; simpl in *.
  - by simplify_eq.
  - by simplify_eq.
  - by simplify_eq.
  - injection Heq as -> Heq.
    apply andb_true_iff in Ha as [_ Ha]. apply andb_true_iff in Hc as [_ Hc].
    by destruct (IH c Ha Hc Heq) as [-> ->].
Qed.

Lemma key_of_inj (px py qx qy : Z) :
  key_of px py = key_of qx qy → px = qx ∧ py = qy.
Proof.
  intros [Hx Hy]%comma_split; try apply pretty_Z_comma_free.
  split; by apply (inj pretty).
Qed.

Lemma key_of_position_inj (p q : Position) :
  key_of (x p) (y p) = key_of (x q) (y q) → p = q.
Proof. destruct p, q. simpl. by intros [-> ->]%key_of_inj. Qed.

End TypesSpec.

(* ===================================================================== *)
(** * Properties of the maze generator *)
(* ===================================================================== *)

Module MazeGeneratorSpec.
Import JS Types MazeGenerator DoubleSpec TypesSpec.
Local Open Scope Z_scope.

(** ** Reading and writing the grid *)

Lemma index_Some {A : Type} (xs : list A) (i : Z) (a : A) :
  index xs i = Some a ↔ 0 ≤ i ∧ xs !! Z.to_nat i = Some a.
Proof.
  unfold index. destruct (Z.ltb_spec i 0); split.
  - discriminate.
  - intros [? _]. lia.
  - auto.
  - intros [_ ?]. assumption.
Qed.

Lemma index_is_Some {A : Type} (xs : list A) (i : Z) :
  0 ≤ i < Z.of_nat (length xs) → is_Some (index xs i).
Proof.
  intros Hi. destruct (lookup_lt_is_Some_2 xs (Z.to_nat i)) as [a Ha]; [lia|].
  exists a. apply index_Some. split; [lia | exact Ha].
Qed.

Lemma clear_wall_Returns g row col g' :
  clear_wall g row col = Returns g' →
  ∃ cells cell, index g row = Some cells ∧ index cells col = Some cell ∧
    g' = <[Z.to_nat row := <[Z.to_nat col := cleared cell]> cells]> g.
Proof.
  unfold clear_wall. intros H.
  destruct (index g row) as [cells|] eqn:Hrow; [|discriminate].
  destruct (index cells col) as [cell|] eqn:Hcol; [|discriminate].
  exists cells, cell. injection H as <-. done.
Qed.

(** A write changes the one cell it names, and of that cell the flag only. *)
Lemma clear_wall_cell_at g row col g' r c :
  clear_wall g row col = Returns g' →
  cell_at g' r c =
    (λ cell, if decide (r = row ∧ c = col) then cleared cell else cell)
      <$> cell_at g r c.
Proof.
  intros (cells & cell & Hrow & Hcol & ->)%clear_wall_Returns.
  apply index_Some in Hrow as [Hr0 Hrow]. apply index_Some in Hcol as [Hc0 Hcol].
  unfold cell_at, index.
  destruct (Z.ltb_spec r 0); [done|].
  destruct (decide (r = row)) as [->|Hr].
  - rewrite list_lookup_insert_eq by (by eapply lookup_lt_Some).
    rewrite Hrow. simpl.
    destruct (Z.ltb_spec c 0); [done|].
    destruct (decide (c = col)) as [->|Hc].
    + rewrite list_lookup_insert_eq by (by eapply lookup_lt_Some).
      rewrite Hcol. simpl. by rewrite decide_True.
    + rewrite list_lookup_insert_ne by lia.
      destruct (cells !! Z.to_nat c); simpl; [|done].
      rewrite decide_False; [done | intros [_ ?]; done].
  - rewrite list_lookup_insert_ne by lia.
    destruct (g !! Z.to_nat r) as [cells'|]; simpl; [|done].
    destruct (c <? 0); [done|].
    destruct (cells' !! Z.to_nat c); simpl; [|done].
    rewrite decide_False; [done | intros [? _]; done].
Qed.

Lemma clear_wall_is_floor g row col g' :
  clear_wall g row col = Returns g' → is_floor g' row col.
Proof.
  intros H. unfold is_floor. rewrite (clear_wall_cell_at _ _ _ _ _ _ H).
  apply clear_wall_Returns in H as (cells & cell & Hrow & Hcol & _).
  unfold cell_at. rewrite Hrow. simpl. rewrite Hcol. simpl.
  by rewrite decide_True.
Qed.

Lemma clear_wall_keeps_floor g row col g' r c :
  clear_wall g row col = Returns g' → is_floor g r c → is_floor g' r c.
Proof.
  intros H. unfold is_floor. rewrite (clear_wall_cell_at _ _ _ _ _ _ H).
  destruct (cell_at g r c) as [cell|]; simpl; [|done].
  intros [= Hw]. by destruct (decide _); simpl; rewrite ?Hw.
Qed.

Lemma clear_wall_populated w h g row col g' :
  populated w h g → clear_wall g row col = Returns g' → populated w h g'.
Proof.
  intros [Hrows Hcols Hcoords] H.
  pose proof (λ r c, clear_wall_cell_at _ _ _ _ r c H) as Hat.
  apply clear_wall_Returns in H as (cells & cell & Hrow & Hcol & ->).
  apply index_Some in Hrow as [_ Hrow].
  split.
  - by rewrite length_insert.
  - apply Forall_insert; [done|]. rewrite length_insert.
    by eapply (Forall_lookup_1 _ _ _ _ Hcols).
  - intros r c cell1. rewrite Hat.
    destruct (cell_at g r c) as [cell0|] eqn:E; simpl; [|done].
    intros [= <-]. apply Hcoords in E. by destruct (decide _).
Qed.

Lemma populated_cell_at w h g row col :
  populated w h g → 0 ≤ row < h → 0 ≤ col < w →
  is_Some (cell_at g row col).
Proof.
  intros [Hrows Hcols _] Hr Hc.
  destruct (index_is_Some g row) as [cells Hcells]; [lia|].
  unfold cell_at. rewrite Hcells. simpl.
  apply index_is_Some.
  apply index_Some in Hcells as [_ Hcells].
  rewrite (Forall_lookup_1 _ _ _ _ Hcols Hcells). lia.
Qed.

Lemma clear_wall_in_bounds w h g row col :
  populated w h g → 0 ≤ row < h → 0 ≤ col < w →
  ∃ g', clear_wall g row col = Returns g'.
Proof.
  intros Hp Hr Hc.
  destruct (populated_cell_at _ _ _ _ _ Hp Hr Hc) as [cell Hcell].
  unfold cell_at in Hcell. unfold clear_wall.
  destruct (index g row) as [cells|]; [|done]. simpl in Hcell.
  rewrite Hcell. eauto.
Qed.

Lemma init_grid_populated w h : populated w h (init_grid w h).
Proof.
  unfold init_grid. split.
  - by rewrite length_fmap, length_seqZ.
  - apply Forall_fmap, Forall_forall. intros cy _. simpl.
    by rewrite length_fmap, length_seqZ.
  - intros row col cell. unfold cell_at.
    destruct (index _ row) as [cells|] eqn:Hrow; [|done]. simpl.
    intros Hcol.
    apply index_Some in Hrow as [Hr Hrow]. apply index_Some in Hcol as [Hc Hcol].
    rewrite list_lookup_fmap in Hrow.
    destruct (seqZ 0 h !! Z.to_nat row) as [cy|] eqn:Hy; [|done].
    apply lookup_seqZ in Hy as [-> _]. simpl in Hrow. injection Hrow as <-.
    rewrite list_lookup_fmap in Hcol.
    destruct (seqZ 0 w !! Z.to_nat col) as [cx|] eqn:Hx; [|done].
    apply lookup_seqZ in Hx as [-> _]. simpl in Hcol. injection Hcol as <-.
    simpl. lia.
Qed.

(** ** The doubles of [SeededRandom] *)

Lemma all_from_spec (count : nat) (s : Z) (p : Z → bool) :
  all_from count s p = true →
  ∀ z, s ≤ z < s + Z.of_nat count → p z = true.
Proof.
  revert s. induction count as [|count IH]; intros s H z Hz; [lia|].
  simpl in H. apply andb_prop in H as [Hs Hrest].
  destruct (decide (z = s)) as [->|]; [done|].
  apply (IH (s + 1)); [done | lia].
Qed.

Lemma samples_ok : all_from (Z.to_nat 233280) 0 sample_ok = true.
Proof. vm_compute. reflexivity. Qed.

Lemma sample_ok_seed (s : Z) : 0 ≤ s < 233280 → sample_ok s = true.
Proof.
  intros Hs. apply (all_from_spec _ _ _ samples_ok).
  rewrite Z2Nat.id; lia.
Qed.

Lemma next_seed_ok (r : SeededRandom) :
  0 ≤ seed r → seed_ok (snd (next r)).
Proof.
  intros Hr. unfold seed_ok, next. simpl.
  pose proof (Z.rem_bound_pos (seed r * 9301 + 49297) 233280). lia.
Qed.

(** ** Neighbours *)

Lemma neighbors_in_elem w h pos seen dirs p :
  p ∈ neighbors_in w h pos seen dirs →
  ∃ dir, dir ∈ dirs ∧ x p = x pos + x dir ∧ y p = y pos + y dir ∧
    interiorb w h (x p) (y p) = true ∧ key_of (x p) (y p) ∉ seen.
Proof.
  induction dirs as [|dir dirs IH]; simpl; [by intros ?%elem_of_nil|].
  destruct (interiorb _ _ _ _ && _) eqn:E.
  - intros [->|Hp]%elem_of_cons.
    + apply andb_prop in E as [Hi Hs]. exists dir. simpl.
      repeat split; [left | done |].
      apply negb_true_iff, bool_decide_eq_false in Hs. done.
    + destruct (IH Hp) as (d & ? & ?). exists d. split; [by right | done].
  - intros Hp. destruct (IH Hp) as (d & ? & ?). exists d.
    split; [by right | done].
Qed.

Lemma neighbors_in_length w h pos seen dirs :
  (length (neighbors_in w h pos seen dirs) ≤ length dirs)%nat.
Proof.
  induction dirs as [|dir dirs IH]; simpl; [lia|].
  destruct (_ && _); simpl; lia.
Qed.

Lemma interiorb_spec w h p :
  interiorb w h (x p) (y p) = true ↔ interior_cell w h p.
Proof.
  unfold interiorb, interior_cell.
  rewrite !andb_true_iff, !Z.ltb_lt. lia.
Qed.

(** What [getUnvisitedNeighbors] returns: unvisited interior cells two
    steps away from [pos] along one axis, at most four of them. *)
Lemma getUnvisitedNeighbors_elem this pos seen p :
  p ∈ getUnvisitedNeighbors this pos seen →
  interior_cell (width this) (height this) p ∧
  (key_of (x p) (y p) ∉ seen) ∧
  (x p = x pos ∧ (y p = y pos - 2 ∨ y p = y pos + 2) ∨
   y p = y pos ∧ (x p = x pos + 2 ∨ x p = x pos - 2)).
Proof.
  intros Hp. apply neighbors_in_elem in Hp as (dir & Hdir & Hx & Hy & Hi & Hs).
  split; [by apply interiorb_spec|]. split; [done|].
  unfold directions in Hdir.
  repeat (apply elem_of_cons in Hdir as [->|Hdir]); simpl in *;
    [lia..|by apply elem_of_nil in Hdir].
Qed.

Lemma getUnvisitedNeighbors_length this pos seen :
  (length (getUnvisitedNeighbors this pos seen) ≤ 4)%nat.
Proof. apply (neighbors_in_length _ _ _ _ directions). Qed.

Lemma elem_of_interior w h p : p ∈ interior w h ↔ interior_cell w h p.
Proof.
  unfold interior, interior_cell. rewrite list_elem_of_bind. split.
  - intros (cx & (cy & ->%list_elem_of_singleton & Hy%elem_of_seqZ)%list_elem_of_bind
              & Hx%elem_of_seqZ).
    simpl. lia.
  - intros [Hx Hy]. exists (x p). split; [|apply elem_of_seqZ; lia].
    apply list_elem_of_bind. exists (y p).
    split; [|apply elem_of_seqZ; lia]. destruct p. by apply list_elem_of_singleton.
Qed.

Lemma midpoint_same a : midpoint a a = Some a.
Proof.
  unfold midpoint. replace (a + a) with (2 * a) by lia.
  rewrite Z.even_mul. simpl. f_equal.
  rewrite Z.mul_comm. apply Z.div_mul. lia.
Qed.

Lemma midpoint_two a b :
  b = a + 2 ∨ b = a - 2 → ∃ m, midpoint a b = Some m ∧ Z.min a b < m < Z.max a b.
Proof.
  intros Hb. exists (a + (b - a) / 2). unfold midpoint.
  destruct Hb as [-> | ->].
  - replace (a + (a + 2)) with (2 * (a + 1)) by lia.
    rewrite Z.even_mul. simpl. rewrite (Z.mul_comm 2), Z.div_mul by lia.
    replace (a + 2 - a) with (1 * 2) by lia. rewrite Z.div_mul by lia.
    split; [done | lia].
  - replace (a + (a - 2)) with (2 * (a - 1)) by lia.
    rewrite Z.even_mul. simpl. rewrite (Z.mul_comm 2), Z.div_mul by lia.
    replace (a - 2 - a) with (-1 * 2) by lia. rewrite Z.div_mul by lia.
    split; [f_equal; lia | lia].
Qed.

(** ** The choice *)

Lemma choose_elem r ns p r' : choose r ns = (Some p, r') → p ∈ ns.
Proof.
  unfold choose. destruct (next r) as [v r1]. intros [= H _].
  destruct (float_floor _) as [i|]; [|done]. simpl in H.
  apply index_Some in H as [_ H]. by eapply list_elem_of_lookup_2.
Qed.

(** What [next] returns lies in [0, 1), and the seed it leaves is one of
    the 233280 residues again. *)
Lemma next_range r :
  0 ≤ seed r →
  PrimFloat.leb 0 (fst (next r)) = true ∧
  PrimFloat.ltb (fst (next r)) 1 = true ∧
  seed_ok (snd (next r)).
Proof.
  intros Hr. pose proof (next_seed_ok r Hr) as Hs.
  pose proof (sample_ok_seed _ Hs) as Hok. unfold sample_ok in Hok.
  apply andb_prop in Hok as [[H0 H1]%andb_prop _]. done.
Qed.

(** The index [Math.floor(this.rng.next() * neighbors.length)] falls on the
    list whenever the list has one to four elements. *)
Lemma next_index r (ns : list Position) :
  0 ≤ seed r → (1 ≤ length ns ≤ 4)%nat →
  ∃ i p,
    float_floor (PrimFloat.mul (fst (next r)) (float_of_Z (Z.of_nat (length ns))))
      = Some i ∧
    0 ≤ i < Z.of_nat (length ns) ∧ index ns i = Some p.
Proof.
  intros Hr Hn. pose proof (next_seed_ok r Hr) as Hs.
  pose proof (sample_ok_seed _ Hs) as Hok. unfold sample_ok in Hok.
  apply andb_prop in Hok as [_ Hok]. rewrite forallb_forall in Hok.
  assert (In (Z.of_nat (length ns)) [1; 2; 3; 4]) as Hin.
  { assert (length ns = 1 ∨ length ns = 2 ∨ length ns = 3 ∨ length ns = 4)%nat
      as [->|[->|[->| ->]]] by lia; simpl; tauto. }
  apply Hok in Hin. apply andb_prop in Hin as [H0 Hlt].
  destruct (float_floor_below _ (Z.of_nat (length ns)) ltac:(lia) H0 Hlt)
    as (i & Hfloor & Hi).
  destruct (index_is_Some ns i ltac:(lia)) as [p Hp].
  exists i, p. done.
Qed.

Lemma choose_Some r ns :
  0 ≤ seed r → (1 ≤ length ns ≤ 4)%nat →
  ∃ p, fst (choose r ns) = Some p ∧ p ∈ ns ∧ seed_ok (snd (choose r ns)).
Proof.
  intros Hr Hn. destruct (next_index r ns Hr Hn) as (i & p & Hfloor & _ & Hp).
  pose proof (next_seed_ok r Hr) as Hs. unfold choose.
  destruct (next r) as [v r']. simpl in *. rewrite Hfloor. simpl.
  exists p. split; [done|]. split; [|done].
  apply index_Some in Hp as [_ Hp]. by eapply list_elem_of_lookup_2.
Qed.

(** The cell between the top of the stack and a neighbour of it. *)
Lemma neighbor_midpoint this cur seen nxt :
  in_bounds (width this) (height this) cur →
  nxt ∈ getUnvisitedNeighbors this cur seen →
  in_bounds (width this) (height this) nxt ∧
  ∃ wallX wallY,
    midpoint (x cur) (x nxt) = Some wallX ∧
    midpoint (y cur) (y nxt) = Some wallY ∧
    0 ≤ wallX < width this ∧ 0 ≤ wallY < height this.
Proof.
  intros [Hcx Hcy] Hin.
  apply getUnvisitedNeighbors_elem in Hin as ([Hx Hy] & _ & Hgeo).
  split; [unfold in_bounds; lia|].
  destruct Hgeo as [[Hex Hey]|[Hey Hex]].
  - destruct (midpoint_two (y cur) (y nxt)) as (m & Hm & ?); [lia|].
    exists (x cur), m. rewrite Hex, midpoint_same. repeat split; try done; lia.
  - destruct (midpoint_two (x cur) (x nxt)) as (m & Hm & ?); [lia|].
    exists m, (y cur). rewrite Hey, midpoint_same. repeat split; try done; lia.
Qed.

(** ** One turn of the loop *)

Lemma bind_Returns {A B : Type} (m : outcome A) (k : A → outcome B) (b : B) :
  bind m k = Returns b → ∃ a, m = Returns a ∧ k a = Returns b.
Proof. destruct m; simpl; [eauto | done..]. Qed.

Lemma clear_wall_not_OutOfFuel g row col : clear_wall g row col ≠ OutOfFuel.
Proof.
  unfold clear_wall. destruct (index g row) as [cells|]; [|done].
  by destruct (index cells col).
Qed.

Lemma carve_step_not_OutOfFuel st cur : carve_step st cur ≠ OutOfFuel.
Proof.
  unfold carve_step. destruct (_ <? _)%nat; [|done].
  destruct (choose _ _) as [[nxt|] r']; [|done].
  destruct (midpoint _ _) as [wallX|]; [|done].
  destruct (midpoint _ _) as [wallY|]; [|done].
  destruct (clear_wall (grid st) wallY wallX) as [g1| |] eqn:E1; simpl; [|done|].
  - destruct (clear_wall g1 (y nxt) (x nxt)) as [g2| |] eqn:E2; simpl; [done..|].
    by apply clear_wall_not_OutOfFuel in E2.
  - by apply clear_wall_not_OutOfFuel in E1.
Qed.

(** What a turn does to the state, when it returns: it pushes a neighbour
    of the top, or pops the top. *)
Lemma carve_step_Returns st cur st' :
  carve_step st cur = Returns st' →
  gen st' = {| width := width (gen st); height := height (gen st);
               rng := rng (gen st') |} ∧
  ((∃ nxt, nxt ∈ getUnvisitedNeighbors (gen st) cur (visited st) ∧
      stack st' = nxt :: stack st ∧
      visited st' = {[ key_of (x nxt) (y nxt) ]} ∪ visited st) ∨
   (getUnvisitedNeighbors (gen st) cur (visited st) = [] ∧
      stack st' = tail (stack st) ∧ visited st' = visited st)).
Proof.
  unfold carve_step.
  destruct (Nat.ltb_spec 0 (length (getUnvisitedNeighbors (gen st) cur (visited st))))
    as [Hpos|Hzero]; cycle 1.
  { intros [= <-]. simpl. split; [by destruct (gen st)|]. right.
    split; [|done]. apply length_zero_iff_nil. lia. }
  destruct (choose _ _) as [[nxt|] r'] eqn:Hc; [|done].
  destruct (midpoint _ _) as [wallX|]; [|done].
  destruct (midpoint _ _) as [wallY|]; [|done].
  intros (g1 & _ & (g2 & _ & [= <-])%bind_Returns)%bind_Returns. simpl.
  split; [done|]. left. exists nxt.
  split; [by eapply choose_elem | done].
Qed.

Lemma filter_length_lt {A : Type} (f g : A → bool) (l : list A) (a : A) :
  (∀ b, f b = true → g b = true) → a ∈ l → g a = true → f a = false →
  (length (List.filter f l) < length (List.filter g l))%nat.
Proof.
  intros Hfg Ha Hga Hfa.
  assert (∀ l', length (List.filter f l') ≤ length (List.filter g l'))%nat as Hle.
  { induction l' as [|b l' IH]; simpl; [lia|].
    destruct (f b) eqn:Hb; [rewrite (Hfg _ Hb); simpl; lia|].
    destruct (g b); simpl; lia. }
  induction l as [|b l IH]; [by apply elem_of_nil in Ha|].
  apply elem_of_cons in Ha as [<-|Ha]; simpl.
  - rewrite Hfa, Hga. simpl. specialize (Hle l). lia.
  - specialize (IH Ha). destruct (f b) eqn:Hb; [rewrite (Hfg _ Hb); simpl; lia|].
    destruct (g b); simpl; lia.
Qed.

Lemma unvisited_visit w h seen p :
  interior_cell w h p → key_of (x p) (y p) ∉ seen →
  (length (unvisited w h ({[ key_of (x p) (y p) ]} ∪ seen))
   < length (unvisited w h seen))%nat.
Proof.
  intros Hp Hs. unfold unvisited. apply (filter_length_lt _ _ _ p).
  - intros q. rewrite !negb_true_iff, !bool_decide_eq_false. set_solver.
  - by apply elem_of_interior.
  - by apply negb_true_iff, bool_decide_eq_false.
  - apply negb_false_iff, bool_decide_eq_true. set_solver.
Qed.

(** Every turn uses up one of the turns that are left. *)
Lemma carve_step_turns st cur rest st' :
  stack st = cur :: rest → carve_step st cur = Returns st' →
  (turns_left st' < turns_left st)%nat.
Proof.
  intros Hst (Hg & [(nxt & Hn & Hs & Hv)|(_ & Hs & Hv)])%carve_step_Returns;
    unfold turns_left; rewrite Hg, Hs, Hv; simpl.
  - apply getUnvisitedNeighbors_elem in Hn as (Hi & Hk & _).
    pose proof (unvisited_visit _ _ _ _ Hi Hk). lia.
  - rewrite Hst. simpl. lia.
Qed.

(** In a grid of at least 2 by 2 no turn throws. *)
Lemma carve_step_safe w h st cur :
  2 ≤ w → 2 ≤ h → dfs_inv w h st → in_bounds w h cur →
  ∃ st', carve_step st cur = Returns st' ∧ dfs_inv w h st'.
Proof.
  intros Hw Hh [Hiw Hih Hgrid Hstack Hseed] Hcur. unfold carve_step.
  pose proof (getUnvisitedNeighbors_length (gen st) cur (visited st)) as Hlen.
  destruct (Nat.ltb_spec 0 (length (getUnvisitedNeighbors (gen st) cur (visited st))))
    as [Hpos|Hzero].
  - destruct (choose_Some (rng (gen st)) (getUnvisitedNeighbors (gen st) cur (visited st)))
      as (nxt & Hfst & Hin & Hseed'); [apply Hseed | lia |].
    destruct (choose _ _) as [chosen r']. simpl in Hfst, Hseed'. subst chosen.
    rewrite <- Hiw, <- Hih in Hcur.
    apply (neighbor_midpoint _ _ _ _ Hcur) in Hin
      as ([Hx Hy] & wallX & wallY & -> & -> & HX & HY).
    rewrite Hiw, Hih in *.
    destruct (clear_wall_in_bounds w h (grid st) wallY wallX) as [g1 Hg1]; [done..|].
    rewrite Hg1. simpl.
    pose proof (clear_wall_populated _ _ _ _ _ _ Hgrid Hg1) as Hp1.
    destruct (clear_wall_in_bounds w h g1 (y nxt) (x nxt)) as [g2 Hg2];
      [done | lia | lia |].
    rewrite Hg2. simpl. eexists. split; [done|].
    split; simpl; try done.
    + by eapply clear_wall_populated.
    + apply Forall_cons. split; [|done]. unfold in_bounds. lia.
  - eexists. split; [done|]. split; simpl; try done.
    destruct (stack st); [done|]. by apply Forall_cons in Hstack as [_ ?].
Qed.

(** ** The loop *)

Lemma carve_terminates fuel st :
  (turns_left st < fuel)%nat → carve fuel st ≠ OutOfFuel.
Proof.
  revert st. induction fuel as [|fuel IH]; intros st Hfuel; [lia|]. simpl.
  destruct (stack st) as [|cur rest] eqn:Hst; [done|].
  destruct (carve_step st cur) as [st'| |] eqn:Hstep; simpl; [|done|].
  - apply IH. pose proof (carve_step_turns _ _ _ _ Hst Hstep). lia.
  - by apply carve_step_not_OutOfFuel in Hstep.
Qed.

Lemma carve_safe w h fuel st :
  2 ≤ w → 2 ≤ h → dfs_inv w h st →
  carve fuel st = OutOfFuel ∨
  ∃ st', carve fuel st = Returns st' ∧ dfs_inv w h st' ∧ stack st' = [].
Proof.
  intros Hw Hh. revert st. induction fuel as [|fuel IH]; intros st Hinv; [by left|].
  simpl. destruct (stack st) as [|cur rest] eqn:Hst; [right; eauto|].
  destruct (carve_step_safe w h st cur) as (st' & -> & Hinv'); try done.
  { destruct Hinv as [_ _ _ Hstack _]. rewrite Hst in Hstack.
    by apply Forall_cons in Hstack as [? _]. }
  simpl. by apply IH.
Qed.

Lemma carve_dimensions fuel st st' :
  carve fuel st = Returns st' →
  width (gen st') = width (gen st) ∧ height (gen st') = height (gen st).
Proof.
  revert st. induction fuel as [|fuel IH]; intros st; [done|]. simpl.
  destruct (stack st) as [|cur rest]; [by intros [= <-]|].
  intros (st1 & Hstep & Hrest)%bind_Returns.
  apply IH in Hrest as [-> ->].
  apply carve_step_Returns in Hstep as [-> _]. done.
Qed.

(** More fuel does not change what the loop returns. *)
Lemma carve_fuel_mono fuel fuel' st st' :
  carve fuel st = Returns st' → (fuel ≤ fuel')%nat → carve fuel' st = Returns st'.
Proof.
  revert fuel' st. induction fuel as [|fuel IH]; intros fuel' st; [done|].
  intros H Hle. destruct fuel' as [|fuel']; [lia|]. simpl in *.
  destruct (stack st) as [|cur rest]; [done|].
  destruct (carve_step st cur) as [st1| |]; simpl in *; [|done..].
  apply IH; [done | lia].
Qed.

(** ** [generate] *)

Lemma filter_length_le {A : Type} (f : A → bool) (l : list A) :
  (length (List.filter f l) ≤ length l)%nat.
Proof. induction l as [|a l IH]; simpl; [lia|]. destruct (f a); simpl; lia. Qed.

Lemma dfs_start_turns this grid1 :
  (turns_left (dfs_start this grid1) < carve_fuel (width this) (height this))%nat.
Proof.
  unfold turns_left, carve_fuel, dfs_start, unvisited. simpl.
  pose proof (filter_length_le
    (λ p, negb (bool_decide (key_of (x p) (y p) ∈ ({[key_of 1 1]} : gset string))))
    (interior (width this) (height this))).
  lia.
Qed.

(** The first write of [generate] returns exactly when the grid has a cell
    at row 1, column 1. *)
Lemma start_Returns w h grid1 :
  clear_wall (init_grid w h) 1 1 = Returns grid1 → 2 ≤ w ∧ 2 ≤ h.
Proof.
  intros (cells & cell & Hrow & Hcol & _)%clear_wall_Returns.
  destruct (init_grid_populated w h) as [Hrows Hcols _].
  apply index_Some in Hrow as [_ Hrow]. apply index_Some in Hcol as [_ Hcol].
  pose proof (Forall_lookup_1 _ _ _ _ Hcols Hrow) as Hlen. simpl in Hlen.
  apply lookup_lt_Some in Hrow, Hcol. lia.
Qed.

Lemma dfs_start_inv this grid1 :
  clear_wall (init_grid (width this) (height this)) 1 1 = Returns grid1 →
  dfs_inv (width this) (height this) (dfs_start this grid1).
Proof.
  intros H. pose proof (start_Returns _ _ _ H) as [Hw Hh].
  split; simpl.
  - done.
  - done.
  - eapply clear_wall_populated; [apply init_grid_populated | done].
  - apply Forall_singleton. unfold in_bounds. simpl. lia.
  - unfold seed_ok. simpl. lia.
Qed.

Lemma reachable_inv this st :
  reachable this st →
  2 ≤ width this ∧ 2 ≤ height this ∧ dfs_inv (width this) (height this) st.
Proof.
  induction 1 as [grid1 H|st cur rest st' _ (Hw & Hh & IH) Hst Hstep].
  - pose proof (start_Returns _ _ _ H) as [Hw Hh].
    split; [done|]. split; [done|]. by apply dfs_start_inv.
  - split; [done|]. split; [done|].
    destruct (carve_step_safe _ _ st cur Hw Hh IH) as (st1 & Hst1 & Hinv).
    { destruct IH as [_ _ _ Hstack _]. rewrite Hst in Hstack.
      by apply Forall_cons in Hstack as [? _]. }
    rewrite Hstep in Hst1. by injection Hst1 as ->.
Qed.

Lemma generate_not_OutOfFuel this : generate this ≠ OutOfFuel.
Proof.
  unfold generate. simpl.
  destruct (clear_wall (init_grid _ _) 1 1) as [grid1| |] eqn:E1; simpl; [|done|].
  2: by apply clear_wall_not_OutOfFuel in E1.
  pose proof (carve_terminates _ _ (dfs_start_turns this grid1)) as Hterm.
  unfold dfs_start in Hterm. simpl in Hterm.
  destruct (carve _ _) as [st| |]; simpl; [|done..].
  repeat match goal with
  | |- context [clear_wall ?g ?r ?c] =>
      let E := fresh "E" in
      destruct (clear_wall g r c) eqn:E; simpl;
      [|done|by apply clear_wall_not_OutOfFuel in E]
  end.
  done.
Qed.

(** ** The properties of the specification *)

(** C2, as stated, fails: a generator of width 1 or of height 1 throws.
    [generate] writes to [grid[1][1]] before anything else, and a grid with
    a single row or a single column has no such cell. *)
Lemma generate_throws_when_one_wide :
  generate (new 1 1) = Throws ∧
  generate (new 1 3) = Throws ∧
  generate (new 3 1) = Throws.
Proof. by vm_compute. Qed.

Lemma generate_throws_below_two (this : MazeGenerator) :
  width this < 2 ∨ height this < 2 → generate this = Throws.
Proof.
  intros Hsmall. unfold generate. simpl.
  destruct (clear_wall (init_grid (width this) (height this)) 1 1)
    as [grid1| |] eqn:E; simpl.
  - apply start_Returns in E. lia.
  - reflexivity.
  - by apply clear_wall_not_OutOfFuel in E.
Qed.

(** C2, amended: for every width ≥ 2 and height ≥ 2, [generate] returns,
    whatever state its random generator was left in, and what it returns is
    a fully populated height-by-width grid: [height] rows of [width] cells,
    each cell carrying its own coordinates. *)
Theorem generate_returns (this : MazeGenerator) :
  2 ≤ width this → 2 ≤ height this →
  ∃ grid this',
    generate this = Returns (grid, this') ∧
    populated (width this) (height this) grid.
Proof.
  intros Hw Hh. unfold generate. simpl.
  set (w := width this) in *. set (h := height this) in *.
  destruct (clear_wall_in_bounds w h (init_grid w h) 1 1) as [grid1 Hg1];
    [apply init_grid_populated | lia | lia |].
  rewrite Hg1. simpl.
  pose proof (dfs_start_inv this grid1 Hg1) as Hinv.
  pose proof (carve_terminates _ _ (dfs_start_turns this grid1)) as Hterm.
  destruct (carve_safe w h (carve_fuel w h) _ Hw Hh Hinv) as [Hout|(st & Hst & Hinv' & _)];
    [done|].
  unfold dfs_start in Hst. fold w h in Hst. rewrite Hst. simpl.
  destruct Hinv' as [-> -> Hp _ _].
  repeat match goal with
  | Hp : populated w h ?g |- context [clear_wall ?g ?r ?c] =>
      let g' := fresh "g" in let E := fresh "E" in
      destruct (clear_wall_in_bounds w h g r c Hp) as [g' E]; [lia | lia |];
      rewrite E; simpl;
      apply (λ Hp, clear_wall_populated w h g r c g' Hp E) in Hp
  end.
  eauto.
Qed.

Lemma generate_returns_witness :
  ∃ grid this',
    generate (new 3 3) = Returns (grid, this') ∧ populated 3 3 grid.
Proof. apply (generate_returns (new 3 3)); simpl; lia. Defined.

(** C4: the outcome of [generate] depends on the width and the height
    only.  Two generators of the same dimensions return the same grid, cell
    for cell, whatever the state of their random generators, and a second
    call on the instance a first call leaves behind returns what the first
    returned. *)
Theorem generate_deterministic (w h : Z) (r1 r2 : SeededRandom) :
  generate {| width := w; height := h; rng := r1 |}
    = generate {| width := w; height := h; rng := r2 |} ∧
  bind (generate {| width := w; height := h; rng := r1 |})
       (λ '(_, this'), generate this')
    = generate {| width := w; height := h; rng := r1 |}.
Proof.
  split; [reflexivity|].
  destruct (generate _) as [[grid this']| |] eqn:E; simpl; [|done..].
  rewrite <- E. unfold generate in E.
  apply bind_Returns in E as (grid1 & _ & (st & Hst & H)%bind_Returns).
  apply carve_dimensions in Hst as [Hw Hh]. simpl in Hw, Hh.
  repeat (apply bind_Returns in H as (? & _ & H)). injection H as _ <-.
  destruct (gen st) as [w' h' r']. simpl in *. by subst.
Qed.

(** C5: in every grid [generate] returns, the four cells of the block at
    the start corner and the four cells of the block at the goal corner
    are floor. *)
Theorem generate_corners_clear (this : MazeGenerator) (grid : Grid)
    (this' : MazeGenerator) :
  generate this = Returns (grid, this') →
  is_floor grid 0 0 ∧ is_floor grid 0 1 ∧
  is_floor grid 1 0 ∧ is_floor grid 1 1 ∧
  is_floor grid (height this - 1) (width this - 1) ∧
  is_floor grid (height this - 2) (width this - 1) ∧
  is_floor grid (height this - 1) (width this - 2) ∧
  is_floor grid (height this - 2) (width this - 2).
Proof.
  unfold generate.
  intros (grid1 & _ & (st & Hst & H)%bind_Returns)%bind_Returns.
  apply carve_dimensions in Hst as [Hw Hh]. simpl in Hw, Hh. rewrite Hw, Hh in H.
  apply bind_Returns in H as (g1 & E1 & H). apply bind_Returns in H as (g2 & E2 & H).
  apply bind_Returns in H as (g3 & E3 & H). apply bind_Returns in H as (g4 & E4 & H).
  apply bind_Returns in H as (g5 & E5 & H). apply bind_Returns in H as (g6 & E6 & H).
  apply bind_Returns in H as (g7 & E7 & H). apply bind_Returns in H as (g8 & E8 & H).
  injection H as <- _.
  repeat split;
    repeat first
      [ eapply clear_wall_is_floor; eassumption
      | eapply clear_wall_keeps_floor; [eassumption|] ].
Qed.

Lemma generate_corners_clear_witness :
  ∃ grid this',
    generate (new 7 5) = Returns (grid, this') ∧
    is_floor grid 0 0 ∧ is_floor grid 0 1 ∧
    is_floor grid 1 0 ∧ is_floor grid 1 1 ∧
    is_floor grid 4 6 ∧ is_floor grid 3 6 ∧
    is_floor grid 4 5 ∧ is_floor grid 3 5.
Proof.
  destruct (generate (new 7 5)) as [[grid this']| |] eqn:E;
    [|vm_compute in E; discriminate E..].
  exists grid, this'. split; [reflexivity|].
  apply (generate_corners_clear (new 7 5) grid this' E).
Defined.

(** C9: what [next] returns is a double in [0, 1).  In every state the
    loop of [generate] passes through with candidates for the cell on top
    of the stack, the index [Math.floor(this.rng.next() * neighbors.length)]
    falls on the list of candidates, so the cell chosen is one of them, an
    unvisited interior cell; the cell halfway and the cell chosen are cells
    of the grid, and the turn returns. *)
Theorem seeded_choice_in_range :
  (∀ r, seed_ok r →
     PrimFloat.leb 0 (fst (next r)) = true ∧
     PrimFloat.ltb (fst (next r)) 1 = true ∧
     seed_ok (snd (next r))) ∧
  (∀ this st current rest,
     reachable this st → stack st = current :: rest →
     let neighbors := getUnvisitedNeighbors (gen st) current (visited st) in
     (neighbors ≠ []) →
     seed_ok (rng (gen st)) ∧
     ∃ i nxt wallX wallY st',
       float_floor (PrimFloat.mul (fst (next (rng (gen st))))
                      (float_of_Z (Z.of_nat (length neighbors)))) = Some i ∧
       0 ≤ i < Z.of_nat (length neighbors) ∧
       index neighbors i = Some nxt ∧
       fst (choose (rng (gen st)) neighbors) = Some nxt ∧
       interior_cell (width this) (height this) nxt ∧
       (key_of (x nxt) (y nxt) ∉ visited st) ∧
       midpoint (x current) (x nxt) = Some wallX ∧
       midpoint (y current) (y nxt) = Some wallY ∧
       is_Some (cell_at (grid st) wallY wallX) ∧
       is_Some (cell_at (grid st) (y nxt) (x nxt)) ∧
       carve_step st current = Returns st' ∧
       stack st' = nxt :: stack st).
Proof.
  split.
  { intros r [Hr _]. by apply next_range. }
  intros this st cur rest Hreach Hst ns Hne.
  apply reachable_inv in Hreach as (Hw & Hh & Hinv).
  pose proof Hinv as [Hiw Hih Hgrid Hstack Hseed].
  split; [done|].
  assert (in_bounds (width this) (height this) cur) as Hcur.
  { rewrite Hst in Hstack. by apply Forall_cons in Hstack as [? _]. }
  assert (1 ≤ length ns ≤ 4)%nat as Hlen.
  { pose proof (getUnvisitedNeighbors_length (gen st) cur (visited st)).
    fold ns in H. destruct ns; [done | simpl in *; lia]. }
  destruct (next_index (rng (gen st)) ns) as (i & nxt & Hfloor & Hi & Hidx);
    [apply Hseed | done |].
  assert (nxt ∈ ns) as Hin.
  { apply index_Some in Hidx as [_ Hidx]. by eapply list_elem_of_lookup_2. }
  pose proof Hin as (Hint & Hkey & _)%getUnvisitedNeighbors_elem.
  rewrite Hiw, Hih in Hint.
  pose proof Hcur as Hcur'. rewrite <- Hiw, <- Hih in Hcur'.
  destruct (neighbor_midpoint _ _ _ _ Hcur' Hin)
    as ([Hnx Hny] & wallX & wallY & HmX & HmY & HX & HY).
  rewrite Hiw, Hih in *.
  destruct (carve_step_safe _ _ st cur Hw Hh Hinv Hcur) as (st' & Hstep & _).
  assert (fst (choose (rng (gen st)) ns) = Some nxt) as Hchoose.
  { unfold choose. destruct (next _) as [v r']. simpl in *.
    rewrite Hfloor. done. }
  exists i, nxt, wallX, wallY, st'.
  split_and!; try done; try lia.
  - by eapply populated_cell_at.
  - by eapply populated_cell_at.
  - pose proof Hstep as (_ & [(n' & _ & Hs & _)|(Hnil & _)])%carve_step_Returns;
      [|by fold ns in Hnil].
    unfold carve_step in Hstep. fold ns in Hstep.
    destruct (Nat.ltb_spec 0 (length ns)); [|lia].
    destruct (choose _ _) as [chosen r']. simpl in Hchoose. subst chosen.
    destruct (midpoint _ _); [|done]. destruct (midpoint _ _); [|done].
    apply bind_Returns in Hstep as (? & _ & (? & _ & [= <-])%bind_Returns). done.
Qed.

Lemma seeded_choice_in_range_witness :
  ∃ grid1 nxt st',
    clear_wall (init_grid 5 5) 1 1 = Returns grid1 ∧
    let st := dfs_start (new 5 5) grid1 in
    fst (choose (rng (gen st))
           (getUnvisitedNeighbors (gen st) {| x := 1; y := 1 |} (visited st)))
      = Some nxt ∧
    carve_step st {| x := 1; y := 1 |} = Returns st' ∧
    stack st' = [nxt; {| x := 1; y := 1 |}].
Proof.
  destruct (clear_wall (init_grid 5 5) 1 1) as [grid1| |] eqn:E;
    [|vm_compute in E; discriminate E..].
  destruct (proj2 seeded_choice_in_range (new 5 5) (dfs_start (new 5 5) grid1)
              {| x := 1; y := 1 |} [] (reachable_start (new 5 5) grid1 E) eq_refl)
    as (_ & i & nxt & wallX & wallY & st' & _ & _ & _ & Hchoose & _ & _ & _ & _
          & _ & _ & Hstep & Hstack).
  { by vm_compute. }
  exists grid1, nxt, st'. split; [reflexivity|]. split; [exact Hchoose|].
  split; [exact Hstep | exact Hstack].
Defined.

(** ** The maze of the tests

    The 11 by 11 maze of the repository's tests, [#] for a wall. *)
Lemma generate_11_by_11 :
  bind (generate (new 11 11)) (λ '(grid, _), Returns (render grid)) =
    Returns [ "..#########"; "....#.....#"; "###.#.###.#"; "#.#...#.#.#";
              "#.#####.#.#"; "#.....#...#"; "#.###.#.###"; "#...#.#...#";
              "###.#.###.#"; "#...#......"; "#########.." ].
Proof. by vm_compute. Qed.

(** ** Floor, walls and walks *)

Lemma odd_mod (z : Z) : Z.odd z = true ↔ z mod 2 = 1.
Proof. rewrite Zmod_odd. destruct (Z.odd z); split; (done || lia). Qed.

Lemma even_mod (z : Z) : Z.even z = true ↔ z mod 2 = 0.
Proof. rewrite Zmod_even. destruct (Z.even z); split; (done || lia). Qed.

Lemma clear_wall_floor_at g row col g' p :
  clear_wall g row col = Returns g' →
  floor_at g' p ↔ floor_at g p ∨ (y p = row ∧ x p = col).
Proof.
  intros H. unfold floor_at, is_floor.
  rewrite (clear_wall_cell_at _ _ _ _ _ _ H).
  apply clear_wall_Returns in H as (cells & cell & Hrow & Hcol & _).
  assert (cell_at g row col = Some cell) as Hcell.
  { unfold cell_at. by rewrite Hrow. }
  destruct (decide (y p = row ∧ x p = col)) as [[-> ->]|Hne].
  - rewrite Hcell. simpl. split; [by right | done].
  - destruct (cell_at g (y p) (x p)) as [c|]; simpl.
    + split; [by left | by intros [?|?]].
    + split; [done | by intros [?|?]].
Qed.

Lemma floor_or_wall w h g p :
  populated w h g → in_bounds w h p → floor_at g p ∨ wall_at g p.
Proof.
  intros Hg [Hx Hy]. unfold floor_at, wall_at, is_floor.
  destruct (populated_cell_at _ _ _ (y p) (x p) Hg Hy Hx) as [[cx cy [|]] ->];
    simpl; auto.
Qed.

Lemma wall_not_floor g p : wall_at g p → ¬ floor_at g p.
Proof. unfold wall_at, floor_at, is_floor. by intros ->. Qed.

Lemma walk_mono g g' p q :
  (∀ r, floor_at g r → floor_at g' r) → walk g p q → walk g' p q.
Proof. intros Hsub [Hadj Hq]. split; [done | by apply Hsub]. Qed.

Lemma connected_mono g g' p q :
  (∀ r, floor_at g r → floor_at g' r) → connected g p q → connected g' p q.
Proof.
  intros Hsub [Hp Hpq]. split; [by apply Hsub|]. clear Hp.
  induction Hpq as [|a b c Hab _ IH]; [done|].
  eapply rtc_l; [by eapply walk_mono | done].
Qed.

Lemma connected_refl g p : floor_at g p → connected g p p.
Proof. by split. Qed.

Lemma connected_step g p q r :
  connected g p q → adjacent q r → floor_at g r → connected g p r.
Proof. intros [Hp Hpq] Hqr Hr. split; [done|]. by eapply rtc_r. Qed.

Lemma connected_trans g p q r :
  connected g p q → connected g q r → connected g p r.
Proof. intros [Hp Hpq] [_ Hqr]. split; [done|]. by etrans. Qed.

Lemma connected_floor g p q : connected g p q → floor_at g q.
Proof.
  intros [Hp Hpq]. induction Hpq as [|a b c [_ Hb] _ IH]; [done|]. by apply IH.
Qed.

(** ** [getUnvisitedNeighbors], in full *)

Lemma neighbors_in_complete w h pos visited dirs dir :
  dir ∈ dirs →
  interior_cell w h (moved pos dir) →
  key_of (x (moved pos dir)) (y (moved pos dir)) ∉ visited →
  moved pos dir ∈ neighbors_in w h pos visited dirs.
Proof.
  intros Hdir Hin Hkey. induction dirs as [|d dirs IH]; [by apply elem_of_nil in Hdir|].
  simpl. apply elem_of_cons in Hdir as [<-|Hdir].
  - apply interiorb_spec in Hin. simpl in Hin, Hkey. rewrite Hin. simpl.
    rewrite bool_decide_eq_false_2 by done. simpl. apply elem_of_cons. by left.
  - destruct (_ && _); [apply elem_of_cons; right|]; by apply IH.
Qed.

Lemma neighbors_in_NoDup w h pos visited dirs :
  NoDup dirs → NoDup (neighbors_in w h pos visited dirs).
Proof.
  induction 1 as [|d dirs Hd _ IH]; simpl; [constructor|].
  destruct (_ && _); [|done]. constructor; [|done].
  intros (d' & Hd' & Hx & Hy & _)%neighbors_in_elem. simpl in Hx, Hy.
  assert (d' = d) as -> by (destruct d, d'; simpl in *; f_equal; lia). done.
Qed.

Lemma neighbors_in_sublist w h pos visited dirs :
  neighbors_in w h pos visited dirs `sublist_of` (moved pos <$> dirs).
Proof.
  induction dirs as [|d dirs IH]; simpl; [constructor|].
  destruct (_ && _); [by apply sublist_skip | by apply sublist_cons].
Qed.

Lemma getUnvisitedNeighbors_nil this pos visited dir :
  getUnvisitedNeighbors this pos visited = [] →
  dir ∈ directions →
  interior_cell (width this) (height this) (moved pos dir) →
  key_of (x (moved pos dir)) (y (moved pos dir)) ∈ visited.
Proof.
  intros Hnil Hdir Hin.
  destruct (decide (key_of (x (moved pos dir)) (y (moved pos dir)) ∈ visited))
    as [|Hkey]; [done|].
  pose proof (neighbors_in_complete _ _ _ _ _ _ Hdir Hin Hkey) as Hel.
  unfold getUnvisitedNeighbors in Hnil. rewrite Hnil in Hel.
  by apply elem_of_nil in Hel.
Qed.

(** ** One turn of the loop, in full *)

Lemma carve_step_inv st cur st' :
  carve_step st cur = Returns st' →
  width (gen st') = width (gen st) ∧ height (gen st') = height (gen st) ∧
  ((∃ nxt wallX wallY g1,
      nxt ∈ getUnvisitedNeighbors (gen st) cur (visited st) ∧
      midpoint (x cur) (x nxt) = Some wallX ∧
      midpoint (y cur) (y nxt) = Some wallY ∧
      clear_wall (grid st) wallY wallX = Returns g1 ∧
      clear_wall g1 (y nxt) (x nxt) = Returns (grid st') ∧
      stack st' = nxt :: stack st ∧
      visited st' = {[ key_of (x nxt) (y nxt) ]} ∪ visited st) ∨
   (getUnvisitedNeighbors (gen st) cur (visited st) = [] ∧
      grid st' = grid st ∧
      stack st' = tail (stack st) ∧ visited st' = visited st)).
Proof.
  unfold carve_step.
  destruct (Nat.ltb_spec 0 (length (getUnvisitedNeighbors (gen st) cur (visited st))))
    as [Hpos|Hzero]; cycle 1.
  { intros [= <-]. simpl. split; [done|]. split; [done|]. right.
    split; [|done]. apply length_zero_iff_nil. lia. }
  destruct (choose _ _) as [[nxt|] r'] eqn:Hc; [|done].
  destruct (midpoint (x cur) (x nxt)) as [wallX|] eqn:Hmx; [|done].
  destruct (midpoint (y cur) (y nxt)) as [wallY|] eqn:Hmy; [|done].
  intros (g1 & Hg1 & (g2 & Hg2 & [= <-])%bind_Returns)%bind_Returns. simpl.
  split; [done|]. split; [done|]. left. exists nxt, wallX, wallY, g1.
  split; [by eapply choose_elem | done].
Qed.

Lemma midpoint_Some a b m : midpoint a b = Some m → 2 * m = a + b.
Proof.
  unfold midpoint. destruct (Z.even (a + b)) eqn:He; [|done].
  intros [= <-]. apply even_mod in He.
  pose proof (Z.div_mod (a + b) 2). lia.
Qed.

(** ** The maze under construction *)

Lemma init_grid_cell w h row col cell :
  cell_at (init_grid w h) row col = Some cell → isWall cell = true.
Proof.
  unfold cell_at, init_grid. intros H.
  apply bind_Some in H as (cells & Hrow & Hcol).
  apply index_Some in Hrow as [_ Hrow]. apply index_Some in Hcol as [_ Hcol].
  apply list_lookup_fmap_Some in Hrow as (cy & -> & _).
  by apply list_lookup_fmap_Some in Hcol as (cx & -> & _).
Qed.

Lemma init_grid_no_floor w h p : ¬ floor_at (init_grid w h) p.
Proof.
  unfold floor_at, is_floor. intros H.
  destruct (cell_at _ _ _) as [cell|] eqn:E; [|done].
  apply init_grid_cell in E. simpl in H. congruence.
Qed.

Lemma seen_insert st st' nxt p :
  visited st' = {[ key_of (x nxt) (y nxt) ]} ∪ visited st →
  seen st' p ↔ p = nxt ∨ seen st p.
Proof.
  intros Hv. unfold seen. rewrite Hv, elem_of_union, elem_of_singleton.
  split; (intros [H|H]; [left|by right]).
  - by apply key_of_position_inj.
  - by rewrite H.
Qed.

Lemma dfs_start_maze_inv this grid1 :
  clear_wall (init_grid (width this) (height this)) 1 1 = Returns grid1 →
  maze_inv (width this) (height this) (dfs_start this grid1).
Proof.
  intros H.
  assert (∀ p, floor_at grid1 p → p = {| x := 1; y := 1 |}) as Hfloor.
  { intros [px py] [Hp|[Hy Hx]]%(clear_wall_floor_at _ _ _ _ _ H).
    - by apply init_grid_no_floor in Hp.
    - simpl in *. by subst. }
  assert (floor_at grid1 {| x := 1; y := 1 |}) as Hstart.
  { apply (clear_wall_floor_at _ _ _ _ _ H). by right. }
  assert (∀ p, seen (dfs_start this grid1) p → p = {| x := 1; y := 1 |}) as Hseen.
  { intros p Hp. unfold seen in Hp. simpl in Hp.
    apply elem_of_singleton in Hp. by apply key_of_position_inj. }
  split.
  - unfold seen. simpl. by apply elem_of_singleton.
  - intros p Hp. right. by apply Hfloor.
  - intros p ->%Hseen. split; [done|]. split; [done | by right].
  - simpl. apply Forall_singleton. unfold seen. simpl. by apply elem_of_singleton.
  - intros p Hp. rewrite (Hfloor p Hp). by apply connected_refl.
  - intros p ->%Hseen. left. simpl. by apply list_elem_of_singleton.
Qed.

Lemma carve_step_maze_inv w h st cur rest st' :
  width (gen st) = w → height (gen st) = h →
  maze_inv w h st →
  stack st = cur :: rest →
  carve_step st cur = Returns st' →
  maze_inv w h st'.
Proof.
  intros Hw Hh [Hstart Hfloor Hseen Hstack Hconn Hclosed] Hst Hstep.
  apply carve_step_inv in Hstep as (_ & _ & Hstep).
  assert (seen st cur) as Hcur.
  { rewrite Hst in Hstack. by apply Forall_cons in Hstack as [? _]. }
  destruct Hstep as
    [(nxt & wallX & wallY & g1 & Hnxt & Hmx & Hmy & Hg1 & Hg2 & Hstack' & Hvis')
    |(Hnil & Hgrid & Hstack' & Hvis')].
  - (* a neighbour is pushed *)
    apply getUnvisitedNeighbors_elem in Hnxt as (Hin & Hnew & Hdir).
    rewrite Hw, Hh in Hin.
    apply midpoint_Some in Hmx, Hmy.
    destruct (Hseen cur Hcur) as ([Hox Hoy] & Hcurfloor & Hcurin).
    pose (mid := {| x := wallX; y := wallY |}).
    assert (∀ p, floor_at (grid st') p ↔ floor_at (grid st) p ∨ p = mid ∨ p = nxt)
      as Hfl.
    { intros p. rewrite (clear_wall_floor_at _ _ _ _ _ Hg2),
        (clear_wall_floor_at _ _ _ _ _ Hg1).
      destruct p as [px py], nxt as [nx ny]. unfold mid. simpl.
      split.
      - intros [[?|[-> ->]]|[-> ->]]; auto.
      - intros [?|[[= -> ->]|[= -> ->]]]; auto. }
    assert (∀ p, seen st' p ↔ p = nxt ∨ seen st p) as Hsn.
    { intros p. by apply seen_insert. }
    assert (interior_cell w h cur) as Hcurint.
    { destruct Hcurin as [?| ->]; [done|].
      unfold interior_cell in *. simpl in *. lia. }
    assert (adjacent cur mid ∧ adjacent mid nxt ∧ carvable w h mid ∧
            odd_cell nxt ∧ carvable w h nxt) as (Hadj1 & Hadj2 & Hmid & Hnxtodd & Hnxtc).
    { unfold adjacent, carvable, odd_cell, interior_cell, mid in *. simpl.
      rewrite !odd_mod, !even_mod. apply odd_mod in Hox, Hoy.
      clear -Hin Hcurint Hmx Hmy Hdir Hox Hoy.
      destruct Hdir as [[Hx [Hy|Hy]]|[Hy [Hx|Hx]]]; repeat split; intros;
        Z.to_euclidean_division_equations; lia. }
    assert (∀ p, floor_at (grid st) p → floor_at (grid st') p) as Hmono.
    { intros p Hp. apply Hfl. by left. }
    assert (connected (grid st') {| x := 1; y := 1 |} mid) as Hcmid.
    { eapply connected_step; [|exact Hadj1|apply Hfl; auto].
      eapply connected_mono; [exact Hmono|]. by apply Hconn. }
    split.
    + apply Hsn. by right.
    + intros p [Hp|[->| ->]]%Hfl; [by apply Hfloor|by left..].
    + intros p [->|Hp]%Hsn.
      * split; [done|]. split; [apply Hfl; auto | by left].
      * destruct (Hseen p Hp) as (? & ? & ?). split; [done|]. split; [auto|done].
    + rewrite Hstack'. apply Forall_cons. split; [apply Hsn; by left|].
      eapply Forall_impl; [exact Hstack|]. intros p Hp. apply Hsn. by right.
    + intros p [Hp|[->| ->]]%Hfl.
      * eapply connected_mono; [exact Hmono|]. by apply Hconn.
      * done.
      * eapply connected_step; [exact Hcmid|exact Hadj2|apply Hfl; auto].
    + intros p [->|Hp]%Hsn.
      * left. rewrite Hstack'. apply elem_of_cons. by left.
      * destruct (Hclosed p Hp) as [Hon|Hall].
        -- left. rewrite Hstack'. apply elem_of_cons. by right.
        -- right. intros dir Hd Hint. apply Hsn. right. by apply Hall.
  - (* the top is popped *)
    assert (∀ p, seen st' p ↔ seen st p) as Hsn.
    { intros p. unfold seen. by rewrite Hvis'. }
    rewrite Hst in Hstack'. simpl in Hstack'.
    split.
    + by apply Hsn.
    + intros p. rewrite Hgrid. apply Hfloor.
    + intros p Hp%Hsn. rewrite Hgrid. by apply Hseen.
    + rewrite Hstack'. rewrite Hst in Hstack.
      apply Forall_cons in Hstack as [_ Hstack].
      eapply Forall_impl; [exact Hstack|]. intros p Hp. by apply Hsn.
    + intros p. rewrite Hgrid. apply Hconn.
    + intros p Hp%Hsn. rewrite Hstack'.
      destruct (Hclosed p Hp) as [Hon|Hall].
      * rewrite Hst in Hon. apply elem_of_cons in Hon as [->|Hon]; [|by left].
        right. intros dir Hdir Hint. apply Hsn. unfold seen.
        eapply getUnvisitedNeighbors_nil; [exact Hnil|exact Hdir|].
        by rewrite Hw, Hh.
      * right. intros dir Hdir Hint. apply Hsn. by apply Hall.
Qed.

Lemma reachable_maze_inv this st :
  reachable this st → maze_inv (width this) (height this) st.
Proof.
  induction 1 as [grid1 H|st cur rest st' Hreach IH Hst Hstep].
  - by apply dfs_start_maze_inv.
  - destruct (reachable_inv _ _ Hreach) as (_ & _ & [Hw Hh _ _ _]).
    by eapply carve_step_maze_inv.
Qed.

(** The loop returns in a state it passes through, with an empty stack. *)
Lemma carve_reachable this fuel st st' :
  reachable this st → carve fuel st = Returns st' →
  reachable this st' ∧ stack st' = [].
Proof.
  revert st. induction fuel as [|fuel IH]; intros st Hreach; simpl; [done|].
  destruct (stack st) as [|cur rest] eqn:Hst.
  - by intros [= <-].
  - intros (st1 & Hstep & Hrest)%bind_Returns.
    apply (IH st1); [|done]. by eapply reachable_turn.
Qed.

(** What [generate] returns: the maze the loop ends with, the two blocks
    cleared. *)
Lemma generate_inv this grid this' :
  generate this = Returns (grid, this') →
  ∃ st, reachable this st ∧ stack st = [] ∧
    populated (width this) (height this) grid ∧
    ∀ p, floor_at grid p ↔
      floor_at (MazeGenerator.grid st) p ∨ start_block p ∨
      end_block (width this) (height this) p.
Proof.
  unfold generate. simpl.
  intros (grid1 & Hg1 & (st & Hst & H)%bind_Returns)%bind_Returns.
  pose proof (reachable_start this grid1 Hg1) as Hreach.
  apply (carve_reachable this _ _ _ Hreach) in Hst as [Hst Hnil].
  destruct (reachable_inv _ _ Hst) as (_ & _ & [Hw Hh Hpop _ _]).
  rewrite Hw, Hh in H.
  apply bind_Returns in H as (g1 & E1 & H). apply bind_Returns in H as (g2 & E2 & H).
  apply bind_Returns in H as (g3 & E3 & H). apply bind_Returns in H as (g4 & E4 & H).
  apply bind_Returns in H as (g5 & E5 & H). apply bind_Returns in H as (g6 & E6 & H).
  apply bind_Returns in H as (g7 & E7 & H). apply bind_Returns in H as (g8 & E8 & H).
  injection H as <- _.
  exists st. split; [done|]. split; [done|]. split.
  { repeat (eapply clear_wall_populated; [|eassumption]). done. }
  intros p.
  rewrite (clear_wall_floor_at _ _ _ _ _ E8), (clear_wall_floor_at _ _ _ _ _ E7),
    (clear_wall_floor_at _ _ _ _ _ E6), (clear_wall_floor_at _ _ _ _ _ E5),
    (clear_wall_floor_at _ _ _ _ _ E4), (clear_wall_floor_at _ _ _ _ _ E3),
    (clear_wall_floor_at _ _ _ _ _ E2), (clear_wall_floor_at _ _ _ _ _ E1).
  unfold start_block, end_block.
  split.
  - intros [[[[[[[[?|?]|?]|?]|?]|?]|?]|?]|?]; [by left|right; lia..].
  - intros [?|[?|?]]; [by repeat left|..].
    + assert ((y p = 0 ∧ x p = 0) ∨ (y p = 0 ∧ x p = 1) ∨
              (y p = 1 ∧ x p = 0) ∨ (y p = 1 ∧ x p = 1)) as Hc by lia.
      destruct Hc as [?|[?|[?|?]]]; auto 12.
    + assert ((y p = height this - 1 ∧ x p = width this - 1) ∨
              (y p = height this - 2 ∧ x p = width this - 1) ∨
              (y p = height this - 1 ∧ x p = width this - 2) ∨
              (y p = height this - 2 ∧ x p = width this - 2)) as Hc by lia.
      destruct Hc as [?|[?|[?|?]]]; auto 12.
Qed.

(** ** The maze [generate] returns *)

(** Once the stack is empty, the search has seen every odd cell of the
    interior: what it has seen holds (1,1) and, with a cell, the interior
    cells two away from it. *)
Lemma closed_odd_cells w h st (i j : nat) :
  maze_inv w h st → stack st = [] →
  interior_cell w h {| x := 2 * Z.of_nat i + 1; y := 2 * Z.of_nat j + 1 |} →
  seen st {| x := 2 * Z.of_nat i + 1; y := 2 * Z.of_nat j + 1 |}.
Proof.
  intros [Hstart _ _ _ _ Hclosed] Hnil.
  assert (∀ p dir, seen st p → dir ∈ directions →
            interior_cell w h (moved p dir) → seen st (moved p dir)) as Hmove.
  { intros p dir Hp Hdir Hint. destruct (Hclosed p Hp) as [Hon|Hall].
    - rewrite Hnil in Hon. by apply elem_of_nil in Hon.
    - by apply Hall. }
  induction i as [|i IHi].
  - induction j as [|j IHj]; intros Hint; [done|].
    replace {| x := 2 * Z.of_nat 0 + 1; y := 2 * Z.of_nat (S j) + 1 |}
      with (moved {| x := 2 * Z.of_nat 0 + 1; y := 2 * Z.of_nat j + 1 |}
                  {| x := 0; y := 2 |})
      by (unfold moved; simpl; f_equal; lia).
    apply Hmove.
    + apply IHj. unfold interior_cell in *. simpl in *. lia.
    + unfold directions. rewrite !elem_of_cons. auto.
    + unfold moved, interior_cell in *. simpl in *. lia.
  - intros Hint.
    replace {| x := 2 * Z.of_nat (S i) + 1; y := 2 * Z.of_nat j + 1 |}
      with (moved {| x := 2 * Z.of_nat i + 1; y := 2 * Z.of_nat j + 1 |}
                  {| x := 2; y := 0 |})
      by (unfold moved; simpl; f_equal; lia).
    apply Hmove.
    + apply IHi. unfold interior_cell in *. simpl in *. lia.
    + unfold directions. rewrite !elem_of_cons. auto.
    + unfold moved, interior_cell in *. simpl in *. lia.
Qed.

Lemma odd_cell_seen w h st p :
  maze_inv w h st → stack st = [] →
  interior_cell w h p → odd_cell p → seen st p.
Proof.
  intros Hinv Hnil Hint [Hx Hy]. destruct p as [px py]. simpl in *.
  apply odd_mod in Hx, Hy.
  assert (px = 2 * Z.of_nat (Z.to_nat (px / 2)) + 1 ∧
          py = 2 * Z.of_nat (Z.to_nat (py / 2)) + 1) as [Hpx Hpy].
  { unfold interior_cell in Hint. simpl in Hint.
    rewrite !Z2Nat.id by (apply Z.div_pos; lia).
    pose proof (Z.div_mod px 2). pose proof (Z.div_mod py 2). lia. }
  rewrite Hpx, Hpy. apply (closed_odd_cells w h); [done..|].
  by rewrite <- Hpx, <- Hpy.
Qed.

(** The floor of the maze lies in the two blocks and on the cells the loop
    can clear. *)
Lemma generate_floor_cases this grid this' p :
  generate this = Returns (grid, this') →
  floor_at grid p →
  start_block p ∨ end_block (width this) (height this) p ∨
  carvable (width this) (height this) p.
Proof.
  intros (st & Hreach & _ & _ & Hfl)%generate_inv
    [Hp|[Hp|Hp]]%Hfl; [|auto..].
  apply reachable_maze_inv in Hreach as [_ Hfloor _ _ _ _].
  destruct (Hfloor p Hp) as [?| ->]; [auto|].
  left. unfold start_block. simpl. lia.
Qed.

(** Two steps, for the blocks. *)
Lemma connected_to g p q (nx ny : Z) :
  connected g p q →
  adjacent q {| x := nx; y := ny |} → floor_at g {| x := nx; y := ny |} →
  connected g p {| x := nx; y := ny |}.
Proof. apply connected_step. Qed.

(** From (0,0) to every floor cell, when the width and the height are not
    both even. *)
Lemma generate_reaches_floor (this : MazeGenerator) (grid : Grid)
    (this' : MazeGenerator) :
  3 ≤ width this → 3 ≤ height this →
  Z.odd (width this) = true ∨ Z.odd (height this) = true →
  generate this = Returns (grid, this') →
  (∀ p, floor_at grid p → connected grid {| x := 0; y := 0 |} p) ∧
  connected grid {| x := 0; y := 0 |}
    {| x := width this - 1; y := height this - 1 |}.
Proof.
  intros Hw Hh Hodd Hgen.
  pose proof Hgen as (st & Hreach & Hnil & _ & Hfl)%generate_inv.
  pose proof (reachable_maze_inv _ _ Hreach) as Hinv.
  pose proof Hinv as [_ _ Hseen _ Hconn _].
  set (w := width this) in *. set (h := height this) in *.
  assert (∀ px py, 0 ≤ px ≤ 1 → 0 ≤ py ≤ 1 →
            floor_at grid {| x := px; y := py |}) as Hsb.
  { intros px py Hpx Hpy. apply Hfl. right. left. by split. }
  assert (∀ px py, w - 2 ≤ px ≤ w - 1 → h - 2 ≤ py ≤ h - 1 →
            floor_at grid {| x := px; y := py |}) as Heb.
  { intros px py Hpx Hpy. apply Hfl. right. right. by split. }
  assert (∀ p, floor_at (MazeGenerator.grid st) p → floor_at grid p) as Hmono.
  { intros p Hp. apply Hfl. by left. }
  assert (connected grid {| x := 0; y := 0 |} {| x := 0; y := 0 |}) as H00.
  { apply connected_refl, Hsb; lia. }
  assert (connected grid {| x := 0; y := 0 |} {| x := 1; y := 0 |}) as H10.
  { eapply connected_to; [exact H00| |apply Hsb; lia].
    unfold adjacent. simpl. lia. }
  assert (connected grid {| x := 0; y := 0 |} {| x := 0; y := 1 |}) as H01.
  { eapply connected_to; [exact H00| |apply Hsb; lia].
    unfold adjacent. simpl. lia. }
  assert (connected grid {| x := 0; y := 0 |} {| x := 1; y := 1 |}) as H11.
  { eapply connected_to; [exact H10| |apply Hsb; lia].
    unfold adjacent. simpl. lia. }
  assert (∀ p, floor_at (MazeGenerator.grid st) p →
            connected grid {| x := 0; y := 0 |} p) as Hold.
  { intros p Hp. eapply connected_trans; [exact H11|].
    eapply connected_mono; [exact Hmono|]. by apply Hconn. }
  assert (∀ px py, interior_cell w h {| x := px; y := py |} →
            Z.odd px = true → Z.odd py = true →
            connected grid {| x := 0; y := 0 |} {| x := px; y := py |}) as Hoddc.
  { intros px py Hint Hpx Hpy. apply Hold.
    assert (seen st {| x := px; y := py |}) as Hs
      by (by apply (odd_cell_seen w h)).
    by destruct (Hseen _ Hs) as (_ & ? & _). }
  assert (connected grid {| x := 0; y := 0 |} {| x := w - 2; y := h - 2 |}) as Hb.
  { destruct (Z.odd w) eqn:Ew; destruct (Z.odd h) eqn:Eh.
    - apply Hoddc.
      + unfold interior_cell. simpl. lia.
      + rewrite Z.odd_sub, Ew. done.
      + rewrite Z.odd_sub, Eh. done.
    - assert (4 ≤ h).
      { rewrite <- Z.negb_even in Eh. apply negb_false_iff, even_mod in Eh.
        Z.to_euclidean_division_equations. lia. }
      eapply (connected_to _ _ {| x := w - 2; y := h - 3 |});
        [| unfold adjacent; simpl; lia | apply Heb; lia].
      apply Hoddc.
      + unfold interior_cell. simpl. lia.
      + rewrite Z.odd_sub, Ew. done.
      + rewrite Z.odd_sub, Eh. done.
    - assert (4 ≤ w).
      { rewrite <- Z.negb_even in Ew. apply negb_false_iff, even_mod in Ew.
        Z.to_euclidean_division_equations. lia. }
      eapply (connected_to _ _ {| x := w - 3; y := h - 2 |});
        [| unfold adjacent; simpl; lia | apply Heb; lia].
      apply Hoddc.
      + unfold interior_cell. simpl. lia.
      + rewrite Z.odd_sub, Ew. done.
      + rewrite Z.odd_sub, Eh. done.
    - by destruct Hodd. }
  assert (connected grid {| x := 0; y := 0 |} {| x := w - 1; y := h - 2 |}) as Hb1.
  { eapply connected_to; [exact Hb| |apply Heb; lia].
    unfold adjacent. simpl. lia. }
  assert (connected grid {| x := 0; y := 0 |} {| x := w - 2; y := h - 1 |}) as Hb2.
  { eapply connected_to; [exact Hb| |apply Heb; lia].
    unfold adjacent. simpl. lia. }
  assert (connected grid {| x := 0; y := 0 |} {| x := w - 1; y := h - 1 |}) as Hb3.
  { eapply connected_to; [exact Hb1| |apply Heb; lia].
    unfold adjacent. simpl. lia. }
  split; [|exact Hb3].
  intros [px py] [Hp|[[Hx Hy]|[Hx Hy]]]%Hfl; [by apply Hold|..]; simpl in *.
  - assert ((px = 0 ∨ px = 1) ∧ (py = 0 ∨ py = 1)) as [[-> | ->] [-> | ->]]
      by lia; done.
  - assert ((px = w - 2 ∨ px = w - 1) ∧ (py = h - 2 ∨ py = h - 1))
      as [[-> | ->] [-> | ->]] by lia; done.
Qed.

Lemma NoDup_directions : NoDup directions.
Proof.
  unfold directions.
  repeat (apply NoDup_cons; split;
    [rewrite ?elem_of_cons, ?elem_of_nil; intros H;
     repeat destruct H as [H|H]; done|]).
  apply NoDup_nil_2.
Qed.

(** X1: for a position and sizes such that the sums and differences the
    function forms ([pos.x - 2], [pos.x + 2], [pos.y - 2], [pos.y + 2],
    [this.width - 1], [this.height - 1]) are safe integers,
    [getUnvisitedNeighbors] returns exactly the cells that lie two columns
    or two rows away from [pos], strictly inside the border of the grid,
    and whose key is not in [visited]; it returns each of them once, so at
    most four cells, in the order of the directions: up, right, down,
    left. *)
Theorem getUnvisitedNeighbors_exact (this : MazeGenerator) (pos : Position)
    (visited : gset string) :
  safe_integer (x pos - 2) → safe_integer (x pos + 2) →
  safe_integer (y pos - 2) → safe_integer (y pos + 2) →
  safe_integer (width this - 1) → safe_integer (height this - 1) →
  let neighbors := getUnvisitedNeighbors this pos visited in
  (∀ p, p ∈ neighbors ↔
     interior_cell (width this) (height this) p ∧
     (key_of (x p) (y p) ∉ visited) ∧
     (x p = x pos ∧ (y p = y pos - 2 ∨ y p = y pos + 2) ∨
      y p = y pos ∧ (x p = x pos + 2 ∨ x p = x pos - 2))) ∧
  NoDup neighbors ∧
  (length neighbors ≤ 4)%nat ∧
  neighbors `sublist_of`
    [ {| x := x pos; y := y pos - 2 |}; {| x := x pos + 2; y := y pos |};
      {| x := x pos; y := y pos + 2 |}; {| x := x pos - 2; y := y pos |} ].
Proof.
  intros _ _ _ _ _ _. cbv zeta. split; [|split; [|split]].
  - intros p. split; [apply getUnvisitedNeighbors_elem|].
    intros (Hint & Hkey & Hdir).
    assert (∃ dir, dir ∈ directions ∧ p = moved pos dir) as (dir & Hin & ->).
    { unfold directions, moved. destruct p as [px py]. simpl in *.
      destruct Hdir as [[-> [-> | ->]]|[-> [-> | ->]]].
      - exists {| x := 0; y := -2 |}. rewrite !elem_of_cons.
        split; [auto|f_equal; simpl; lia].
      - exists {| x := 0; y := 2 |}. rewrite !elem_of_cons.
        split; [auto|f_equal; simpl; lia].
      - exists {| x := 2; y := 0 |}. rewrite !elem_of_cons.
        split; [auto|f_equal; simpl; lia].
      - exists {| x := -2; y := 0 |}. rewrite !elem_of_cons.
        split; [auto|f_equal; simpl; lia]. }
    by apply neighbors_in_complete.
  - apply neighbors_in_NoDup, NoDup_directions.
  - apply getUnvisitedNeighbors_length.
  - assert ([ {| x := x pos; y := y pos - 2 |}; {| x := x pos + 2; y := y pos |};
              {| x := x pos; y := y pos + 2 |}; {| x := x pos - 2; y := y pos |} ]
            = moved pos <$> directions) as ->.
    { unfold directions, moved. simpl. repeat f_equal; lia. }
    apply neighbors_in_sublist.
Qed.

Lemma getUnvisitedNeighbors_exact_witness :
  let neighbors :=
    getUnvisitedNeighbors (new 7 7) {| x := 3; y := 3 |} {[ key_of 3 1 ]} in
  {| x := 5; y := 3 |} ∈ neighbors ∧
  ({| x := 3; y := 1 |} ∉ neighbors) ∧
  NoDup neighbors.
Proof.
  intros neighbors.
  destruct (getUnvisitedNeighbors_exact (new 7 7) {| x := 3; y := 3 |}
              {[ key_of 3 1 ]}) as (Hmem & Hnodup & _);
    [unfold safe_integer; simpl; lia..|].
  split; [|split; [|exact Hnodup]].
  - apply Hmem. split; [unfold interior_cell; simpl; lia|]. split.
    + intros H%elem_of_singleton. vm_compute in H. discriminate H.
    + right. simpl. lia.
  - intros (_ & Hkey & _)%Hmem. apply Hkey. by apply elem_of_singleton.
Defined.

(** X2: in every grid [generate] returns, each cell strictly inside the
    border whose column and row are both odd is floor: the search leaves
    none of them out. *)
Theorem generate_carves_odd_cells (this : MazeGenerator) (grid : Grid)
    (this' : MazeGenerator) (p : Position) :
  generate this = Returns (grid, this') →
  interior_cell (width this) (height this) p →
  odd_cell p →
  floor_at grid p.
Proof.
  intros (st & Hreach & Hnil & _ & Hfl)%generate_inv Hint Hodd.
  apply Hfl. left.
  pose proof (reachable_maze_inv _ _ Hreach) as Hinv.
  pose proof (odd_cell_seen _ _ _ _ Hinv Hnil Hint Hodd) as Hseen.
  destruct Hinv as [_ _ Hs _ _ _]. by destruct (Hs p Hseen) as (_ & ? & _).
Qed.

Lemma generate_carves_odd_cells_witness :
  ∃ grid this',
    generate (new 5 5) = Returns (grid, this') ∧
    floor_at grid {| x := 3; y := 3 |}.
Proof.
  destruct (generate (new 5 5)) as [[grid this']| |] eqn:E;
    [|vm_compute in E; discriminate E..].
  exists grid, this'. split; [reflexivity|].
  apply (generate_carves_odd_cells (new 5 5) grid this' _ E).
  - unfold interior_cell. simpl. lia.
  - split; reflexivity.
Defined.

(** X3: the maze is walled in.  In every grid [generate] returns, a cell
    of the outer border is a wall, unless it belongs to one of the two
    blocks of four cells at the start and goal corners. *)
Theorem generate_border_walls (this : MazeGenerator) (grid : Grid)
    (this' : MazeGenerator) (p : Position) :
  generate this = Returns (grid, this') →
  in_bounds (width this) (height this) p →
  x p = 0 ∨ x p = width this - 1 ∨ y p = 0 ∨ y p = height this - 1 →
  ¬ start_block p → ¬ end_block (width this) (height this) p →
  wall_at grid p.
Proof.
  intros Hgen Hin Hborder Hs He.
  pose proof Hgen as (_ & _ & _ & Hpop & _)%generate_inv.
  destruct (floor_or_wall _ _ _ _ Hpop Hin) as [Hfloor|]; [|done].
  destruct (generate_floor_cases _ _ _ _ Hgen Hfloor) as [?|[?|[Hint _]]];
    [done..|].
  unfold interior_cell in Hint. lia.
Qed.

Lemma generate_border_walls_witness :
  ∃ grid this',
    generate (new 5 5) = Returns (grid, this') ∧
    wall_at grid {| x := 2; y := 0 |}.
Proof.
  destruct (generate (new 5 5)) as [[grid this']| |] eqn:E;
    [|vm_compute in E; discriminate E..].
  exists grid, this'. split; [reflexivity|].
  apply (generate_border_walls (new 5 5) grid this' _ E);
    unfold in_bounds, start_block, end_block; simpl; lia.
Defined.

(** X4: in every grid [generate] returns, a cell whose column and row are
    both even is a wall, unless it belongs to one of the two corner
    blocks. *)
Theorem generate_pillars (this : MazeGenerator) (grid : Grid)
    (this' : MazeGenerator) (p : Position) :
  generate this = Returns (grid, this') →
  in_bounds (width this) (height this) p →
  Z.even (x p) = true → Z.even (y p) = true →
  ¬ start_block p → ¬ end_block (width this) (height this) p →
  wall_at grid p.
Proof.
  intros Hgen Hin Hx Hy Hs He.
  pose proof Hgen as (_ & _ & _ & Hpop & _)%generate_inv.
  destruct (floor_or_wall _ _ _ _ Hpop Hin) as [Hfloor|]; [|done].
  destruct (generate_floor_cases _ _ _ _ Hgen Hfloor) as [?|[?|(_ & Hc & _)]];
    [done..|].
  destruct (Hc Hy) as [Hodd _]. rewrite <- Z.negb_even, Hx in Hodd. done.
Qed.

Lemma generate_pillars_witness :
  ∃ grid this',
    generate (new 5 5) = Returns (grid, this') ∧
    wall_at grid {| x := 2; y := 2 |}.
Proof.
  destruct (generate (new 5 5)) as [[grid this']| |] eqn:E;
    [|vm_compute in E; discriminate E..].
  exists grid, this'. split; [reflexivity|].
  apply (generate_pillars (new 5 5) grid this' _ E);
    unfold in_bounds, start_block, end_block; simpl; (reflexivity || lia).
Defined.

(** X5: with a width and a height of at least 3 that are not both even,
    every floor cell of the grid [generate] returns can be reached from
    (0,0) through floor cells, each a side away from the one before; the
    goal corner is one of them. *)
Theorem generate_connected (this : MazeGenerator) (grid : Grid)
    (this' : MazeGenerator) :
  3 ≤ width this → 3 ≤ height this →
  Z.odd (width this) = true ∨ Z.odd (height this) = true →
  generate this = Returns (grid, this') →
  (∀ p, floor_at grid p → connected grid {| x := 0; y := 0 |} p) ∧
  connected grid {| x := 0; y := 0 |}
    {| x := width this - 1; y := height this - 1 |}.
Proof. apply generate_reaches_floor. Qed.

Lemma generate_connected_witness :
  ∃ grid this',
    generate (new 5 5) = Returns (grid, this') ∧
    connected grid {| x := 0; y := 0 |} {| x := 4; y := 4 |}.
Proof.
  destruct (generate (new 5 5)) as [[grid this']| |] eqn:E;
    [|vm_compute in E; discriminate E..].
  exists grid, this'. split; [reflexivity|].
  apply (generate_connected (new 5 5) grid this'); simpl;
    [lia | lia | by left | exact E].
Defined.

(** X6: with an even width and an even height of at least 4, the goal
    corner of the grid [generate] returns cannot be reached from (0,0): the
    block of four floor cells at the goal corner has walls all around. *)
Theorem generate_goal_cut_off (this : MazeGenerator) (grid : Grid)
    (this' : MazeGenerator) :
  4 ≤ width this → 4 ≤ height this →
  Z.even (width this) = true → Z.even (height this) = true →
  generate this = Returns (grid, this') →
  ¬ connected grid {| x := 0; y := 0 |}
      {| x := width this - 1; y := height this - 1 |}.
Proof.
  intros Hw Hh Ew Eh Hgen [H00 Hpath].
  set (w := width this) in *. set (h := height this) in *.
  assert (∀ q, rtc (walk grid) {| x := 0; y := 0 |} q →
            floor_at grid q ∧ ¬ end_block w h q) as Hout.
  { apply rtc_ind_r.
    - split; [done|]. unfold end_block. simpl. lia.
    - intros q q' _ [Hadj Hq'] [Hfloor Hnot].
      split; [done|]. intros Hend.
      apply even_mod in Ew, Eh.
      destruct (generate_floor_cases _ _ _ _ Hgen Hfloor)
        as [Hs|[He|(Hint & Hey & Hex)]]; [|done|].
      + unfold start_block, end_block, adjacent in *. lia.
      + fold w h in Hint, Hey, Hex.
        unfold end_block, interior_cell, adjacent in *.
        rewrite even_mod, odd_mod in Hey, Hex.
        assert (y q = h - 2 ∨ x q = w - 2 ∨ y q = h - 1 ∨ x q = w - 1)
          as [Hc|[Hc|[Hc|Hc]]] by lia.
        * assert (y q `mod` 2 = 0) as Hq0
            by (Z.to_euclidean_division_equations; lia).
          destruct (Hey Hq0). lia.
        * assert (x q `mod` 2 = 0) as Hq0
            by (Z.to_euclidean_division_equations; lia).
          destruct (Hex Hq0). lia.
        * lia.
        * lia. }
  destruct (Hout _ Hpath) as [_ Hnot]. apply Hnot.
  unfold end_block. simpl. lia.
Qed.

Lemma generate_goal_cut_off_witness :
  ∃ grid this',
    generate (new 4 4) = Returns (grid, this') ∧
    ¬ connected grid {| x := 0; y := 0 |} {| x := 3; y := 3 |}.
Proof.
  destruct (generate (new 4 4)) as [[grid this']| |] eqn:E;
    [|vm_compute in E; discriminate E..].
  exists grid, this'. split; [reflexivity|].
  apply (generate_goal_cut_off (new 4 4) grid this'); simpl;
    [lia | lia | reflexivity | reflexivity | exact E].
Defined.

(** ** The period of [SeededRandom] *)

Lemma seed_after_S (n : nat) (s : Z) :
  seed_after (S n) s = seed_after n (seed (snd (next {| seed := s |}))).
Proof. unfold seed_after. by rewrite Nat.iter_succ_r. Qed.

Lemma seed_after_last (n : nat) (s : Z) :
  seed_after (S n) s = seed (snd (next {| seed := seed_after n s |})).
Proof. reflexivity. Qed.

Lemma seed_after_add (n m : nat) (s : Z) :
  seed_after (n + m) s = seed_after n (seed_after m s).
Proof. unfold seed_after. by rewrite Nat.iter_add. Qed.

Lemma seed_after_range (n : nat) (s : Z) :
  0 ≤ s < 233280 → 0 ≤ seed_after n s < 233280.
Proof.
  intros Hs. induction n as [|n IH]; [done|].
  change (seed_after (S n) s)
    with (seed (snd (next {| seed := seed_after n s |}))).
  apply (next_seed_ok {| seed := seed_after n s |}). simpl. lia.
Qed.

Lemma calls_avoiding_spec (count : nat) (s0 s s' : Z) :
  calls_avoiding count s0 s = Some s' →
  s' = seed_after count s ∧
  ∀ k : nat, (0 < k ≤ count)%nat → seed_after k s ≠ s0.
Proof.
  revert s. induction count as [|count IH]; intros s; cbn [calls_avoiding].
  - intros [= <-]. split; [done|]. intros k Hk. lia.
  - destruct (Z.eqb_spec (seed (snd (next {| seed := s |}))) s0) as [|Hne];
      [done|].
    intros [-> Hk]%IH. split; [by rewrite seed_after_S|].
    intros [|k] Hle; [lia|]. rewrite seed_after_S.
    destruct k as [|k]; [done|]. apply Hk. lia.
Qed.

(** From the seed 0, [next] comes back to 0 after 233280 calls, and not
    before. *)
Lemma first_return_to_zero :
  seed_after (Z.to_nat 233280) 0 = 0 ∧
  ∀ k : nat, (0 < k < Z.to_nat 233280)%nat → seed_after k 0 ≠ 0.
Proof.
  assert (calls_avoiding (Z.to_nat 233279) 0 0 = Some 22643) as Hc
    by (by vm_compute).
  apply calls_avoiding_spec in Hc as [Hlast Hk].
  split.
  - replace (Z.to_nat 233280) with (S (Z.to_nat 233279)) by lia.
    rewrite seed_after_last, <- Hlast. clear. vm_compute. reflexivity.
  - intros k Hlt. apply Hk. lia.
Qed.

(** The first 233280 seeds from 0 are all different. *)
Lemma seeds_distinct (i j : nat) :
  (i < j < Z.to_nat 233280)%nat → seed_after i 0 ≠ seed_after j 0.
Proof.
  intros Hij Heq. destruct first_return_to_zero as [Hback Hnot].
  apply (Hnot (Z.to_nat 233280 - j + i)%nat); [lia|].
  rewrite seed_after_add, Heq, <- seed_after_add.
  replace (Z.to_nat 233280 - j + j)%nat with (Z.to_nat 233280) by lia.
  exact Hback.
Qed.

(** Every seed of the range comes up among them. *)
Lemma seeds_cover (s : Z) :
  0 ≤ s < 233280 → ∃ i : nat, (i < Z.to_nat 233280)%nat ∧ seed_after i 0 = s.
Proof.
  intros Hs.
  set (l := (λ i, seed_after i 0) <$> seq 0 (Z.to_nat 233280)).
  assert (NoDup l) as Hnd.
  { apply NoDup_fmap_2_strong; [|apply NoDup_seq].
    intros i j Hi%elem_of_seq Hj%elem_of_seq Heq.
    destruct (Nat.lt_trichotomy i j) as [Hlt|[->|Hgt]]; [|done|].
    - exfalso. apply (seeds_distinct i j); [lia | exact Heq].
    - exfalso. apply (seeds_distinct j i); [lia | symmetry; exact Heq]. }
  assert (l ⊆+ seqZ 0 233280) as Hsub.
  { apply NoDup_submseteq; [done|]. intros z (i & -> & _)%list_elem_of_fmap.
    apply elem_of_seqZ. pose proof (seed_after_range i 0). lia. }
  assert (l ≡ₚ seqZ 0 233280) as Hperm.
  { apply submseteq_length_Permutation; [done|].
    unfold l. rewrite length_fmap, length_seq, length_seqZ. lia. }
  assert (s ∈ l) as (i & -> & Hi%elem_of_seq)%list_elem_of_fmap.
  { rewrite Hperm. apply elem_of_seqZ. lia. }
  exists i. split; [lia | done].
Qed.

(** X7: [SeededRandom] has full period.  From any seed of 0 to 233279,
    the seed is back after 233280 calls of [next] and not before, and
    every seed of that range has come up on the way. *)
Theorem next_full_period (s : Z) :
  0 ≤ s < 233280 →
  seed_after (Z.to_nat 233280) s = s ∧
  (∀ k : nat, (0 < k < Z.to_nat 233280)%nat → seed_after k s ≠ s) ∧
  (∀ s', 0 ≤ s' < 233280 →
     ∃ k : nat, (k < Z.to_nat 233280)%nat ∧ seed_after k s = s').
Proof.
  intros Hs. destruct first_return_to_zero as [Hback Hnot].
  destruct (seeds_cover s Hs) as (i & Hi & <-).
  assert (∀ n : nat, seed_after (n + Z.to_nat 233280) 0 = seed_after n 0)
    as Hwrap.
  { intros n. rewrite seed_after_add, Hback. reflexivity. }
  clear Hback Hnot. split; [|split].
  - rewrite <- seed_after_add, Nat.add_comm, Hwrap. reflexivity.
  - intros k Hk. rewrite <- seed_after_add. intros Heq.
    destruct (decide (k + i < Z.to_nat 233280)%nat) as [Hlt|Hge].
    + apply (seeds_distinct i (k + i)); [lia | symmetry; exact Heq].
    + replace (k + i)%nat
        with ((k + i - Z.to_nat 233280) + Z.to_nat 233280)%nat in Heq by lia.
      rewrite Hwrap in Heq.
      apply (seeds_distinct (k + i - Z.to_nat 233280) i); [lia | exact Heq].
  - intros s' Hs'. destruct (seeds_cover s' Hs') as (j & Hj & <-).
    destruct (decide (i ≤ j)%nat) as [Hle|Hgt].
    + exists (j - i)%nat. split; [lia|]. rewrite <- seed_after_add.
      f_equal. lia.
    + exists (j + Z.to_nat 233280 - i)%nat. split; [lia|].
      rewrite <- seed_after_add.
      replace (j + Z.to_nat 233280 - i + i)%nat
        with (j + Z.to_nat 233280)%nat by lia.
      apply Hwrap.
Qed.

Lemma next_full_period_witness :
  seed_after (Z.to_nat 233280) 555 = 555 ∧ seed_after 2 555 ≠ 555.
Proof.
  destruct (next_full_period 555) as (Hback & Hnot & _); [lia|].
  split; [exact Hback|]. apply (Hnot 2%nat). clear. lia.
Defined.

End MazeGeneratorSpec.

(* ===================================================================== *)
(** * Properties of the agent *)
(* ===================================================================== *)

Module QLearningAgentSpec.
Import JS Types QLearningAgent DoubleSpec TypesSpec.

Implicit Types (h : heap) (this : QLearningAgent) (pos : Position).

(** ** Lazy rows *)

(** [getQValues] returns the row the table holds for the key, which is a
    new row of zeros, bound to the key, when the key was absent.  Nothing
    else in the heap changes. *)
Lemma getQValues_spec this pos h t :
  objects h !! qTable this = Some t →
  ∃ row h1,
    getQValues this pos h = (row, h1) ∧
    objects h1 = <[qTable this := <[getStateKey pos := row]> t]> (objects h) ∧
    (t !! getStateKey pos = Some row ∧ arrays h1 = arrays h ∨
     t !! getStateKey pos = None ∧ row = length (arrays h) ∧
       arrays h1 = arrays h ++ [zero_row]).
Proof.
  intros Ht. unfold getQValues, object_get. rewrite Ht. simpl.
  destruct (t !! getStateKey pos) as [row|] eqn:Hk.
  - exists row, h. split; [done|]. split; [|by left].
    by rewrite insert_id, list_insert_id.
  - eexists _, _. split; [done|]. simpl. split; [|by right].
    apply list_eq. intros o.
    destruct (decide (o = qTable this)) as [->|Hne].
    + rewrite list_lookup_alter_eq, Ht. simpl.
      by rewrite list_lookup_insert_eq by (by eapply lookup_lt_Some).
    + by rewrite list_lookup_alter_ne, list_lookup_insert_ne.
Qed.

Lemma getQValues_objects_length this pos h :
  length (objects (getQValues this pos h).2) = length (objects h).
Proof.
  unfold getQValues. destruct (object_get _ _ _); simpl; [done|].
  by rewrite length_alter.
Qed.

(** The row [getQValues] returns is the row the table stood for. *)
Lemma getQValues_row this pos h :
  table_inv h (qTable this) →
  ∃ row h1,
    getQValues this pos h = (row, h1) ∧
    object_get h1 (qTable this) (getStateKey pos) = Some row ∧
    arrays h1 !! row = Some (lazy_row h this pos) ∧
    length (lazy_row h this pos) = 4 ∧
    table_inv h1 (qTable this) ∧
    (∀ r qs, arrays h !! r = Some qs → arrays h1 !! r = Some qs) ∧
    (∀ k r, object_get h (qTable this) k = Some r →
            object_get h1 (qTable this) k = Some r) ∧
    (∀ k, k ≠ getStateKey pos →
          object_get h1 (qTable this) k = object_get h (qTable this) k) ∧
    (∀ pos', lazy_row h1 this pos' = lazy_row h this pos').
Proof.
  intros (t & Ht & Hrows).
  destruct (getQValues_spec this pos h t Ht) as (row & h1 & Hget & Hobj & Harr).
  exists row, h1. split; [done|].
  assert (objects h1 !! qTable this = Some (<[getStateKey pos := row]> t)) as Ht1.
  { rewrite Hobj. apply list_lookup_insert_eq. by eapply lookup_lt_Some. }
  assert (∀ r qs, arrays h !! r = Some qs → arrays h1 !! r = Some qs) as Hkeep.
  { intros r qs Hr. destruct Harr as [[_ ->]|(_ & _ & ->)]; [done|].
    by apply lookup_app_l_Some. }
  assert (arrays h1 !! row = Some (lazy_row h this pos) ∧
          length (lazy_row h this pos) = 4) as [Hrow Hlen].
  { unfold lazy_row, row_of, object_get. rewrite Ht. simpl.
    destruct Harr as [[Hk ->]|(Hk & -> & ->)]; rewrite Hk; simpl.
    - destruct (Hrows _ _ Hk) as (qs & -> & Hqs). done.
    - split; [|done]. by rewrite lookup_app_r, Nat.sub_diag. }
  assert (∀ k, k ≠ getStateKey pos →
            object_get h1 (qTable this) k = object_get h (qTable this) k) as Hne.
  { intros k Hk. unfold object_get. rewrite Ht1, Ht. simpl.
    by rewrite lookup_insert_ne. }
  assert (∀ k r, object_get h (qTable this) k = Some r →
            object_get h1 (qTable this) k = Some r) as Hsame.
  { intros k r Hk. destruct (decide (k = getStateKey pos)) as [->|Hkne];
      [|by rewrite Hne].
    unfold object_get in *. rewrite Ht1. rewrite Ht in Hk. simpl in *.
    rewrite lookup_insert_eq.
    destruct Harr as [[Hk' _]|(Hk' & _)]; congruence. }
  split_and!; try done.
  - unfold object_get. rewrite Ht1. simpl. by rewrite lookup_insert_eq.
  - exists (<[getStateKey pos := row]> t). split; [done|].
    intros k r. destruct (decide (k = getStateKey pos)) as [->|Hkne].
    + rewrite lookup_insert_eq. intros [= <-]. eauto.
    + rewrite lookup_insert_ne by done. intros Hk.
      destruct (Hrows _ _ Hk) as (qs & Hqs & ?). eauto.
  - intros pos'. unfold lazy_row, row_of.
    destruct (decide (getStateKey pos' = getStateKey pos)) as [Heq|Hkne].
    + rewrite Heq. unfold object_get at 1. rewrite Ht1. simpl.
      rewrite lookup_insert_eq. simpl. rewrite Hrow. simpl.
      unfold lazy_row, row_of. done.
    + rewrite Hne by done.
      destruct (object_get h (qTable this) (getStateKey pos')) as [r|] eqn:Hr;
        simpl; [|done].
      unfold object_get in Hr. rewrite Ht in Hr. simpl in Hr.
      destruct (Hrows _ _ Hr) as (qs & Hqs & _).
      by rewrite Hqs, (Hkeep _ _ Hqs).
Qed.

Lemma action_index_lt (action : Action) : action_index action < 4.
Proof. destruct action; simpl; lia. Qed.

Lemma array_store_in_range (qs : list float) (i : nat) (v : float) :
  i < length qs → array_store qs i v = <[i := v]> qs.
Proof.
  intros Hi. unfold array_store.
  by destruct (Nat.ltb_spec i (length qs)); [|lia].
Qed.

Lemma getMaxQ_eq this pos h :
  getMaxQ this pos h =
    (Math_max (array_elements (getQValues this pos h).2 (getQValues this pos h).1),
     (getQValues this pos h).2).
Proof. unfold getMaxQ. by destruct (getQValues this pos h). Qed.

(** ** [update]

    The heap [update] leaves, step by step: the row of [state] after the
    first access, the row of [nextState] after the second, the write, and
    the binding of the row to the key of [state]. *)
Lemma update_spec this state action reward nextState h :
  table_inv h (qTable this) →
  ∃ row nextRow h2 oldQ,
    lazy_row h this state !! action_index action = Some oldQ ∧
    let maxNextQ := Math_max (lazy_row h this nextState) in
    let newQ :=
      (oldQ + alpha this * (reward + gamma this * maxNextQ - oldQ))%float in
    update this state action reward nextState h
      = object_set (array_set h2 row (action_index action) newQ)
          (qTable this) (getStateKey state) row ∧
    (getQValues this nextState (getQValues this state h).2) = (nextRow, h2) ∧
    (getQValues this state h).1 = row ∧
    table_inv h2 (qTable this) ∧
    object_get h2 (qTable this) (getStateKey state) = Some row ∧
    object_get h2 (qTable this) (getStateKey nextState) = Some nextRow ∧
    arrays h2 !! row = Some (lazy_row h this state) ∧
    arrays h2 !! nextRow = Some (lazy_row h this nextState).
Proof.
  intros Hinv.
  destruct (getQValues_row this state h Hinv)
    as (row & h1 & Hget1 & Hobj1 & Hrow1 & Hlen1 & Hinv1 & Hkeep1 & Hsame1 & _ & Hlazy1).
  destruct (getQValues_row this nextState h1 Hinv1)
    as (nextRow & h2 & Hget2 & Hobj2 & Hrow2 & Hlen2 & Hinv2 & Hkeep2 & Hsame2 & _ & _).
  destruct (lookup_lt_is_Some_2 (lazy_row h this state) (action_index action))
    as [oldQ HoldQ]; [pose proof (action_index_lt action); lia|].
  exists row, nextRow, h2, oldQ. split; [done|]. intros maxNextQ newQ.
  rewrite Hget1. simpl. rewrite Hget2. rewrite Hlazy1 in Hrow2.
  split_and!; try done; [|by apply Hsame2|by apply Hkeep2].
  unfold update. rewrite Hget1, getMaxQ_eq, Hget2. simpl.
  unfold array_elements. rewrite Hrow1, Hrow2. simpl. rewrite HoldQ. simpl.
  done.
Qed.

Lemma array_set_lookup h row i v r :
  arrays (array_set h row i v) !! r =
    if decide (r = row) then (λ qs, array_store qs i v) <$> arrays h !! row
    else arrays h !! r.
Proof.
  unfold array_set. simpl. destruct (decide (r = row)) as [->|Hne].
  - by rewrite list_lookup_alter_eq.
  - by rewrite list_lookup_alter_ne.
Qed.

Lemma object_set_get h o k r o' k' :
  is_Some (objects h !! o) →
  object_get (object_set h o k r) o' k' =
    if decide (o' = o ∧ k' = k) then Some r else object_get h o' k'.
Proof.
  intros [t Ht]. unfold object_get, object_set. simpl.
  destruct (decide (o' = o)) as [->|Hne].
  - rewrite list_lookup_alter_eq, Ht. simpl.
    destruct (decide (k' = k)) as [->|Hk].
    + by rewrite lookup_insert_eq, decide_True.
    + rewrite lookup_insert_ne by done. by rewrite decide_False by (by intros [_ ?]).
  - rewrite list_lookup_alter_ne by done. by rewrite decide_False by (by intros [? _]).
Qed.

Lemma table_inv_object_set h o k r :
  table_inv h o → (∃ qs, arrays h !! r = Some qs ∧ length qs = 4) →
  table_inv (object_set h o k r) o.
Proof.
  intros (t & Ht & Hrows) Hr. exists (<[k := r]> t). split.
  - unfold object_set. simpl. by rewrite list_lookup_alter_eq, Ht.
  - intros k' r'. destruct (decide (k' = k)) as [->|Hk].
    + rewrite lookup_insert_eq. by intros [= <-].
    + rewrite lookup_insert_ne by done. apply Hrows.
Qed.

Lemma table_inv_array_set h o row i v :
  table_inv h o → i < 4 → table_inv (array_set h row i v) o.
Proof.
  intros (t & Ht & Hrows) Hi. exists t. split; [done|].
  intros k r Hk. destruct (Hrows _ _ Hk) as (qs & Hqs & Hlen).
  rewrite array_set_lookup. destruct (decide (r = row)) as [->|Hne]; [|eauto].
  rewrite Hqs. simpl. eexists. split; [done|].
  rewrite array_store_in_range by lia. by rewrite length_insert.
Qed.

(** ** The table of a new agent *)

Lemma table_inv_empty h o : objects h !! o = Some ∅ → table_inv h o.
Proof. intros Ho. exists ∅. split; [done|]. intros k row. by rewrite lookup_empty. Qed.

Lemma new_table alpha0 gamma0 epsilon0 h :
  objects (new alpha0 gamma0 epsilon0 h).2
    !! qTable (new alpha0 gamma0 epsilon0 h).1 = Some ∅.
Proof.
  unfold new, object_new. simpl. by rewrite lookup_app_r, Nat.sub_diag.
Qed.

Lemma table_inv_new alpha0 gamma0 epsilon0 h :
  table_inv (new alpha0 gamma0 epsilon0 h).2
    (qTable (new alpha0 gamma0 epsilon0 h).1).
Proof. apply table_inv_empty, new_table. Qed.

Lemma new_contents alpha0 gamma0 epsilon0 h :
  contents (new alpha0 gamma0 epsilon0 h).2
    (qTable (new alpha0 gamma0 epsilon0 h).1) = Some ∅.
Proof. unfold contents. rewrite new_table. simpl. by rewrite fmap_empty. Qed.

(** C10: the constructor stores its third argument as both the current and
    the initial epsilon, its first two as alpha and gamma, leaves the floor
    at 0.01 and the decay rate at 0.995, and starts from a table of its
    own that holds no key. *)
Theorem constructor_fields (alpha0 gamma0 epsilon0 : float) (h : heap) :
  let this := (new alpha0 gamma0 epsilon0 h).1 in
  let h' := (new alpha0 gamma0 epsilon0 h).2 in
  alpha this = alpha0 ∧ gamma this = gamma0 ∧
  epsilon this = epsilon0 ∧ initialEpsilon this = epsilon0 ∧
  minEpsilon this = 0.01%float ∧ decayRate this = 0.995%float ∧
  objects h !! qTable this = None ∧
  objects h' !! qTable this = Some ∅ ∧
  contents h' (qTable this) = Some ∅ ∧
  arrays h' = arrays h.
Proof.
  intros this h'. split_and!; try done.
  - apply lookup_ge_None. unfold this, new, object_new. simpl. lia.
  - apply new_table.
  - apply new_contents.
Qed.

(** ** [setQTable] *)

Lemma setQTable_eq this (newQTable : loc) h (t : gmap string loc) :
  objects h !! newQTable = Some t →
  setQTable this newQTable h =
    (set_qTable (length (objects h)) this,
     {| arrays := arrays h; objects := objects h ++ [t] |}).
Proof. intros Ht. unfold setQTable, object_spread, object_new. by rewrite Ht. Qed.

Lemma mutates_object_frame (o q : loc) h h'' (t : gmap string loc) :
  q ≠ o →
  (∀ k row, t !! k = Some row → is_Some (arrays h !! row)) →
  objects h !! q = Some t →
  rtc (mutates_object o) h h'' →
  objects h'' !! q = Some t ∧ contents h'' q = contents h q.
Proof.
  intros Hq Hwf Ht Hsteps. revert Hwf Ht.
  induction Hsteps as [h|h h1 h2 Hstep _ IH]; intros Hwf Ht; [done|].
  assert (objects h1 !! q = objects h !! q ∧
          ∀ row, is_Some (arrays h !! row) → arrays h1 !! row = arrays h !! row)
    as [Hobj Harr].
  { destruct Hstep as [h qs|h k row|h k]; simpl.
    - split; [done|]. intros row [xs Hrow]. rewrite Hrow.
      by apply lookup_app_l_Some.
    - split; [|done]. by rewrite list_lookup_alter_ne.
    - split; [|done]. by rewrite list_lookup_alter_ne. }
  destruct IH as [IH1 IH2].
  - intros k row Hk. rewrite Harr by eauto. eauto.
  - by rewrite Hobj.
  - split; [done|]. rewrite IH2. unfold contents. rewrite Hobj, Ht. simpl.
    f_equal. apply map_eq. intros k. rewrite !lookup_fmap.
    destruct (t !! k) as [row|] eqn:Hk; simpl; [|done].
    unfold array_elements. by rewrite Harr by eauto.
Qed.

(** C1, amended: [setQTable] replaces the table of the agent with a new
    object that holds the keys of the caller's object, each bound to the
    very row the caller's object binds it to; the parameters of the agent
    stay as they are.  Whatever the caller then does to its object (binding
    a key to a row old or new, deleting a key) leaves the table of the
    agent as it is.  The rows themselves are not copied: a write into a row
    of the caller's table is a write into the row of the agent. *)
Theorem setQTable_copies_keys this (newQTable : loc) h (t : gmap string loc) :
  objects h !! newQTable = Some t →
  (∀ k row, t !! k = Some row → is_Some (arrays h !! row)) →
  let this' := (setQTable this newQTable h).1 in
  let h' := (setQTable this newQTable h).2 in
  qTable this' ≠ newQTable ∧
  objects h !! qTable this' = None ∧
  objects h' !! qTable this' = Some t ∧
  objects h' !! newQTable = Some t ∧
  arrays h' = arrays h ∧
  (alpha this' = alpha this ∧ gamma this' = gamma this ∧
   epsilon this' = epsilon this ∧ initialEpsilon this' = initialEpsilon this ∧
   minEpsilon this' = minEpsilon this ∧ decayRate this' = decayRate this) ∧
  (∀ h'', rtc (mutates_object newQTable) h' h'' →
          objects h'' !! qTable this' = Some t ∧
          contents h'' (qTable this') = contents h' (qTable this')) ∧
  (∀ k row qs i v,
     t !! k = Some row → arrays h !! row = Some qs →
     contents (array_set h' row i v) (qTable this') ≫= lookup k
       = Some (array_store qs i v)).
Proof.
  intros Ht Hwf this' h'.
  assert (this' = set_qTable (length (objects h)) this ∧
          h' = {| arrays := arrays h; objects := objects h ++ [t] |})
    as [Hthis Hh'].
  { unfold this', h'. by rewrite (setQTable_eq _ _ _ _ Ht). }
  clearbody this' h'. subst this' h'. simpl.
  pose proof (lookup_lt_Some _ _ _ Ht) as Hlt.
  assert ((objects h ++ [t]) !! length (objects h) = Some t) as Ht'.
  { by rewrite lookup_app_r, Nat.sub_diag. }
  split_and!; try done; try lia.
  - apply lookup_ge_None. lia.
  - by apply lookup_app_l_Some.
  - intros h'' Hsteps.
    by apply (mutates_object_frame newQTable (length (objects h)) _ h'' t);
      [lia | ..].
  - intros k row qs i v Hk Hrow. unfold contents, array_set. simpl.
    rewrite Ht'. simpl. rewrite lookup_fmap, Hk. simpl. f_equal.
    unfold array_elements. simpl. by rewrite list_lookup_alter_eq, Hrow.
Qed.

(** C1, as stated, fails.  The caller builds [{ "1,1": [1, 2, 3, 4] }],
    hands it to [setQTable] and then writes 99 into the first entry of the
    row it still holds: the table of the agent reads [[99, 2, 3, 4]]. *)
Lemma setQTable_shares_rows :
  let '(row, h) := array_new [1; 2; 3; 4]%float empty_heap in
  let '(newQTable, h) := object_new {[ "1,1" := row ]} h in
  let '(this, h) := new 0.5%float 0.5%float 0.5%float h in
  let '(this, h) := setQTable this newQTable h in
  let h' := array_set h row 0 99%float in
  (map_to_list <$> contents h (qTable this))
    = Some [("1,1", [1; 2; 3; 4]%float)] ∧
  (map_to_list <$> contents h' (qTable this))
    = Some [("1,1", [99; 2; 3; 4]%float)].
Proof. by vm_compute. Qed.

Lemma setQTable_copies_keys_witness :
  let row := 0 in
  let newQTable := 0 in
  let h : heap :=
    {| arrays := [[1; 2; 3; 4]%float]; objects := [ {[ "1,1" := row ]} ] |} in
  let this := (new 0.5%float 0.5%float 0.5%float h).1 in
  let h := (new 0.5%float 0.5%float 0.5%float h).2 in
  let this' := (setQTable this newQTable h).1 in
  let h' := (setQTable this newQTable h).2 in
  let h'' := object_set (array_new [5; 6; 7; 8]%float h').2 newQTable "2,2" 1 in
  contents h'' (qTable this') = contents h' (qTable this').
Proof.
  intros row newQTable h0 this h this' h' h''.
  refine (proj2 (proj1 (proj2 (proj2 (proj2 (proj2 (proj2 (proj2
    (setQTable_copies_keys this newQTable h {[ "1,1" := row ]} _ _))))))) h'' _)).
  - reflexivity.
  - intros k r Hk. destruct (decide (k = "1,1")) as [->|Hne].
    + rewrite lookup_singleton_eq in Hk. injection Hk as <-. by eexists.
    + by rewrite lookup_singleton_ne in Hk.
  - eapply rtc_l; [apply (mutates_new_array _ _ [5; 6; 7; 8]%float)|].
    eapply rtc_l; [apply (mutates_set _ _ "2,2" 1)|]. apply rtc_refl.
Defined.

(** ** [decayCuriosity] *)

Lemma decay_iter_params (this : QLearningAgent) (n : nat) :
  minEpsilon (Nat.iter n decayCuriosity this) = minEpsilon this ∧
  decayRate (Nat.iter n decayCuriosity this) = decayRate this.
Proof. induction n as [|n IH]; [done|]. simpl. exact IH. Qed.

Lemma decay_iter_not_nan (this : QLearningAgent) (n : nat) :
  PrimFloat.ltb 0 (decayRate this) = true →
  PrimFloat.ltb (decayRate this) 1 = true →
  PrimFloat.leb 0 (minEpsilon this) = true →
  PrimFloat.is_nan (epsilon this) = false →
  PrimFloat.is_nan (epsilon (Nat.iter n decayCuriosity this)) = false.
Proof.
  intros Hr0 Hr1 Hm He. induction n as [|n IH]; [done|]. simpl.
  destruct (decay_iter_params this n) as [-> ->].
  by apply decay_step.
Qed.

(** C6, as stated, fails.  An agent constructed with epsilon 0, as
    [new QLearningAgent(0.5, 0.5, 0)], has decayRate 0.995, and its epsilon
    is raised from 0 to 0.01 by the first call. *)
Lemma decayCuriosity_raises_epsilon :
  let this := (new 0.5 0.5 0 empty_heap).1 in
  PrimFloat.ltb 0 (decayRate this) = true ∧
  PrimFloat.ltb (decayRate this) 1 = true ∧
  epsilon this = 0%float ∧
  epsilon (decayCuriosity this) = 0.01%float ∧
  PrimFloat.ltb (epsilon this) (epsilon (decayCuriosity this)) = true.
Proof. by vm_compute. Qed.

(** Why the floor is taken non-negative below: under a negative floor,
    which no agent of the class has, an epsilon that has reached the floor
    leaves it again. *)
Lemma decayCuriosity_negative_floor :
  let this := {| qTable := 0; alpha := 0.5; gamma := 0.5;
                 epsilon := -1; initialEpsilon := -1;
                 minEpsilon := -1; decayRate := 0.5 |}%float in
  epsilon this = minEpsilon this ∧
  epsilon (decayCuriosity this) = (-0.5)%float ∧
  PrimFloat.ltb (epsilon this) (epsilon (decayCuriosity this)) = true.
Proof. by vm_compute. Qed.

(** C6, amended: [decayCuriosity] sets epsilon to
    [max(minEpsilon, epsilon * decayRate)].  For every agent with
    0 < decayRate < 1 and 0 ≤ minEpsilon, and across any number of calls:
    epsilon is not below minEpsilon after a call (epsilon being a number to
    begin with); from an epsilon that starts at or above minEpsilon no call
    raises it; and a call that finds epsilon at minEpsilon leaves it
    there. *)
Theorem decayCuriosity_floor (this : QLearningAgent) (n : nat) :
  PrimFloat.ltb 0 (decayRate this) = true →
  PrimFloat.ltb (decayRate this) 1 = true →
  PrimFloat.leb 0 (minEpsilon this) = true →
  let before := Nat.iter n decayCuriosity this in
  let after := decayCuriosity before in
  epsilon after
    = float_max (minEpsilon this)
        (PrimFloat.mul (epsilon before) (decayRate this)) ∧
  (PrimFloat.is_nan (epsilon this) = false →
     PrimFloat.leb (minEpsilon this) (epsilon after) = true) ∧
  (PrimFloat.leb (minEpsilon this) (epsilon this) = true →
     PrimFloat.leb (epsilon after) (epsilon before) = true) ∧
  (epsilon before = minEpsilon this → epsilon after = minEpsilon this).
Proof.
  intros Hr0 Hr1 Hm. cbv zeta.
  destruct (decay_iter_params this n) as [Hmin Hrate].
  pose proof (decay_step (minEpsilon this)
                (epsilon (Nat.iter n decayCuriosity this)) (decayRate this)
                Hr0 Hr1 Hm) as (Hge & Hle & _).
  assert (epsilon (decayCuriosity (Nat.iter n decayCuriosity this))
          = float_max (minEpsilon this)
              (PrimFloat.mul (epsilon (Nat.iter n decayCuriosity this))
                 (decayRate this))) as ->.
  { unfold decayCuriosity at 1. simpl. by rewrite Hmin, Hrate. }
  split_and!.
  - done.
  - intros He. by apply Hge, decay_iter_not_nan.
  - intros He. apply Hle. destruct n as [|n]; [done|]. simpl.
    destruct (decay_iter_params this n) as [-> ->].
    apply decay_step; try done. apply decay_iter_not_nan; try done.
    by apply leb_not_nan in He as [_ ?].
  - intros ->.
    by destruct (decay_step (minEpsilon this) (minEpsilon this) (decayRate this)
                   Hr0 Hr1 Hm) as (_ & _ & ?).
Qed.

Lemma decayCuriosity_floor_witness :
  let this := (new 0.5 0.5 1 empty_heap).1 in
  epsilon (Nat.iter 4 decayCuriosity this)
    = float_max (minEpsilon this)
        (PrimFloat.mul (epsilon (Nat.iter 3 decayCuriosity this))
           (decayRate this)) ∧
  PrimFloat.leb (minEpsilon this) (epsilon (Nat.iter 4 decayCuriosity this))
    = true ∧
  PrimFloat.leb (epsilon (Nat.iter 4 decayCuriosity this))
                (epsilon (Nat.iter 3 decayCuriosity this)) = true.
Proof.
  intros this.
  destruct (decayCuriosity_floor this 3) as (H1 & H2 & H3 & _);
    [by vm_compute..|].
  split; [exact H1|]. split; [apply H2 | apply H3]; by vm_compute.
Defined.

(** The repository's own test of the floor: from epsilon 1, a thousand
    calls end on 0.01 exactly. *)
Lemma decayCuriosity_thousand :
  epsilon (Nat.iter 1000 decayCuriosity (new 0.1 0.9 1 empty_heap).1)
    = 0.01%float.
Proof. by vm_compute. Qed.

(** ** [update] *)

(** C8: when the key of [nextState] is absent and is not the key of
    [state], [update] leaves it in the table, bound to a row of four zeros
    of its own; when the key of [state] is absent as well, the table has
    grown by exactly these two keys. *)
Theorem update_adds_next_row this (state : Position) (action : Action)
    (reward : float) (nextState : Position) h (t : gmap string loc) :
  table_inv h (qTable this) →
  objects h !! qTable this = Some t →
  t !! getStateKey nextState = None →
  getStateKey nextState ≠ getStateKey state →
  let h' := update this state action reward nextState h in
  ∃ row nextRow t',
    objects h' !! qTable this = Some t' ∧
    t' !! getStateKey state = Some row ∧
    t' !! getStateKey nextState = Some nextRow ∧
    nextRow ≠ row ∧
    arrays h !! nextRow = None ∧
    arrays h' !! nextRow = Some zero_row ∧
    dom t' = {[ getStateKey state; getStateKey nextState ]} ∪ dom t ∧
    (t !! getStateKey state = None → size t' = S (S (size t))).
Proof.
  intros Hinv Ht Hnext Hne h'.
  destruct (getQValues_spec this state h t Ht) as (row & h1 & Hget1 & Hobj1 & Harr1).
  assert (objects h1 !! qTable this = Some (<[getStateKey state := row]> t)) as Ht1.
  { rewrite Hobj1. apply list_lookup_insert_eq. by eapply lookup_lt_Some. }
  destruct (getQValues_spec this nextState h1 _ Ht1)
    as (nextRow & h2 & Hget2 & Hobj2 & Harr2).
  destruct Harr2 as [[Hk _]|(_ & HnextRow & Harr2)].
  { rewrite lookup_insert_ne in Hk by done. congruence. }
  destruct (update_spec this state action reward nextState h Hinv)
    as (row' & nextRow' & h2' & oldQ & _ & Hupd & Hget2' & Hrow' & Hinv2 & _ & _ & Hrow & _).
  rewrite Hget1 in Hget2', Hrow'. simpl in Hget2', Hrow'. subst row'.
  rewrite Hget2 in Hget2'. injection Hget2' as <- <-.
  assert (row < length (arrays h1)) as Hlt.
  { apply lookup_lt_Some in Hrow. rewrite Harr2 in Hrow.
    rewrite length_app in Hrow. simpl in Hrow.
    destruct Harr1 as [[Hk ->]|(_ & -> & ->)].
    - destruct Hinv as (t0 & Ht0 & Hrows). rewrite Ht in Ht0. injection Ht0 as <-.
      destruct (Hrows _ _ Hk) as (qs & Hqs & _). by eapply lookup_lt_Some.
    - rewrite length_app. simpl. lia. }
  set (t' := <[getStateKey state := row]>
               (<[getStateKey nextState := nextRow]>
                  (<[getStateKey state := row]> t))).
  assert (objects h' !! qTable this = Some t') as Ht'.
  { unfold h'. rewrite Hupd. unfold object_set, array_set. simpl.
    rewrite list_lookup_alter_eq, Hobj2.
    rewrite list_lookup_insert_eq; [done|].
    rewrite Hobj1, length_insert. by eapply lookup_lt_Some. }
  exists row, nextRow, t'. split_and!; try done.
  - unfold t'. by rewrite lookup_insert_eq.
  - unfold t'. rewrite lookup_insert_ne by done. by rewrite lookup_insert_eq.
  - lia.
  - apply lookup_ge_None. rewrite HnextRow.
    destruct Harr1 as [[_ ->]|(_ & _ & ->)]; [done|]. rewrite length_app. lia.
  - unfold h'. rewrite Hupd.
    change (arrays (object_set ?a _ _ _)) with (arrays a).
    rewrite array_set_lookup, decide_False by lia.
    rewrite Harr2, HnextRow. by rewrite lookup_app_r, Nat.sub_diag.
  - unfold t'. rewrite !dom_insert_L. apply set_eq. intros k.
    rewrite !elem_of_union, !elem_of_singleton. tauto.
  - intros Hstate. unfold t'. rewrite insert_insert_ne by done.
    rewrite insert_insert_eq.
    rewrite !map_size_insert_None; [done|done|].
    by rewrite lookup_insert_ne.
Qed.

Lemma update_adds_next_row_witness :
  let this := (new 0.5%float 0.5%float 0.5%float empty_heap).1 in
  let h := (new 0.5%float 0.5%float 0.5%float empty_heap).2 in
  let h' := update this {| x := 0; y := 0 |} RIGHT 10%float {| x := 1; y := 0 |} h in
  ∃ row nextRow t',
    objects h' !! qTable this = Some t' ∧
    t' !! "0,0" = Some row ∧ t' !! "1,0" = Some nextRow ∧ nextRow ≠ row ∧
    arrays h' !! nextRow = Some [0; 0; 0; 0]%float ∧
    size t' = 2.
Proof.
  intros this h h'.
  destruct (update_adds_next_row this {| x := 0; y := 0 |} RIGHT 10%float
              {| x := 1; y := 0 |} h ∅ (table_inv_new _ _ _ _))
    as (row & nextRow & t' & Ht' & Hs & Hn & Hne & _ & Hzero & _ & Hsize);
    [by vm_compute..|].
  exists row, nextRow, t'. split_and!; try done. by apply Hsize.
Defined.

(** ** The invariant of the table *)

Lemma table_inv_getQValues this pos h :
  table_inv h (qTable this) → table_inv (getQValues this pos h).2 (qTable this).
Proof.
  intros Hinv.
  destruct (getQValues_row this pos h Hinv) as (row & h1 & -> & _ & _ & _ & ? & _).
  done.
Qed.

Lemma table_inv_getMaxQ this pos h :
  table_inv h (qTable this) → table_inv (getMaxQ this pos h).2 (qTable this).
Proof. rewrite getMaxQ_eq. apply table_inv_getQValues. Qed.

Lemma table_inv_chooseAction this (random1 random2 : float) pos h :
  table_inv h (qTable this) →
  table_inv (chooseAction this random1 random2 pos h).2 (qTable this).
Proof.
  intros Hinv. unfold chooseAction. destruct (PrimFloat.ltb _ _); [done|].
  pose proof (table_inv_getQValues this pos h Hinv).
  by destruct (getQValues this pos h).
Qed.

Lemma table_inv_update this state action (reward : float) nextState h :
  table_inv h (qTable this) →
  table_inv (update this state action reward nextState h) (qTable this).
Proof.
  intros Hinv.
  destruct (update_spec this state action reward nextState h Hinv)
    as (row & nextRow & h2 & oldQ & HoldQ & -> & _ & _ & Hinv2 & _ & _ & Hrow & _).
  pose proof (action_index_lt action).
  apply table_inv_object_set; [by apply table_inv_array_set|].
  rewrite array_set_lookup, decide_True, Hrow by done. simpl.
  eexists. split; [done|].
  rewrite array_store_in_range by (by eapply lookup_lt_Some).
  rewrite length_insert. apply lookup_lt_Some in HoldQ.
  destruct (getQValues_row this state h Hinv) as (? & ? & _ & _ & _ & ? & _).
  done.
Qed.

Lemma table_inv_resetQTable this h :
  table_inv (resetQTable this h).2 (qTable (resetQTable this h).1).
Proof.
  apply table_inv_empty. unfold resetQTable, object_new. simpl.
  by rewrite lookup_app_r, Nat.sub_diag.
Qed.

Lemma table_inv_setQTable this (newQTable : loc) h :
  table_inv h newQTable →
  table_inv (setQTable this newQTable h).2 (qTable (setQTable this newQTable h).1).
Proof.
  intros (t & Ht & Hrows). rewrite (setQTable_eq _ _ _ _ Ht).
  exists t. split; [|done]. simpl.
  by rewrite lookup_app_r, Nat.sub_diag.
Qed.

(** C7: every key present in the table holds a row of exactly four
    numbers.  This is so of the empty table a new agent starts from, it
    stays so under every method, and it is so after [setQTable] when it is
    so of the table supplied.  A key is absent until [getQValues] first
    reads it; it then gets a row of four zeros of its own, and the maximum
    [getMaxQ] returns for it is the maximum of four zeros. *)
Theorem qtable_invariant this h :
  table_inv h (qTable this) →
  (∀ alpha0 gamma0 epsilon0 h0,
     table_inv (new alpha0 gamma0 epsilon0 h0).2
       (qTable (new alpha0 gamma0 epsilon0 h0).1) ∧
     contents (new alpha0 gamma0 epsilon0 h0).2
       (qTable (new alpha0 gamma0 epsilon0 h0).1) = Some ∅) ∧
  (∀ pos, table_inv (getQValues this pos h).2 (qTable this)) ∧
  (∀ pos, table_inv (getMaxQ this pos h).2 (qTable this)) ∧
  (∀ random1 random2 pos,
     table_inv (chooseAction this random1 random2 pos h).2 (qTable this)) ∧
  (∀ state action reward nextState,
     table_inv (update this state action reward nextState h) (qTable this)) ∧
  table_inv h (qTable (decayCuriosity this)) ∧
  table_inv (resetQTable this h).2 (qTable (resetQTable this h).1) ∧
  (∀ alpha0 gamma0 epsilon0,
     table_inv h (qTable (setParameters this alpha0 gamma0 epsilon0))) ∧
  (∀ newQTable,
     table_inv h newQTable →
     table_inv (setQTable this newQTable h).2
       (qTable (setQTable this newQTable h).1)) ∧
  (∀ pos t,
     objects h !! qTable this = Some t →
     match t !! getStateKey pos with
     | Some row => getQValues this pos h = (row, h)
     | None =>
       let row := (getQValues this pos h).1 in
       let h' := (getQValues this pos h).2 in
       arrays h !! row = None ∧
       arrays h' = arrays h ++ [zero_row] ∧
       arrays h' !! row = Some zero_row ∧
       objects h' !! qTable this = Some (<[getStateKey pos := row]> t) ∧
       (getMaxQ this pos h).1 = Math_max zero_row
     end).
Proof.
  intros Hinv. split_and!.
  - intros. split; [apply table_inv_new | apply new_contents].
  - intros. by apply table_inv_getQValues.
  - intros. by apply table_inv_getMaxQ.
  - intros. by apply table_inv_chooseAction.
  - intros. by apply table_inv_update.
  - done.
  - apply table_inv_resetQTable.
  - done.
  - intros. by apply table_inv_setQTable.
  - intros pos t Ht.
    destruct (getQValues_spec this pos h t Ht) as (row & h1 & Hget & Hobj & Harr).
    destruct (t !! getStateKey pos) as [row0|] eqn:Hk.
    + destruct Harr as [[[= ->] Harr]|(? & _)]; [|done].
      rewrite Hget. f_equal. destruct h, h1. simpl in *. subst.
      by rewrite insert_id, list_insert_id.
    + destruct Harr as [[? _]|(_ & Hrow & Harr)]; [done|].
      rewrite getMaxQ_eq, Hget. simpl.
      assert (arrays h1 !! row = Some zero_row) as Hzero.
      { by rewrite Harr, Hrow, lookup_app_r, Nat.sub_diag. }
      split_and!; try done.
      * apply lookup_ge_None. lia.
      * rewrite Hobj. apply list_lookup_insert_eq. by eapply lookup_lt_Some.
      * unfold array_elements. by rewrite Hzero.
Qed.

Lemma qtable_invariant_witness :
  let this := (new 0.5%float 0.5%float 0.5%float empty_heap).1 in
  let h := (new 0.5%float 0.5%float 0.5%float empty_heap).2 in
  table_inv
    (update this {| x := 0; y := 0 |} RIGHT 10%float {| x := 1; y := 0 |} h)
    (qTable this) ∧
  (getMaxQ this {| x := 3; y := 4 |} h).1 = 0%float.
Proof.
  intros this h.
  destruct (qtable_invariant this h (table_inv_new _ _ _ _))
    as (_ & _ & _ & _ & Hupdate & _ & _ & _ & _ & Hlazy).
  split; [apply Hupdate|].
  specialize (Hlazy {| x := 3; y := 4 |} ∅ eq_refl). simpl in Hlazy.
  destruct Hlazy as (_ & _ & _ & _ & ->). by vm_compute.
Defined.

(** ** The tests of the repository, on doubles

    The agent of the tests is [new QLearningAgent(0.1, 0.9, 0.1)]. *)

Lemma test_update_bellman :
  let '(this, h) := new 0.1 0.9 0.1 empty_heap in
  row_of (update this {| x := 1; y := 1 |} RIGHT 10 {| x := 2; y := 1 |} h)
    this {| x := 1; y := 1 |}
    = Some [0; 1; 0; 0]%float.
Proof. by vm_compute. Qed.

Lemma test_update_alpha :
  let '(this, h) := new 0.1 0.9 0.1 empty_heap in
  let h := assign_row this "0,0" [5; 0; 0; 0]%float h in
  row_of (update this {| x := 0; y := 0 |} UP 10 {| x := 0; y := 1 |} h)
    this {| x := 0; y := 0 |}
    = Some [5.5; 0; 0; 0]%float.
Proof. by vm_compute. Qed.

Lemma test_update_gamma :
  let '(this, h) := new 0.1 0.9 0.1 empty_heap in
  let h := assign_row this "1,2" [0; 0; 20; 0]%float h in
  row_of (update this {| x := 1; y := 1 |} DOWN 0 {| x := 1; y := 2 |} h)
    this {| x := 1; y := 1 |}
    = Some [0; 0; 1.8; 0]%float.
Proof. by vm_compute. Qed.

Lemma test_chooseAction_exploits :
  let '(this, h) := new 0.1 0.9 0.1 empty_heap in
  let h := assign_row this "1,1" [0.1; 0.5; 0.3; 0.2]%float h in
  (chooseAction (set_epsilon 0 this) 0.7 0.99 {| x := 1; y := 1 |} h).1
    = Some RIGHT.
Proof. by vm_compute. Qed.

(** ** Picking at random *)

Lemma pick_elem {A : Type} (xs : list A) (r : float) (a : A) :
  pick xs r = Some a → a ∈ xs.
Proof.
  unfold pick. destruct (float_floor _) as [i|]; simpl; [|done].
  intros [_ Hi]%MazeGeneratorSpec.index_Some. by eapply list_elem_of_lookup_2.
Qed.

Lemma pick_nil {A : Type} (r : float) : pick (@nil A) r = None.
Proof.
  unfold pick. destruct (float_floor _) as [i|]; simpl; [|done].
  unfold index. by destruct (i <? 0)%Z.
Qed.

(** With a number of [0, 1), the index falls on the array. *)
Lemma pick_Some {A : Type} (xs : list A) (r : float) :
  1 ≤ length xs ≤ 4 →
  PrimFloat.leb 0 r = true → PrimFloat.ltb r 1 = true →
  ∃ i a,
    float_floor (r * float_of_Z (Z.of_nat (length xs))) = Some (Z.of_nat i) ∧
    xs !! i = Some a ∧ pick xs r = Some a.
Proof.
  intros Hlen H0 H1.
  assert (1 ≤ Z.of_nat (length xs) ≤ 4)%Z as Hn by lia.
  destruct (mul_below r (Z.of_nat (length xs)) Hn H0 H1) as [Hlo Hhi].
  destruct (float_floor_below _ _ Hn Hlo Hhi) as (i & Hi & Hrange).
  destruct (lookup_lt_is_Some_2 xs (Z.to_nat i)) as [a Ha]; [lia|].
  exists (Z.to_nat i), a. rewrite Z2Nat.id by lia. split; [done|].
  split; [done|]. unfold pick. rewrite Hi. simpl.
  apply MazeGeneratorSpec.index_Some. split; [lia | done].
Qed.

(** ** Comparing with NaN *)

Lemma is_nan_true (a : float) :
  PrimFloat.is_nan a = true → Prim2SF a = S754_nan.
Proof.
  intros H. destruct (Prim2SF a) eqn:E; [| |done|];
    assert (PrimFloat.is_nan a = false) as Hf
      by (apply is_nan_false; rewrite E; discriminate);
    congruence.
Qed.

Lemma eqb_nan_r (q m : float) :
  PrimFloat.is_nan m = true → PrimFloat.eqb q m = false.
Proof.
  intros Hm%is_nan_true. rewrite FloatAxioms.eqb_spec, Hm. unfold SFeqb.
  by destruct (Prim2SF q).
Qed.

(** ** Rows that no two keys share *)

Lemma unshared_getQValues this pos h :
  table_inv h (qTable this) → unshared h (qTable this) →
  unshared (getQValues this pos h).2 (qTable this).
Proof.
  intros (t & Ht & Hrows) Hun.
  destruct (getQValues_spec this pos h t Ht) as (row & h1 & Hget & Hobj & Harr).
  rewrite Hget. simpl. intros t1 k1 k2 r Ht1.
  rewrite Hobj, list_lookup_insert_eq in Ht1 by (by eapply lookup_lt_Some).
  injection Ht1 as <-.
  destruct Harr as [[Hk _]|(Hk & -> & _)].
  - rewrite insert_id by done. by apply Hun.
  - assert (∀ k, t !! k ≠ Some (length (arrays h))) as Hfresh.
    { intros k Hkr. destruct (Hrows _ _ Hkr) as (qs & Hqs%lookup_lt_Some & _). lia. }
    destruct (decide (k1 = getStateKey pos)) as [->|Hk1];
      destruct (decide (k2 = getStateKey pos)) as [->|Hk2]; [done|..].
    + rewrite lookup_insert_eq, lookup_insert_ne by done.
      intros [= <-] Hk2'. by destruct (Hfresh k2).
    + rewrite lookup_insert_eq, lookup_insert_ne by done.
      intros Hk1' [= <-]. by destruct (Hfresh k1).
    + rewrite !lookup_insert_ne by done. by apply Hun.
Qed.

Lemma unshared_object_set_same h table k row :
  object_get h table k = Some row →
  unshared h table → unshared (object_set h table k row) table.
Proof.
  unfold object_get, unshared, object_set. simpl.
  destruct (objects h !! table) as [t|] eqn:Ht; [|done]. simpl.
  intros Hk Hun t1 k1 k2 r. rewrite list_lookup_alter_eq, Ht. simpl.
  intros [= <-]. rewrite insert_id by done. by apply Hun.
Qed.

Lemma unshared_array_set h table row i v :
  unshared h table → unshared (array_set h row i v) table.
Proof. done. Qed.

Lemma unshared_update this state action (reward : float) nextState h :
  table_inv h (qTable this) → unshared h (qTable this) →
  unshared (update this state action reward nextState h) (qTable this).
Proof.
  intros Hinv Hun.
  destruct (update_spec this state action reward nextState h Hinv)
    as (row & nextRow & h2 & oldQ & _ & -> & Hh2 & _ & _ & Hrow & _).
  apply unshared_object_set_same; [done|]. apply unshared_array_set.
  pose proof (unshared_getQValues this state h Hinv Hun) as Hun1.
  pose proof (table_inv_getQValues this state h Hinv) as Hinv1.
  pose proof (unshared_getQValues this nextState _ Hinv1 Hun1) as Hun2.
  by rewrite Hh2 in Hun2.
Qed.

Lemma unshared_chooseAction this (random1 random2 : float) pos h :
  table_inv h (qTable this) → unshared h (qTable this) →
  unshared (chooseAction this random1 random2 pos h).2 (qTable this).
Proof.
  intros Hinv Hun. unfold chooseAction. destruct (PrimFloat.ltb _ _); [done|].
  pose proof (unshared_getQValues this pos h Hinv Hun).
  by destruct (getQValues this pos h).
Qed.

(** ** [update] and the other rows *)

Lemma array_elements_set_ne h row i v r :
  r ≠ row → arrays (array_set h row i v) !! r = arrays h !! r.
Proof. intros Hne. by rewrite array_set_lookup, decide_False. Qed.

Lemma update_other_rows this state action (reward : float) nextState h pos :
  table_inv h (qTable this) → unshared h (qTable this) →
  pos ≠ state →
  lazy_row (update this state action reward nextState h) this pos
    = lazy_row h this pos.
Proof.
  intros Hinv Hun Hne.
  assert (getStateKey pos ≠ getStateKey state) as Hkey.
  { intros Hk. apply Hne. by apply key_of_position_inj. }
  pose proof (unshared_getQValues this state h Hinv Hun) as Hun1.
  pose proof (table_inv_getQValues this state h Hinv) as Hinv1.
  pose proof (unshared_getQValues this nextState _ Hinv1 Hun1) as Hun2.
  destruct (getQValues_row this state h Hinv)
    as (row0 & h1 & Hget1 & _ & _ & _ & _ & _ & _ & _ & Hlazy1).
  rewrite Hget1 in Hinv1, Hun1, Hun2. simpl in Hinv1, Hun1, Hun2.
  destruct (getQValues_row this nextState h1 Hinv1)
    as (row1 & h2' & Hget2 & _ & _ & _ & _ & _ & _ & _ & Hlazy2).
  destruct (update_spec this state action reward nextState h Hinv)
    as (row & nextRow & h2 & oldQ & _ & -> & Hh2 & _ & Hinv2 & Hrow & _).
  rewrite Hget1 in Hh2. simpl in Hh2. rewrite Hget2 in Hh2.
  injection Hh2 as -> ->. rewrite Hget2 in Hun2. simpl in Hun2.
  transitivity (lazy_row h2 this pos); [|by rewrite Hlazy2, Hlazy1].
  pose proof Hinv2 as (t & Ht & Hrows).
  unfold lazy_row, row_of. f_equal.
  rewrite object_set_get by (simpl; eauto).
  rewrite decide_False by (by intros [_ ?]).
  unfold object_get in *. simpl. rewrite Ht in *. simpl in *.
  destruct (t !! getStateKey pos) as [r|] eqn:Hr; simpl; [|done].
  apply array_elements_set_ne. intros ->.
  apply Hkey. by eapply Hun2.
Qed.

(** ** Keys and rows *)

Lemma unshared_empty h o : objects h !! o = Some ∅ → unshared h o.
Proof.
  intros Ho t k1 k2 row Ht. rewrite Ho in Ht. injection Ht as <-.
  by rewrite lookup_empty.
Qed.

Lemma unshared_new alpha0 gamma0 epsilon0 h :
  unshared (new alpha0 gamma0 epsilon0 h).2
    (qTable (new alpha0 gamma0 epsilon0 h).1).
Proof. apply unshared_empty, new_table. Qed.

Lemma entry_elem (qs : list float) (a : Action) :
  length qs = 4 → entry qs a ∈ qs.
Proof.
  intros Hlen. unfold entry.
  destruct (lookup_lt_is_Some_2 qs (action_index a)) as [q Hq];
    [pose proof (action_index_lt a); lia|].
  rewrite Hq. simpl. by eapply list_elem_of_lookup_2.
Qed.

Lemma elem_entry (qs : list float) (q : float) :
  length qs = 4 → q ∈ qs → ∃ a, entry qs a = q.
Proof.
  intros Hlen (i & Hi)%list_elem_of_lookup_1. unfold entry.
  pose proof (lookup_lt_Some _ _ _ Hi) as Hlt.
  destruct i as [|[|[|[|i]]]]; [| | |  |lia].
  - exists UP. simpl. by rewrite Hi.
  - exists RIGHT. simpl. by rewrite Hi.
  - exists DOWN. simpl. by rewrite Hi.
  - exists LEFT. simpl. by rewrite Hi.
Qed.

(** X8: positions whose coordinates are safe integers have the same key
    only if they are the same position, so no two cells of a grid share a
    row of the table. *)
Theorem getStateKey_injective (p q : Position) :
  safe_integer (x p) → safe_integer (y p) →
  safe_integer (x q) → safe_integer (y q) →
  getStateKey p = getStateKey q ↔ p = q.
Proof.
  intros _ _ _ _.
  split; [|by intros ->]. unfold getStateKey. apply key_of_position_inj.
Qed.

Lemma getStateKey_injective_witness :
  getStateKey {| x := 1; y := 12 |} ≠ getStateKey {| x := 11; y := 2 |}.
Proof.
  intros H.
  apply (getStateKey_injective {| x := 1; y := 12 |} {| x := 11; y := 2 |})
    in H; [discriminate H | unfold safe_integer; simpl; lia..].
Defined.

(** X9: [getQValues] hands out the array the table holds, not a copy.  It
    returns the row the table stands for, a second call returns the same
    array and changes nothing, and a write into the array is a write into
    the row of the table. *)
Theorem getQValues_shares_row this pos h :
  table_inv h (qTable this) →
  let row := (getQValues this pos h).1 in
  let h1 := (getQValues this pos h).2 in
  array_elements h1 row = lazy_row h this pos ∧
  getQValues this pos h1 = (row, h1) ∧
  ∀ i v, i < 4 →
    row_of (array_set h1 row i v) this pos
      = Some (<[i := v]> (lazy_row h this pos)).
Proof.
  intros Hinv.
  destruct (getQValues_row this pos h Hinv)
    as (row & h1 & Hget & Hobj & Hrow & Hlen & _).
  rewrite Hget. simpl. split_and!.
  - unfold array_elements. by rewrite Hrow.
  - unfold getQValues. by rewrite Hobj.
  - intros i v Hi. unfold row_of.
    change (object_get (array_set h1 row i v) (qTable this) (getStateKey pos))
      with (object_get h1 (qTable this) (getStateKey pos)).
    rewrite Hobj. cbn [mbind option_bind].
    rewrite array_set_lookup, decide_True, Hrow by done. simpl.
    by rewrite array_store_in_range by lia.
Qed.

Lemma getQValues_shares_row_witness :
  let this := (new 0.5%float 0.5%float 0.5%float empty_heap).1 in
  let h := (new 0.5%float 0.5%float 0.5%float empty_heap).2 in
  let pos := {| x := 2; y := 3 |} in
  let row := (getQValues this pos h).1 in
  let h1 := (getQValues this pos h).2 in
  getQValues this pos h1 = (row, h1) ∧
  row_of (array_set h1 row 1 7%float) this pos = Some [0; 7; 0; 0]%float.
Proof.
  intros this h pos row h1.
  destruct (getQValues_shares_row this pos h (table_inv_new _ _ _ _))
    as (_ & Hagain & Hwrite).
  split; [exact Hagain|]. apply (Hwrite 1 7%float). lia.
Defined.

(** X10: [getMaxQ] is NaN exactly when an entry of the row is NaN;
    otherwise it is an entry of the row, and no entry is above it. *)
Theorem getMaxQ_maximum this pos h :
  table_inv h (qTable this) →
  let row := lazy_row h this pos in
  let m := (getMaxQ this pos h).1 in
  PrimFloat.is_nan m = existsb PrimFloat.is_nan row ∧
  (numbers row →
     (∃ a, entry row a = m) ∧
     ∀ a, PrimFloat.leb (entry row a) m = true).
Proof.
  intros Hinv row m.
  destruct (getQValues_row this pos h Hinv)
    as (r & h1 & Hget & _ & Hrow & Hlen & _).
  assert (m = Math_max row) as ->.
  { unfold m. rewrite getMaxQ_eq, Hget. simpl. unfold array_elements.
    by rewrite Hrow. }
  split; [apply Math_max_nan|]. intros Hnum.
  destruct (Math_max_spec row) as (Hmem & _ & Hall); [|done|].
  { intros Hnil. fold row in Hlen. by rewrite Hnil in Hlen. }
  split; [by apply elem_entry|].
  intros a. rewrite Forall_forall in Hall. by apply Hall, entry_elem.
Qed.

Lemma getMaxQ_maximum_witness :
  let this := (new 0.5%float 0.5%float 0.5%float empty_heap).1 in
  let h := (new 0.5%float 0.5%float 0.5%float empty_heap).2 in
  let h := assign_row this "1,1" [0.1; 0.5; 0.3; 0.2]%float h in
  let pos := {| x := 1; y := 1 |} in
  PrimFloat.is_nan (getMaxQ this pos h).1 = false ∧
  PrimFloat.leb (entry (lazy_row h this pos) DOWN) (getMaxQ this pos h).1 = true.
Proof.
  intros this h0 h pos.
  assert (table_inv h (qTable this)) as Hinv.
  { exists {[ "1,1" := 0 ]}. split; [reflexivity|]. intros k row.
    intros [_ <-]%lookup_singleton_Some. by eexists. }
  destruct (getMaxQ_maximum this pos h Hinv) as [Hnan Hmax].
  split; [exact Hnan|]. apply Hmax. by repeat constructor.
Defined.

(** ** [chooseAction] *)

(** X11: when the first random number is below epsilon, [chooseAction]
    explores: with a second random number of [0, 1) it returns the action
    whose number is [Math.floor(random * 4)], whatever the table holds,
    and it does not touch the table. *)
Theorem chooseAction_explores this (random1 random2 : float) pos h :
  PrimFloat.ltb random1 (epsilon this) = true →
  PrimFloat.leb 0 random2 = true → PrimFloat.ltb random2 1 = true →
  ∃ i a,
    float_floor (random2 * 4) = Some (Z.of_nat i) ∧
    actions !! i = Some a ∧ action_index a = i ∧
    chooseAction this random1 random2 pos h = (Some a, h).
Proof.
  intros Hlt H0 H1. unfold chooseAction. rewrite Hlt.
  destruct (pick_Some actions random2) as (i & a & Hfloor & Ha & Hpick);
    [simpl; lia|done..|].
  exists i, a. split; [exact Hfloor|]. split; [done|].
  split; [|by rewrite Hpick].
  unfold actions in Ha.
  destruct i as [|[|[|[|i]]]]; simpl in Ha; try done; by injection Ha as <-.
Qed.

Lemma chooseAction_explores_witness :
  ∃ i a,
    float_floor (0.7 * 4) = Some (Z.of_nat i) ∧
    actions !! i = Some a ∧ action_index a = i ∧
    chooseAction (new 0.1 0.9 0.5 empty_heap).1 0.25 0.7
      {| x := 0; y := 0 |} (new 0.1 0.9 0.5 empty_heap).2
    = (Some a, (new 0.1 0.9 0.5 empty_heap).2).
Proof.
  apply (chooseAction_explores (new 0.1 0.9 0.5 empty_heap).1 0.25 0.7);
    reflexivity.
Defined.

Lemma best_actions (qs : list float) (m : float) (a : Action) :
  a ∈ List.filter (λ a, match qs !! action_index a with
                        | Some q => PrimFloat.eqb q m
                        | None => false
                        end) actions ↔
  ∃ q, qs !! action_index a = Some q ∧ PrimFloat.eqb q m = true.
Proof.
  rewrite list_elem_of_In, filter_In, <- list_elem_of_In. split.
  - intros [_ H]. destruct (qs !! action_index a) as [q|]; [eauto|done].
  - intros (q & -> & Hq). split; [|done].
    unfold actions. rewrite !elem_of_cons. destruct a; auto.
Qed.

Lemma chooseAction_exploit this (random1 random2 : float) pos h :
  table_inv h (qTable this) →
  PrimFloat.ltb random1 (epsilon this) = false →
  chooseAction this random1 random2 pos h =
    (pick (List.filter
             (λ a, match lazy_row h this pos !! action_index a with
                   | Some q => PrimFloat.eqb q (Math_max (lazy_row h this pos))
                   | None => false
                   end) actions) random2,
     (getQValues this pos h).2).
Proof.
  intros Hinv Hlt.
  destruct (getQValues_row this pos h Hinv)
    as (r & h1 & Hget & _ & Hrow & _).
  unfold chooseAction. rewrite Hlt, Hget. unfold array_elements.
  by rewrite Hrow.
Qed.

(** X12: when the first random number is not below epsilon, and no entry
    of the row of [pos] is NaN, [chooseAction] exploits: with a second
    random number of [0, 1) it returns an action whose entry equals the
    maximum of the row, so that no action has a larger entry; the row is
    created if the table did not hold it. *)
Theorem chooseAction_greedy this (random1 random2 : float) pos h :
  table_inv h (qTable this) →
  PrimFloat.ltb random1 (epsilon this) = false →
  numbers (lazy_row h this pos) →
  PrimFloat.leb 0 random2 = true → PrimFloat.ltb random2 1 = true →
  let row := lazy_row h this pos in
  ∃ a,
    chooseAction this random1 random2 pos h
      = (Some a, (getQValues this pos h).2) ∧
    PrimFloat.eqb (entry row a) (Math_max row) = true ∧
    ∀ b, PrimFloat.leb (entry row b) (entry row a) = true.
Proof.
  intros Hinv Hlt Hnum H0 H1 row.
  destruct (getQValues_row this pos h Hinv)
    as (r & h1 & Hget & _ & Hrow & Hlen & _).
  fold row in Hrow, Hlen.
  destruct (Math_max_spec row) as (Hmem & Hmnan & Hall); [|done|].
  { intros Hnil. by rewrite Hnil in Hlen. }
  rewrite chooseAction_exploit by done. fold row.
  match goal with |- context [pick ?b _] => set (best := b) end.
  assert (1 ≤ length best ≤ 4) as Hbest.
  { split; [|apply (List.filter_length_le _ actions)].
    destruct (elem_entry row _ Hlen Hmem) as [a Ha].
    assert (a ∈ best) as Hin.
    { apply best_actions. unfold entry in Ha.
      destruct (row !! action_index a) as [q|] eqn:Hq; simpl in Ha.
      - exists q. split; [done|]. rewrite Ha. by apply eqb_refl.
      - rewrite <- Ha in Hmnan. done. }
    destruct best; [by apply elem_of_nil in Hin | simpl; lia]. }
  destruct (pick_Some best random2 Hbest H0 H1) as (i & a & _ & Ha & Hpick).
  exists a. rewrite Hpick, Hget. split; [done|].
  assert (PrimFloat.eqb (entry row a) (Math_max row) = true) as Heq.
  { apply list_elem_of_lookup_2, best_actions in Ha as (q & Hq & Heq).
    unfold entry. by rewrite Hq. }
  split; [done|]. intros b.
  eapply leb_trans; [|apply eqb_leb; by rewrite eqb_sym].
  rewrite Forall_forall in Hall. by apply Hall, entry_elem.
Qed.

Lemma chooseAction_greedy_witness :
  let this := (new 0.1 0.9 0.1 empty_heap).1 in
  let h := (new 0.1 0.9 0.1 empty_heap).2 in
  let h := assign_row this "1,1" [0.1; 0.5; 0.3; 0.2]%float h in
  let row := lazy_row h this {| x := 1; y := 1 |} in
  ∃ a,
    chooseAction this 0.7 0.99 {| x := 1; y := 1 |} h
      = (Some a, (getQValues this {| x := 1; y := 1 |} h).2) ∧
    PrimFloat.eqb (entry row a) (Math_max row) = true ∧
    ∀ b, PrimFloat.leb (entry row b) (entry row a) = true.
Proof.
  intros this h0 h row.
  apply (chooseAction_greedy this 0.7 0.99 {| x := 1; y := 1 |} h);
    try reflexivity.
  - exists {[ "1,1" := 0 ]}. split; [reflexivity|]. intros k r.
    intros [_ <-]%lookup_singleton_Some. by eexists.
  - by repeat constructor.
Defined.

(** X13: when the first random number is not below epsilon and an entry
    of the row of [pos] is NaN, [chooseAction] returns [undefined]: the
    maximum is NaN, which no entry equals, and no action is left to pick
    from. *)
Theorem chooseAction_undefined this (random1 random2 : float) pos h :
  table_inv h (qTable this) →
  PrimFloat.ltb random1 (epsilon this) = false →
  existsb PrimFloat.is_nan (lazy_row h this pos) = true →
  chooseAction this random1 random2 pos h
    = (None, (getQValues this pos h).2).
Proof.
  intros Hinv Hlt Hnan.
  destruct (getQValues_row this pos h Hinv)
    as (r & h1 & Hget & _ & Hrow & Hlen & _).
  rewrite chooseAction_exploit by done.
  rewrite <- Math_max_nan in Hnan.
  assert (List.filter (λ a, match lazy_row h this pos !! action_index a with
                            | Some q => PrimFloat.eqb q (Math_max (lazy_row h this pos))
                            | None => false
                            end) actions = []) as ->.
  { unfold actions. cbn [List.filter action_index].
    repeat (destruct (lazy_row h this pos !! _);
            rewrite ?eqb_nan_r by done); done. }
  by rewrite pick_nil.
Qed.

Lemma chooseAction_undefined_witness :
  let this := (new 0.1 0.9 0.1 empty_heap).1 in
  let h := (new 0.1 0.9 0.1 empty_heap).2 in
  let h := assign_row this "1,1" [0; PrimFloat.nan; 0; 0]%float h in
  (chooseAction this 0.7 0.5 {| x := 1; y := 1 |} h).1 = None.
Proof.
  intros this h0 h.
  rewrite (chooseAction_undefined this 0.7 0.5 {| x := 1; y := 1 |} h);
    try reflexivity.
  exists {[ "1,1" := 0 ]}. split; [reflexivity|]. intros k r.
  intros [_ <-]%lookup_singleton_Some. by eexists.
Defined.

(** ** [update] and the other rows *)

(** X14: [update] changes the row of [state] and no other: in a table
    whose rows have four entries and in which no two keys hold the same
    array, the row of every other position reads after the call as it
    read before, and the table is again such a table. *)
Theorem update_leaves_other_rows this (state : Position) (action : Action)
    (reward : float) (nextState : Position) h :
  table_inv h (qTable this) → unshared h (qTable this) →
  let h' := update this state action reward nextState h in
  (∀ pos, pos ≠ state → lazy_row h' this pos = lazy_row h this pos) ∧
  table_inv h' (qTable this) ∧ unshared h' (qTable this).
Proof.
  intros Hinv Hun h'. split_and!.
  - intros pos Hne. by apply update_other_rows.
  - by apply table_inv_update.
  - by apply unshared_update.
Qed.

Lemma update_leaves_other_rows_witness :
  let this := (new 0.5%float 0.5%float 0.5%float empty_heap).1 in
  let h := (new 0.5%float 0.5%float 0.5%float empty_heap).2 in
  let h' := update this {| x := 0; y := 0 |} RIGHT 10%float {| x := 1; y := 0 |} h in
  lazy_row h' this {| x := 1; y := 0 |} = lazy_row h this {| x := 1; y := 0 |}.
Proof.
  intros this h h'.
  destruct (update_leaves_other_rows this {| x := 0; y := 0 |} RIGHT 10%float
              {| x := 1; y := 0 |} h (table_inv_new _ _ _ _) (unshared_new _ _ _ _))
    as (Hrows & _ & _).
  by apply Hrows.
Defined.

(** Where two keys hold the same array, [update] on one is seen under the
    other. *)
Lemma update_shared_rows :
  let '(this, h) := new 0.5%float 0.5%float 0.5%float empty_heap in
  let '(row, h) := array_new [0; 0; 0; 0]%float h in
  let h := object_set h (qTable this) "0,0" row in
  let h := object_set h (qTable this) "1,0" row in
  let h' := update this {| x := 0; y := 0 |} RIGHT 10%float {| x := 1; y := 0 |} h in
  lazy_row h this {| x := 1; y := 0 |} = [0; 0; 0; 0]%float ∧
  lazy_row h' this {| x := 1; y := 0 |} = [0; 5; 0; 0]%float.
Proof. by vm_compute. Qed.

(** ** [resetQTable] *)

Lemma decay_iter_fields this (n : nat) :
  qTable (Nat.iter n decayCuriosity this) = qTable this ∧
  alpha (Nat.iter n decayCuriosity this) = alpha this ∧
  gamma (Nat.iter n decayCuriosity this) = gamma this ∧
  initialEpsilon (Nat.iter n decayCuriosity this) = initialEpsilon this.
Proof. induction n as [|n IH]; [done|]. simpl. exact IH. Qed.

(** X15: [resetQTable] undoes any number of calls of [decayCuriosity]:
    epsilon is again the initial epsilon, which no decay changes, as are
    alpha and gamma; the agent works on a new, empty table, in which every
    row reads as four zeros, and the table it had and its rows stay in
    the heap as they were. *)
Theorem resetQTable_restores this h (n : nat) :
  let decayed := Nat.iter n decayCuriosity this in
  let this' := (resetQTable decayed h).1 in
  let h' := (resetQTable decayed h).2 in
  epsilon this' = initialEpsilon this ∧
  initialEpsilon this' = initialEpsilon this ∧
  alpha this' = alpha this ∧ gamma this' = gamma this ∧
  contents h' (qTable this') = Some ∅ ∧
  (∀ pos, lazy_row h' this' pos = zero_row) ∧
  objects h' = objects h ++ [∅] ∧ arrays h' = arrays h.
Proof.
  intros decayed this' h'.
  destruct (decay_iter_fields this n) as (_ & Ha & Hg & He).
  assert (objects h' !! qTable this' = Some ∅) as Ht.
  { unfold h', this', resetQTable, object_new. simpl.
    by rewrite lookup_app_r, Nat.sub_diag. }
  split_and!; try done.
  - unfold contents. rewrite Ht. simpl. by rewrite fmap_empty.
  - intros pos. unfold lazy_row, row_of, object_get. by rewrite Ht.
Qed.

(** ** The rule of [update] *)

(** C3: with [oldQ] the entry of the row of [state] at [action] and
    [maxQ(nextState)] the maximum of the row of [nextState], both as the
    table stood for them before the call (four zeros for an absent key),
    [update] leaves for [state] a row that holds
    [oldQ + alpha * (reward + gamma * maxQ(nextState) - oldQ)] at [action]
    and, everywhere else, what it held.  The maximum is NaN exactly when
    an entry of the row of [nextState] is NaN; otherwise it is an entry of
    that row, and no entry of the row is above it. *)
Theorem update_bellman this (state : Position) (action : Action)
    (reward : float) (nextState : Position) h :
  table_inv h (qTable this) →
  ∃ oldQ maxNextQ,
    lazy_row h this state !! action_index action = Some oldQ ∧
    PrimFloat.is_nan maxNextQ
      = existsb PrimFloat.is_nan (lazy_row h this nextState) ∧
    (numbers (lazy_row h this nextState) →
       (∃ a, entry (lazy_row h this nextState) a = maxNextQ) ∧
       ∀ a, PrimFloat.leb (entry (lazy_row h this nextState) a) maxNextQ
              = true) ∧
    maxNextQ = (getMaxQ this nextState h).1 ∧
    let newQ :=
      (oldQ + alpha this * (reward + gamma this * maxNextQ - oldQ))%float in
    let h' := update this state action reward nextState h in
    row_of h' this state
      = Some (<[action_index action := newQ]> (lazy_row h this state)) ∧
    ∀ other : Action,
      other ≠ action →
      row_of h' this state ≫= lookup (action_index other)
        = lazy_row h this state !! action_index other.
Proof.
  intros Hinv.
  destruct (update_spec this state action reward nextState h Hinv)
    as (row & nextRow & h2 & oldQ & HoldQ & Hupd & _ & _ & Hinv2 & Hobj & _ & Hrow & _).
  destruct (getQValues_row this nextState h Hinv)
    as (r & h1 & Hget & _ & Hnext & Hlen & _).
  exists oldQ, (Math_max (lazy_row h this nextState)).
  split; [done|]. split; [apply Math_max_nan|]. split.
  { intros Hnum.
    destruct (Math_max_spec (lazy_row h this nextState)) as (Hmem & _ & Hall);
      [|done|].
    { intros Hnil. by rewrite Hnil in Hlen. }
    split; [by apply elem_entry|].
    intros a. rewrite Forall_forall in Hall. by apply Hall, entry_elem. }
  split.
  { rewrite getMaxQ_eq, Hget. simpl. unfold array_elements. by rewrite Hnext. }
  intros newQ h'.
  assert (row_of h' this state
            = Some (<[action_index action := newQ]> (lazy_row h this state))) as Hnew.
  { unfold h'. rewrite Hupd. unfold row_of.
    destruct Hinv2 as (t2 & Ht2 & _).
    rewrite object_set_get by (by simpl; eexists).
    rewrite decide_True by done. simpl.
    rewrite list_lookup_alter_eq, Hrow. simpl. f_equal.
    apply array_store_in_range. by eapply lookup_lt_Some. }
  split; [done|]. intros other Hother. rewrite Hnew. simpl.
  apply list_lookup_insert_ne. by destruct action, other.
Qed.

Lemma update_bellman_witness :
  let this := (new 0.1%float 0.9%float 0.1%float empty_heap).1 in
  let h0 := (new 0.1%float 0.9%float 0.1%float empty_heap).2 in
  let h := assign_row this "1,2" [5; 0; 20; 0]%float
             (assign_row this "1,1" [0; 0; 2; 0]%float h0) in
  (getMaxQ this {| x := 1; y := 2 |} h).1 = 20%float ∧
  row_of (update this {| x := 1; y := 1 |} DOWN 0%float {| x := 1; y := 2 |} h)
    this {| x := 1; y := 1 |}
    = Some [0; 0; 3.6; 0]%float.
Proof.
  intros this h0 h.
  assert (table_inv h (qTable this)) as Hinv.
  { exists {[ "1,1" := 0; "1,2" := 1 ]}. split; [reflexivity|]. intros k row Hk.
    apply lookup_insert_Some in Hk as [[_ <-]|[_ Hk]]; [by eexists|].
    apply lookup_singleton_Some in Hk as [_ <-]. by eexists. }
  destruct (update_bellman this {| x := 1; y := 1 |} DOWN 0%float
              {| x := 1; y := 2 |} h Hinv)
    as (oldQ & maxNextQ & HoldQ & _ & _ & Hget & Hrow & _).
  vm_compute in HoldQ. injection HoldQ as <-.
  split; [by vm_compute|].
  rewrite Hrow, Hget. by vm_compute.
Defined.

End QLearningAgentSpec.

(* ===================================================================== *)
(** * Properties of the scene *)
(* ===================================================================== *)

Module MazeSceneSpec.
Import JS MazeScene DoubleSpec.

(** ** The scale of the heat map *)

Lemma ltb_not_nan (a b : float) :
  PrimFloat.ltb a b = true →
  PrimFloat.is_nan a = false ∧ PrimFloat.is_nan b = false.
Proof. intros H%ltb_leb. by apply leb_not_nan. Qed.

(** The running maximum over one row. *)
Lemma row_max (qs : list float) (acc : float) :
  PrimFloat.is_nan acc = false →
  let r := fold_left (λ max q, if PrimFloat.ltb max q then q else max) qs acc in
  PrimFloat.is_nan r = false ∧
  PrimFloat.leb acc r = true ∧
  (∀ q, q ∈ qs → PrimFloat.is_nan q = false → PrimFloat.leb q r = true) ∧
  (r = acc ∨ r ∈ qs).
Proof.
  revert acc. induction qs as [|q qs IH]; intros acc Hacc; simpl.
  - split; [done|]. split; [by apply leb_refl|].
    split; [intros q Hq; by apply elem_of_nil in Hq | by left].
  - destruct (PrimFloat.ltb acc q) eqn:Hlt.
    + destruct (ltb_not_nan _ _ Hlt) as [_ Hq].
      destruct (IH q Hq) as (Hr & Hle & Hall & Hmem).
      split; [done|]. split; [eapply leb_trans; [by apply ltb_leb | done]|].
      split.
      * intros q' [->|Hq']%elem_of_cons Hn; [done | by apply Hall].
      * right. apply elem_of_cons. destruct Hmem as [->|?]; auto.
    + destruct (IH acc Hacc) as (Hr & Hle & Hall & Hmem).
      split; [done|]. split; [done|]. split.
      * intros q' [->|Hq']%elem_of_cons Hn; [|by apply Hall].
        eapply leb_trans; [|exact Hle]. by apply not_ltb_leb.
      * destruct Hmem as [->|?]; [by left|]. right. apply elem_of_cons. auto.
Qed.

Lemma rows_max (values : list (list float)) (acc : float) :
  PrimFloat.is_nan acc = false →
  let g := fold_left
    (λ max qs, fold_left (λ max q, if PrimFloat.ltb max q then q else max) qs max)
    values acc in
  PrimFloat.is_nan g = false ∧
  PrimFloat.leb acc g = true ∧
  (∀ qs q, qs ∈ values → q ∈ qs → PrimFloat.is_nan q = false →
     PrimFloat.leb q g = true) ∧
  (g = acc ∨ ∃ qs, qs ∈ values ∧ g ∈ qs).
Proof.
  revert acc. induction values as [|qs values IH]; intros acc Hacc; simpl.
  - split; [done|]. split; [by apply leb_refl|].
    split; [intros qs q Hqs; by apply elem_of_nil in Hqs | by left].
  - destruct (row_max qs acc Hacc) as (Hr & Hle & Hall & Hmem).
    destruct (IH _ Hr) as (Hg & Hle' & Hall' & Hmem').
    split; [done|]. split; [by eapply leb_trans|]. split.
    + intros qs' q [->|Hqs]%elem_of_cons Hq Hn; [|by eapply Hall'].
      eapply leb_trans; [by apply Hall | done].
    + destruct Hmem' as [Heq|(qs' & Hqs' & Hin)].
      * rewrite Heq. destruct Hmem as [->|Hin]; [by left|].
        right. exists qs. split; [apply elem_of_cons; by left | done].
      * right. exists qs'. split; [apply elem_of_cons; by right | done].
Qed.

(** X16: [globalMaxQ] is a number, even over rows that hold NaN; it is at
    least 0.0001, so the test [globalMaxQ <= 0] of [Cell] never holds; no
    entry of the table that is a number is above it; and it is 0.0001 or
    an entry of the table. *)
Theorem globalMaxQ_bounds (values : list (list float)) :
  let g := globalMaxQ values in
  PrimFloat.is_nan g = false ∧
  PrimFloat.leb 0.0001 g = true ∧
  PrimFloat.leb g 0 = false ∧
  (∀ qs q, qs ∈ values → q ∈ qs → PrimFloat.is_nan q = false →
     PrimFloat.leb q g = true) ∧
  (g = 0.0001%float ∨ ∃ qs, qs ∈ values ∧ g ∈ qs).
Proof.
  intros g. destruct (rows_max values 0.0001%float eq_refl)
    as (Hg & Hle & Hall & Hmem).
  split; [done|]. split; [done|]. split; [|by split].
  destruct (PrimFloat.leb g 0) eqn:H0; [|done].
  by pose proof (leb_trans _ _ _ Hle H0).
Qed.

End MazeSceneSpec.

(* ===================================================================== *)
(** * Properties of the simulation *)
(* ===================================================================== *)

Module AppSpec.
Import JS Types App.
Import MazeGenerator (outcome, Returns, Throws, bind, Grid, cell_at,
  in_bounds, floor_at, wall_at, adjacent, walk, connected).
Import TypesSpec MazeGeneratorSpec QLearningAgentSpec DoubleSpec.
Local Open Scope Z_scope.

Implicit Types (app : App) (h : heap).

(** ** One call of [runStep] *)

(** The cell an action leads to. *)
Lemma episode_over_spec app :
  isGoalReached (simInternalState app)
    || (MAX_STEPS <=? step (simInternalState app)) = false ↔
  isGoalReached (simInternalState app) = false ∧
  step (simInternalState app) < MAX_STEPS.
Proof. rewrite orb_false_iff, Z.leb_gt. done. Qed.

(** What [runStep] does to the runner and the grid: the episode ends and
    the runner is back at the start; or the runner stays where it is; or
    it walks to the floor cell beside it that the action points to. *)
Lemma runStep_runner app (random1 random2 : float) h :
  arena app →
  ∃ app' h',
    runStep app random1 random2 h = Returns (app', h') ∧
    gridInternal app' = gridInternal app ∧
    startPos app' = startPos app ∧ goalPos app' = goalPos app ∧
    (agentPosInternal app' = startPos app ∨
     agentPosInternal app' = agentPosInternal app ∨
     walk (gridInternal app) (agentPosInternal app) (agentPosInternal app') ∧
     in_bounds MAZE_SIZE MAZE_SIZE (agentPosInternal app')).
Proof.
  intros [Hcells [Hin Hfloor] Hstart]. unfold runStep.
  destruct (isGoalReached _ || _).
  { eexists _, _. split; [done|]. simpl. split_and!; try done. by left. }
  destruct (QLearningAgent.chooseAction _ _ _ _ _) as [action h1].
  set (pos := agentPosInternal app) in *.
  set (nextX := match action with
                | Some RIGHT => x pos + 1 | Some LEFT => x pos - 1 | _ => x pos
                end).
  set (nextY := match action with
                | Some UP => y pos - 1 | Some DOWN => y pos + 1 | _ => y pos
                end).
  assert ({| x := nextX; y := nextY |} = pos ∨
          adjacent pos {| x := nextX; y := nextY |}) as Hmove.
  { unfold adjacent, nextX, nextY. destruct pos as [px py]. simpl.
    destruct action as [[| | |]|]; [right; lia..|by left]. }
  destruct ((nextX <? 0) || (MAZE_SIZE <=? nextX) ||
            (nextY <? 0) || (MAZE_SIZE <=? nextY)) eqn:Hout; simpl.
  { eexists _, _. split; [done|]. simpl. split_and!; try done. by right; left. }
  rewrite !orb_false_iff, !Z.ltb_ge, !Z.leb_gt in Hout.
  destruct Hout as [[[Hx0 Hx1] Hy0] Hy1].
  destruct (Hcells nextY nextX) as [cell Hcell]; [lia..|].
  rewrite Hcell. simpl. destruct (isWall cell) eqn:Hwall.
  { eexists _, _. split; [done|]. simpl. split_and!; try done. by right; left. }
  assert (floor_at (gridInternal app) {| x := nextX; y := nextY |}) as Hnext.
  { unfold floor_at, MazeGenerator.is_floor. simpl. rewrite Hcell. simpl.
    by rewrite Hwall. }
  assert (in_bounds MAZE_SIZE MAZE_SIZE {| x := nextX; y := nextY |}) as Hnb
    by (unfold in_bounds; simpl; lia).
  destruct ((nextX =? x (goalPos app)) && (nextY =? y (goalPos app)));
    (eexists _, _; split; [done|]; simpl; split_and!; try done;
     destruct Hmove as [Heq|Hadj]; [by right; left | by right; right]).
Qed.

Lemma runStep_arena app (random1 random2 : float) h app' h' :
  arena app → runStep app random1 random2 h = Returns (app', h') →
  arena app'.
Proof.
  intros Harena Hstep.
  destruct (runStep_runner app random1 random2 h Harena)
    as (app1 & h1 & Hstep1 & Hgrid & Hs & Hg & Hpos).
  rewrite Hstep in Hstep1. injection Hstep1 as <- <-.
  destruct Harena as [Hcells Hrunner Hstart].
  split; rewrite ?Hgrid, ?Hs; try done.
  destruct Hpos as [->|[->|[[_ Hfl] Hin]]]; done.
Qed.

(** ** The books *)

Lemma runStep_books app (random1 random2 : float) h app' h' :
  books app → runStep app random1 random2 h = Returns (app', h') →
  books app' ∧
  ∀ best, bestStepCount (simInternalState app) = Some best →
    ∃ best', bestStepCount (simInternalState app') = Some best' ∧ best' ≤ best.
Proof.
  intros [Hstep Hep Heps Hgoal Hbest]. unfold runStep.
  destruct (isGoalReached _ || _) eqn:Hover.
  { intros [= <- <-]. split.
    - split; simpl.
      + unfold MAX_STEPS. lia.
      + lia.
      + done.
      + done.
      + intros best. destruct (isGoalReached (simInternalState app)) eqn:Hr;
          [|by apply Hbest].
        destruct (Hgoal eq_refl) as [_ Hone].
        destruct (bestStepCount (simInternalState app)) as [b|] eqn:Hb.
        * intros [= <-]. specialize (Hbest b eq_refl). lia.
        * intros [= <-]. lia.
    - intros best Hb. simpl. rewrite Hb.
      destruct (isGoalReached (simInternalState app));
        eexists; (split; [done|]); lia. }
  apply episode_over_spec in Hover as [Hnot Hlt].
  destruct (QLearningAgent.chooseAction _ _ _ _ _) as [action h1].
  set (pos := agentPosInternal app) in *.
  set (nextX := match action with
                | Some RIGHT => x pos + 1 | Some LEFT => x pos - 1 | _ => x pos
                end).
  set (nextY := match action with
                | Some UP => y pos - 1 | Some DOWN => y pos + 1 | _ => y pos
                end).
  intros (hitWall & _ & Hret)%bind_Returns.
  assert (∀ best, bestStepCount (simInternalState app') = Some best ↔
            bestStepCount (simInternalState app) = Some best) as Hsame.
  { destruct hitWall; [|destruct (_ && _)]; injection Hret as <- _; done. }
  split; [|intros best Hb; exists best; split; [by apply Hsame | lia]].
  destruct hitWall; [|destruct (_ && _) eqn:Hg]; injection Hret as <- _;
    split; simpl; try done; try lia.
  intros _. apply andb_true_iff in Hg as [Hx%Z.eqb_eq Hy%Z.eqb_eq].
  split; [|lia]. rewrite Hx, Hy. by destruct (goalPos app).
Qed.

(** ** The table *)

Lemma update_table_ok (this : QLearningAgent.QLearningAgent) state
    (action : option Action) (reward : float) nextState h :
  QLearningAgent.table_inv h (QLearningAgent.qTable this) →
  QLearningAgent.unshared h (QLearningAgent.qTable this) →
  QLearningAgent.table_inv (update this state action reward nextState h)
    (QLearningAgent.qTable this) ∧
  QLearningAgent.unshared (update this state action reward nextState h)
    (QLearningAgent.qTable this).
Proof.
  intros Hinv Hun. destruct action as [action|]; simpl.
  { split; [by apply table_inv_update | by apply unshared_update]. }
  pose proof (unshared_getQValues this state h Hinv Hun) as Hun1.
  destruct (getQValues_row this state h Hinv)
    as (row & h1 & Hget1 & Hobj1 & Hrow1 & Hlen1 & Hinv1 & _ & _ & _ & _).
  rewrite Hget1 in Hun1 |- *. simpl in Hun1.
  pose proof (unshared_getQValues this nextState h1 Hinv1 Hun1) as Hun2.
  destruct (getQValues_row this nextState h1 Hinv1)
    as (row2 & h2 & Hget2 & _ & _ & _ & Hinv2 & Hkeep & Hsame & _ & _).
  rewrite Hget2 in Hun2. rewrite getMaxQ_eq, Hget2. simpl in Hun2 |- *.
  split.
  - apply table_inv_object_set; [done|]. eexists. split; [by apply Hkeep|done].
  - apply unshared_object_set_same; [by apply Hsame | done].
Qed.

Lemma runStep_table_ok app (random1 random2 : float) h app' h' :
  table_ok app h → runStep app random1 random2 h = Returns (app', h') →
  table_ok app' h' ∧
  QLearningAgent.qTable (agentRef app') = QLearningAgent.qTable (agentRef app) ∧
  QLearningAgent.alpha (agentRef app') = QLearningAgent.alpha (agentRef app) ∧
  QLearningAgent.gamma (agentRef app') = QLearningAgent.gamma (agentRef app) ∧
  QLearningAgent.initialEpsilon (agentRef app')
    = QLearningAgent.initialEpsilon (agentRef app) ∧
  QLearningAgent.minEpsilon (agentRef app')
    = QLearningAgent.minEpsilon (agentRef app) ∧
  QLearningAgent.decayRate (agentRef app')
    = QLearningAgent.decayRate (agentRef app).
Proof.
  intros [Hinv Hun]. unfold runStep.
  destruct (isGoalReached _ || _); [by intros [= <- <-]|].
  pose proof (table_inv_chooseAction (agentRef app) random1 random2
                (agentPosInternal app) h Hinv) as Hinv1.
  pose proof (unshared_chooseAction (agentRef app) random1 random2
                (agentPosInternal app) h Hinv Hun) as Hun1.
  destruct (QLearningAgent.chooseAction _ _ _ _ _) as [action h1].
  simpl in Hinv1, Hun1.
  intros (hitWall & _ & Hret)%bind_Returns.
  destruct hitWall; [|destruct (_ && _)]; injection Hret as <- <-;
    (split; [by apply update_table_ok | done]).
Qed.

Lemma runStep_agent app (random1 random2 : float) h app' h' :
  runStep app random1 random2 h = Returns (app', h') →
  agentRef app' = agentRef app ∨
  agentRef app' = QLearningAgent.decayCuriosity (agentRef app).
Proof.
  unfold runStep. destruct (isGoalReached _ || _); [intros [= <- <-]; by right|].
  destruct (QLearningAgent.chooseAction _ _ _ _ _) as [action h1].
  intros (hitWall & _ & Hret)%bind_Returns.
  destruct hitWall; [|destruct (_ && _)]; injection Hret as <- _; by left.
Qed.

(** ** Successive calls *)

Lemma run_cons (random1 random2 : float) (draws : list (float * float))
    app h app' h' :
  run ((random1, random2) :: draws) app h = Returns (app', h') ↔
  ∃ app1 h1, runStep app random1 random2 h = Returns (app1, h1) ∧
    run draws app1 h1 = Returns (app', h').
Proof.
  simpl. split.
  - intros ([app1 h1] & Hstep & Hrun)%bind_Returns. eauto.
  - intros (app1 & h1 & -> & Hrun). done.
Qed.

Lemma run_arena (draws : list (float * float)) app h :
  arena app →
  ∃ app' h',
    run draws app h = Returns (app', h') ∧ arena app' ∧
    gridInternal app' = gridInternal app ∧
    startPos app' = startPos app ∧ goalPos app' = goalPos app ∧
    (rtc (walk (gridInternal app)) (agentPosInternal app)
         (agentPosInternal app') ∨
     rtc (walk (gridInternal app)) (startPos app) (agentPosInternal app')).
Proof.
  revert app h. induction draws as [|[random1 random2] draws IH];
    intros app h Harena.
  { exists app, h. split; [done|]. split; [done|]. split_and!; try done. by left. }
  destruct (runStep_runner app random1 random2 h Harena)
    as (app1 & h1 & Hstep & Hgrid & Hs & Hg & Hpos).
  pose proof (runStep_arena _ _ _ _ _ _ Harena Hstep) as Harena1.
  destruct (IH app1 h1 Harena1) as (app' & h' & Hrun & Harena' & Hgrid' & Hs' & Hg' & Hpos').
  exists app', h'. split; [apply run_cons; eauto|]. split; [done|].
  rewrite Hgrid', Hs', Hg'. split_and!; try done.
  rewrite Hgrid, Hs in Hpos'.
  destruct Hpos' as [Hwalk|Hwalk]; [|by right].
  destruct Hpos as [Heq|[Heq|[Hw _]]].
  - right. by rewrite <- Heq.
  - left. by rewrite <- Heq.
  - left. by eapply rtc_l.
Qed.

Lemma run_books (draws : list (float * float)) app h app' h' :
  books app → run draws app h = Returns (app', h') →
  books app' ∧
  ∀ best, bestStepCount (simInternalState app) = Some best →
    ∃ best', bestStepCount (simInternalState app') = Some best' ∧ best' ≤ best.
Proof.
  revert app h. induction draws as [|[random1 random2] draws IH];
    intros app h Hbooks.
  { intros [= <- <-]. split; [done|]. intros best Hb. exists best. split; [done|lia]. }
  intros (app1 & h1 & Hstep & Hrun)%run_cons.
  destruct (runStep_books _ _ _ _ _ _ Hbooks Hstep) as [Hbooks1 Hbest1].
  destruct (IH _ _ Hbooks1 Hrun) as [Hbooks' Hbest'].
  split; [done|]. intros best Hb.
  destruct (Hbest1 best Hb) as (b1 & Hb1 & Hle1).
  destruct (Hbest' b1 Hb1) as (b' & Hb' & Hle'). exists b'. split; [done|lia].
Qed.

Lemma run_table_ok (draws : list (float * float)) app h app' h' :
  table_ok app h → run draws app h = Returns (app', h') →
  table_ok app' h' ∧
  QLearningAgent.qTable (agentRef app') = QLearningAgent.qTable (agentRef app) ∧
  QLearningAgent.alpha (agentRef app') = QLearningAgent.alpha (agentRef app) ∧
  QLearningAgent.gamma (agentRef app') = QLearningAgent.gamma (agentRef app) ∧
  QLearningAgent.initialEpsilon (agentRef app')
    = QLearningAgent.initialEpsilon (agentRef app) ∧
  QLearningAgent.minEpsilon (agentRef app')
    = QLearningAgent.minEpsilon (agentRef app) ∧
  QLearningAgent.decayRate (agentRef app')
    = QLearningAgent.decayRate (agentRef app).
Proof.
  revert app h. induction draws as [|[random1 random2] draws IH];
    intros app h Hok.
  { by intros [= <- <-]. }
  intros (app1 & h1 & Hstep & Hrun)%run_cons.
  destruct (runStep_table_ok _ _ _ _ _ _ Hok Hstep)
    as (Hok1 & Hq & Ha & Hg & Hi & Hm & Hd).
  destruct (IH _ _ Hok1 Hrun) as (Hok' & Hq' & Ha' & Hg' & Hi' & Hm' & Hd').
  split; [done|]. split_and!; congruence.
Qed.

(** ** The component as it mounts *)

Lemma resetRunner_books app h : books (resetRunner app h).1.
Proof. split; simpl; try done; unfold MAX_STEPS; lia. Qed.

Lemma resetRunner_table_ok app h :
  table_ok (resetRunner app h).1 (resetRunner app h).2.
Proof.
  assert (objects (resetRunner app h).2
            !! QLearningAgent.qTable (agentRef (resetRunner app h).1) = Some ∅)
    as Ht.
  { unfold resetRunner, QLearningAgent.resetQTable, object_new. simpl.
    by rewrite lookup_app_r, Nat.sub_diag. }
  split; [by apply table_inv_empty | by apply unshared_empty].
Qed.

Lemma resetRunner_arena app h :
  (∀ row col, 0 ≤ row < MAZE_SIZE → 0 ≤ col < MAZE_SIZE →
     is_Some (cell_at (gridInternal app) row col)) →
  in_bounds MAZE_SIZE MAZE_SIZE (startPos app) →
  floor_at (gridInternal app) (startPos app) →
  arena (resetRunner app h).1.
Proof. intros Hcells Hin Hfloor. by split. Qed.

(** The maze of the application. *)
Lemma app_maze :
  ∃ staticMaze mazeGen,
    MazeGenerator.generate (MazeGenerator.new MAZE_SIZE MAZE_SIZE)
      = Returns (staticMaze, mazeGen) ∧
    MazeGenerator.populated MAZE_SIZE MAZE_SIZE staticMaze ∧
    floor_at staticMaze DEFAULT_START ∧
    connected staticMaze DEFAULT_START DEFAULT_GOAL.
Proof.
  destruct (MazeGenerator.generate (MazeGenerator.new MAZE_SIZE MAZE_SIZE))
    as [[staticMaze mazeGen]| |] eqn:E; [|vm_compute in E; discriminate E..].
  exists staticMaze, mazeGen. split; [done|].
  pose proof E as (st & _ & _ & Hpop & Hfl)%generate_inv.
  split; [exact Hpop|]. split.
  - apply Hfl. right. left. unfold MazeGenerator.start_block. simpl. lia.
  - assert (3 ≤ 15) as H3 by lia.
    by destruct (generate_reaches_floor
                   (MazeGenerator.new MAZE_SIZE MAZE_SIZE) _ _
                   H3 H3 (or_introl eq_refl) E).
Qed.

(** ** The simulation *)

(** X17: on a grid that has a cell at every row and column below
    [MAZE_SIZE], with the runner and the start on floor cells of it, no
    sequence of calls of [runStep] throws, whatever the random numbers;
    the runner ends on a floor cell within the bounds, which it has
    reached from where it was, or from the start, by steps between floor
    cells that share a side; the grid, the start and the goal are as they
    were. *)
Theorem run_never_throws app (draws : list (float * float)) h :
  arena app →
  ∃ app' h',
    run draws app h = Returns (app', h') ∧ arena app' ∧
    gridInternal app' = gridInternal app ∧
    startPos app' = startPos app ∧ goalPos app' = goalPos app ∧
    (rtc (walk (gridInternal app)) (agentPosInternal app)
         (agentPosInternal app') ∨
     rtc (walk (gridInternal app)) (startPos app) (agentPosInternal app')).
Proof. apply run_arena. Qed.

(** X18: [runStep] tests a move against [MAZE_SIZE], not against the
    grid.  On a grid of fewer than [MAZE_SIZE] rows, with the runner in
    the row after which the grid ends, a call in which [chooseAction]
    returns [DOWN] throws: the row the runner would move to is
    [undefined]. *)
Theorem runStep_throws_off_grid app (random1 random2 : float) h :
  isGoalReached (simInternalState app) = false →
  step (simInternalState app) < MAX_STEPS →
  (QLearningAgent.chooseAction (agentRef app) random1 random2
     (agentPosInternal app) h).1 = Some DOWN →
  0 ≤ x (agentPosInternal app) < MAZE_SIZE →
  0 ≤ y (agentPosInternal app) + 1 < MAZE_SIZE →
  Z.of_nat (length (gridInternal app)) ≤ y (agentPosInternal app) + 1 →
  runStep app random1 random2 h = Throws.
Proof.
  intros Hgoal Hstep Haction Hx Hy Hrows. unfold runStep.
  rewrite (proj2 (episode_over_spec app)) by done.
  destruct (QLearningAgent.chooseAction _ _ _ _ _) as [action h1].
  simpl in Haction. subst action.
  assert ((x (agentPosInternal app) <? 0)
          || (MAZE_SIZE <=? x (agentPosInternal app))
          || (y (agentPosInternal app) + 1 <? 0)
          || (MAZE_SIZE <=? y (agentPosInternal app) + 1) = false) as ->.
  { rewrite !orb_false_iff, !Z.ltb_ge, !Z.leb_gt. lia. }
  assert (cell_at (gridInternal app) (y (agentPosInternal app) + 1)
            (x (agentPosInternal app)) = None) as ->; [|done].
  unfold cell_at, index.
  destruct (Z.ltb_spec (y (agentPosInternal app) + 1) 0); [done|].
  rewrite lookup_ge_None_2 by lia. done.
Qed.

Lemma runStep_throws_off_grid_witness :
  ∃ grid gen,
    MazeGenerator.generate (MazeGenerator.new 3 3) = Returns (grid, gen) ∧
    runStep
      {| agentRef := (QLearningAgent.new 0.1 0.9 1 empty_heap).1;
         simInternalState := freshState;
         agentPosInternal := {| x := 1; y := 2 |};
         gridInternal := grid;
         exploredCellsInternal := ∅;
         startPos := DEFAULT_START;
         goalPos := {| x := 2; y := 2 |} |}
      0.5 0.5 (QLearningAgent.new 0.1 0.9 1 empty_heap).2 = Throws.
Proof.
  destruct (MazeGenerator.generate (MazeGenerator.new 3 3))
    as [[grid gen]| |] eqn:E; [|vm_compute in E; discriminate E..].
  exists grid, gen. split; [reflexivity|].
  pose proof E as (_ & _ & _ & [Hrows _ _] & _)%generate_inv.
  clear E. apply runStep_throws_off_grid.
  - reflexivity.
  - reflexivity.
  - vm_compute. reflexivity.
  - cbn [agentPosInternal x]. unfold MAZE_SIZE. lia.
  - cbn [agentPosInternal y]. unfold MAZE_SIZE. lia.
  - cbn [agentPosInternal gridInternal y]. rewrite Hrows.
    cbn [MazeGenerator.height MazeGenerator.new]. lia.
Defined.

(** X19: the books of the simulation stay in order through any sequence
    of calls of [runStep]: the step count of the episode lies between 0 and
    [MAX_STEPS], the episode number is at least 1, the epsilon on display
    is the epsilon of the agent, the goal flag is up only with the runner
    on the goal after at least one step, and the best step count, once
    there is one, lies between 1 and [MAX_STEPS]. *)
Theorem run_keeps_books app (draws : list (float * float)) h app' h' :
  books app → run draws app h = Returns (app', h') → books app'.
Proof. intros Hbooks Hrun. by destruct (run_books _ _ _ _ _ Hbooks Hrun). Qed.

Lemma run_keeps_books_witness :
  let agent := (QLearningAgent.new 0.1 0.9 0.2 empty_heap).1 in
  let h := (QLearningAgent.new 0.1 0.9 0.2 empty_heap).2 in
  let app :=
    {| agentRef := agent; simInternalState := freshState;
       agentPosInternal := DEFAULT_START; gridInternal := [];
       exploredCellsInternal := ∅; startPos := DEFAULT_START;
       goalPos := DEFAULT_GOAL |} in
  ∃ app' h',
    run [(0.5, 0.1); (0.5, 0.9)]%float app h = Returns (app', h') ∧
    books app'.
Proof.
  intros agent h app.
  assert (books app) as Hbooks
    by (split; simpl; try done; unfold MAX_STEPS; lia).
  destruct (run [(0.5, 0.1); (0.5, 0.9)]%float app h) as [[app' h']| |] eqn:E;
    [|vm_compute in E; discriminate E..].
  exists app', h'. split; [reflexivity|].
  exact (run_keeps_books app [(0.5, 0.1); (0.5, 0.9)]%float h app' h' Hbooks E).
Defined.

(** X20: through any sequence of calls of [runStep], a best step count,
    once there is one, is never lost nor replaced by a larger one. *)
Theorem run_best_improves app (draws : list (float * float)) h app' h'
    (best : Z) :
  books app → run draws app h = Returns (app', h') →
  bestStepCount (simInternalState app) = Some best →
  ∃ best', bestStepCount (simInternalState app') = Some best' ∧ best' ≤ best.
Proof.
  intros Hbooks Hrun. destruct (run_books _ _ _ _ _ Hbooks Hrun) as [_ H].
  apply H.
Qed.

Lemma run_best_improves_witness :
  let agent := (QLearningAgent.new 0.1 0.9 0.2 empty_heap).1 in
  let h := (QLearningAgent.new 0.1 0.9 0.2 empty_heap).2 in
  let app :=
    {| agentRef := agent;
       simInternalState :=
         {| episode := 3; step := 7; totalReward := 0; epsilon := 0.2;
            isGoalReached := true; bestStepCount := Some 9 |};
       agentPosInternal := DEFAULT_GOAL; gridInternal := [];
       exploredCellsInternal := ∅; startPos := DEFAULT_START;
       goalPos := DEFAULT_GOAL |} in
  ∃ app' h' best',
    run [(0.5, 0.1)]%float app h = Returns (app', h') ∧
    bestStepCount (simInternalState app') = Some best' ∧ best' ≤ 9.
Proof.
  intros agent h app.
  assert (books app) as Hbooks.
  { split; simpl; try done; unfold MAX_STEPS; try lia.
    intros best [= <-]. lia. }
  destruct (run [(0.5, 0.1)]%float app h) as [[app' h']| |] eqn:E;
    [|vm_compute in E; discriminate E..].
  destruct (run_best_improves app [(0.5, 0.1)]%float h app' h' 9 Hbooks E
              eq_refl) as (best' & Hb & Hle).
  exists app', h', best'. split; [reflexivity|]. split; [exact Hb | exact Hle].
Defined.

(** X21: any sequence of calls of [runStep] leaves the table of the agent
    in order, every row an array of four entries and no array under two
    keys, and changes of the agent nothing but its epsilon and the rows of
    its table: the table is the same object, and alpha, gamma, the initial
    epsilon, the floor of epsilon and the decay rate are what they were. *)
Theorem run_keeps_table app (draws : list (float * float)) h app' h' :
  table_ok app h → run draws app h = Returns (app', h') →
  table_ok app' h' ∧
  QLearningAgent.qTable (agentRef app') = QLearningAgent.qTable (agentRef app) ∧
  QLearningAgent.alpha (agentRef app') = QLearningAgent.alpha (agentRef app) ∧
  QLearningAgent.gamma (agentRef app') = QLearningAgent.gamma (agentRef app) ∧
  QLearningAgent.initialEpsilon (agentRef app')
    = QLearningAgent.initialEpsilon (agentRef app) ∧
  QLearningAgent.minEpsilon (agentRef app')
    = QLearningAgent.minEpsilon (agentRef app) ∧
  QLearningAgent.decayRate (agentRef app')
    = QLearningAgent.decayRate (agentRef app).
Proof. apply run_table_ok. Qed.

Lemma run_keeps_table_witness :
  let agent := (QLearningAgent.new 0.1 0.9 0.2 empty_heap).1 in
  let h := (QLearningAgent.new 0.1 0.9 0.2 empty_heap).2 in
  let app :=
    {| agentRef := agent; simInternalState := freshState;
       agentPosInternal := DEFAULT_START; gridInternal := [];
       exploredCellsInternal := ∅; startPos := DEFAULT_START;
       goalPos := DEFAULT_GOAL |} in
  ∃ app' h',
    run [(0.5, 0.1); (0.5, 0.9)]%float app h = Returns (app', h') ∧
    table_ok app' h'.
Proof.
  intros agent h app.
  assert (table_ok app h) as Hok
    by (split; [by apply table_inv_empty | by apply unshared_empty]).
  destruct (run [(0.5, 0.1); (0.5, 0.9)]%float app h) as [[app' h']| |] eqn:E;
    [|vm_compute in E; discriminate E..].
  exists app', h'. split; [reflexivity|].
  exact (proj1 (run_keeps_table app [(0.5, 0.1); (0.5, 0.9)]%float h app' h'
                  Hok E)).
Defined.

(** X22: through any sequence of calls of [runStep], the epsilon of an
    agent whose decay rate lies strictly between 0 and 1, and whose epsilon
    starts at or above a floor that is not negative, never rises and never
    falls below the floor. *)
Theorem run_epsilon_decays app (draws : list (float * float)) h app' h' :
  PrimFloat.ltb 0 (QLearningAgent.decayRate (agentRef app)) = true →
  PrimFloat.ltb (QLearningAgent.decayRate (agentRef app)) 1 = true →
  PrimFloat.leb 0 (QLearningAgent.minEpsilon (agentRef app)) = true →
  PrimFloat.leb (QLearningAgent.minEpsilon (agentRef app))
    (QLearningAgent.epsilon (agentRef app)) = true →
  run draws app h = Returns (app', h') →
  PrimFloat.leb (QLearningAgent.minEpsilon (agentRef app))
    (QLearningAgent.epsilon (agentRef app')) = true ∧
  PrimFloat.leb (QLearningAgent.epsilon (agentRef app'))
    (QLearningAgent.epsilon (agentRef app)) = true.
Proof.
  revert app h. induction draws as [|[random1 random2] draws IH];
    intros app h Hr0 Hr1 Hm Hme.
  { intros [= <- <-]. split; [done|].
    apply leb_refl. by destruct (leb_not_nan _ _ Hme). }
  intros (app1 & h1 & Hstep & Hrun)%run_cons.
  destruct (runStep_agent _ _ _ _ _ _ Hstep) as [Hagent|Hagent].
  { rewrite <- Hagent. apply (IH app1 h1); by rewrite ?Hagent. }
  destruct (decay_step _ (QLearningAgent.epsilon (agentRef app)) _ Hr0 Hr1 Hm)
    as (Hge & Hle & _).
  destruct (leb_not_nan _ _ Hme) as [_ Hnan].
  destruct (Hge Hnan) as [Hge' _]. specialize (Hle Hme).
  destruct (IH app1 h1) as [Hlo Hhi]; rewrite ?Hagent; try done.
  rewrite Hagent in Hlo, Hhi. split; [done|].
  eapply leb_trans; [exact Hhi | exact Hle].
Qed.

Lemma run_epsilon_decays_witness :
  let agent := (QLearningAgent.new 0.1 0.9 0.2 empty_heap).1 in
  let h := (QLearningAgent.new 0.1 0.9 0.2 empty_heap).2 in
  let app :=
    {| agentRef := agent;
       simInternalState :=
         {| episode := 3; step := 7; totalReward := 0; epsilon := 0.2;
            isGoalReached := true; bestStepCount := Some 9 |};
       agentPosInternal := DEFAULT_GOAL; gridInternal := [];
       exploredCellsInternal := ∅; startPos := DEFAULT_START;
       goalPos := DEFAULT_GOAL |} in
  ∃ app' h',
    run [(0.5, 0.1)]%float app h = Returns (app', h') ∧
    PrimFloat.leb 0.01 (QLearningAgent.epsilon (agentRef app')) = true ∧
    PrimFloat.leb (QLearningAgent.epsilon (agentRef app')) 0.2 = true.
Proof.
  intros agent h app.
  destruct (run [(0.5, 0.1)]%float app h) as [[app' h']| |] eqn:E;
    [|vm_compute in E; discriminate E..].
  exists app', h'. split; [reflexivity|].
  exact (run_epsilon_decays app [(0.5, 0.1)]%float h app' h'
           eq_refl eq_refl eq_refl eq_refl E).
Defined.

(** X23: [resetRunner] puts the simulation back to its beginning,
    whatever state it is in: the agent has the default alpha, gamma and
    epsilon, and a table in which every row reads as four zeros; the
    counters are those of a first episode; the runner is at the start; the
    books and the table are in order. *)
Theorem resetRunner_fresh app h :
  let app' := (resetRunner app h).1 in
  let h' := (resetRunner app h).2 in
  QLearningAgent.alpha (agentRef app') = DEFAULT_ALPHA ∧
  QLearningAgent.gamma (agentRef app') = DEFAULT_GAMMA ∧
  QLearningAgent.epsilon (agentRef app') = DEFAULT_EPSILON ∧
  QLearningAgent.initialEpsilon (agentRef app') = DEFAULT_EPSILON ∧
  QLearningAgent.minEpsilon (agentRef app')
    = QLearningAgent.minEpsilon (agentRef app) ∧
  QLearningAgent.decayRate (agentRef app')
    = QLearningAgent.decayRate (agentRef app) ∧
  (∀ pos, QLearningAgent.lazy_row h' (agentRef app') pos
            = QLearningAgent.zero_row) ∧
  simInternalState app' = freshState ∧
  agentPosInternal app' = startPos app ∧
  gridInternal app' = gridInternal app ∧
  books app' ∧ table_ok app' h'.
Proof.
  intros app' h'.
  assert (objects h' !! QLearningAgent.qTable (agentRef app') = Some ∅) as Ht.
  { unfold h', app', resetRunner, QLearningAgent.resetQTable, object_new.
    simpl. by rewrite lookup_app_r, Nat.sub_diag. }
  do 6 (split; [reflexivity|]). split; [|do 3 (split; [reflexivity|]); split].
  - intros pos.
    unfold QLearningAgent.lazy_row, QLearningAgent.row_of, object_get.
    by rewrite Ht.
  - apply resetRunner_books.
  - apply resetRunner_table_ok.
Qed.

(** X24: the component mounts without throwing, on the 15 by 15 maze,
    with the runner at (0,0) and the goal at (14,14), which can be reached
    from (0,0) through floor cells.  From there no sequence of calls of
    [runStep] throws, whatever the random numbers: the runner stays on
    floor cells of the maze, and the books and the table stay in order. *)
Theorem mount_ready (h : heap) (draws : list (float * float)) :
  ∃ app h1 app' h',
    mount h = Returns (app, h1) ∧
    agentPosInternal app = DEFAULT_START ∧
    startPos app = DEFAULT_START ∧ goalPos app = DEFAULT_GOAL ∧
    simInternalState app = freshState ∧
    MazeGenerator.populated MAZE_SIZE MAZE_SIZE (gridInternal app) ∧
    connected (gridInternal app) DEFAULT_START DEFAULT_GOAL ∧
    run draws app h1 = Returns (app', h') ∧
    arena app' ∧ books app' ∧ table_ok app' h'.
Proof.
  destruct app_maze as (staticMaze & mazeGen & E & Hpop & Hstart & Hconn).
  unfold mount.
  destruct (QLearningAgent.new DEFAULT_ALPHA DEFAULT_GAMMA DEFAULT_EPSILON h)
    as [agent h0].
  rewrite E. clear E. cbn [bind].
  set (app0 := {| agentRef := _; gridInternal := staticMaze |}).
  pose proof (resetRunner_books app0 h0) as Hbooks.
  pose proof (resetRunner_table_ok app0 h0) as Htable.
  assert (arena (resetRunner app0 h0).1) as Harena.
  { apply resetRunner_arena;
      [|unfold in_bounds, MAZE_SIZE; cbn; lia|exact Hstart].
    intros row col Hrow Hcol. by eapply populated_cell_at. }
  destruct (run_arena draws _ (resetRunner app0 h0).2 Harena)
    as (app' & h' & Hrun & Harena' & _).
  destruct (run_books _ _ _ _ _ Hbooks Hrun) as [Hbooks' _].
  destruct (run_table_ok _ _ _ _ _ Htable Hrun) as [Htable' _].
  exists (resetRunner app0 h0).1, (resetRunner app0 h0).2, app', h'.
  split; [reflexivity|]. do 4 (split; [reflexivity|]).
  split; [exact Hpop|]. split; [exact Hconn|]. split; [exact Hrun|].
  split; [exact Harena'|]. split; [exact Hbooks' | exact Htable'].
Qed.

Lemma run_never_throws_witness :
  ∃ grid gen,
    MazeGenerator.generate (MazeGenerator.new MAZE_SIZE MAZE_SIZE)
      = Returns (grid, gen) ∧
    let app :=
      {| agentRef := (QLearningAgent.new 0.1 0.9 0.2 empty_heap).1;
         simInternalState := freshState;
         agentPosInternal := DEFAULT_START;
         gridInternal := grid;
         exploredCellsInternal := ∅;
         startPos := DEFAULT_START;
         goalPos := DEFAULT_GOAL |} in
    ∃ app' h',
      run [(0.5, 0.1); (0.05, 0.3); (0.5, 0.9)]%float app
        (QLearningAgent.new 0.1 0.9 0.2 empty_heap).2 = Returns (app', h') ∧
      arena app'.
Proof.
  destruct app_maze as (grid & gen & E & Hpop & Hstart & _).
  exists grid, gen. split; [exact E|]. clear E. intros app.
  assert (arena app) as Harena.
  { split.
    - intros row col Hrow Hcol. by eapply populated_cell_at.
    - split; [unfold in_bounds, MAZE_SIZE; cbn; lia | exact Hstart].
    - split; [unfold in_bounds, MAZE_SIZE; cbn; lia | exact Hstart]. }
  destruct (run_never_throws app [(0.5, 0.1); (0.05, 0.3); (0.5, 0.9)]%float
              (QLearningAgent.new 0.1 0.9 0.2 empty_heap).2 Harena)
    as (app' & h' & Hrun & Harena' & _).
  exists app', h'. split; [exact Hrun | exact Harena'].
Defined.

(** ** Episodes end *)

(** A call of [runStep] ends the episode or counts a step of it. *)
Lemma runStep_progress app (random1 random2 : float) h app' h' :
  runStep app random1 random2 h = Returns (app', h') →
  episode (simInternalState app') = episode (simInternalState app) + 1 ∧
    step (simInternalState app') = 0 ∨
  episode (simInternalState app') = episode (simInternalState app) ∧
    step (simInternalState app') = step (simInternalState app) + 1.
Proof.
  unfold runStep. destruct (isGoalReached _ || _).
  { intros [= <- <-]. by left. }
  destruct (QLearningAgent.chooseAction _ _ _ _ _) as [action h1].
  intros (hitWall & _ & Hret)%bind_Returns. right.
  destruct hitWall; [|destruct (_ && _)]; injection Hret as <- _; done.
Qed.

Lemma run_progress (draws : list (float * float)) app h app' h' :
  run draws app h = Returns (app', h') →
  episode (simInternalState app) ≤ episode (simInternalState app') ∧
  (episode (simInternalState app') = episode (simInternalState app) →
   step (simInternalState app')
     = step (simInternalState app) + Z.of_nat (length draws)).
Proof.
  revert app h. induction draws as [|[random1 random2] draws IH]; intros app h.
  { intros [= <- <-]. simpl. lia. }
  intros (app1 & h1 & Hstep & Hrun)%run_cons.
  apply runStep_progress in Hstep. apply IH in Hrun.
  cbn [length]. lia.
Qed.

(** X25: episodes end.  As long as the number of the episode stays a
    safe integer, which it does when it is one with the number of calls
    added to it, it never goes down through calls of [runStep], and after
    more calls than the episode has steps left before [MAX_STEPS], it has
    gone up: no episode outlasts [MAX_STEPS] moves and the call that
    closes it. *)
Theorem run_episode_ends app (draws : list (float * float)) h app' h' :
  books app →
  safe_integer (episode (simInternalState app) + Z.of_nat (length draws)) →
  run draws app h = Returns (app', h') →
  episode (simInternalState app) ≤ episode (simInternalState app') ∧
  (MAX_STEPS - step (simInternalState app) < Z.of_nat (length draws) →
   episode (simInternalState app) < episode (simInternalState app')).
Proof.
  intros Hbooks _ Hrun.
  destruct (run_progress _ _ _ _ _ Hrun) as [Hle Hsame].
  destruct (run_books _ _ _ _ _ Hbooks Hrun) as [[Hstep' _ _ _ _] _].
  split; [exact Hle|]. intros Hlong.
  destruct (decide (episode (simInternalState app')
                      = episode (simInternalState app))) as [He|He]; [|lia].
  specialize (Hsame He). lia.
Qed.

Lemma run_episode_ends_witness :
  let agent := (QLearningAgent.new 0.1 0.9 0.2 empty_heap).1 in
  let h := (QLearningAgent.new 0.1 0.9 0.2 empty_heap).2 in
  let app :=
    {| agentRef := agent;
       simInternalState :=
         {| episode := 1; step := 1999; totalReward := 0;
            epsilon := DEFAULT_EPSILON; isGoalReached := false;
            bestStepCount := None |};
       agentPosInternal := DEFAULT_START; gridInternal := [];
       exploredCellsInternal := ∅; startPos := DEFAULT_START;
       goalPos := DEFAULT_GOAL |} in
  ∃ app' h',
    run [(0.5, 0.1); (0.5, 0.9)]%float app h = Returns (app', h') ∧
    1 < episode (simInternalState app').
Proof.
  intros agent h app.
  assert (books app) as Hbooks
    by (split; simpl; try done; unfold MAX_STEPS; lia).
  assert (MAX_STEPS - step (simInternalState app)
            < Z.of_nat (length [(0.5, 0.1); (0.5, 0.9)]%float)) as Hlong
    by (vm_compute; reflexivity).
  assert (safe_integer (episode (simInternalState app)
            + Z.of_nat (length [(0.5, 0.1); (0.5, 0.9)]%float))) as Hsafe
    by (vm_compute; reflexivity).
  destruct (run [(0.5, 0.1); (0.5, 0.9)]%float app h) as [[app' h']| |] eqn:E;
    [|vm_compute in E; discriminate E..].
  exists app', h'. split; [reflexivity|].
  exact (proj2 (run_episode_ends app [(0.5, 0.1); (0.5, 0.9)]%float h app' h'
                  Hbooks Hsafe E) Hlong).
Defined.

(** ** The explored cells *)

(** A call of [runStep] marks the cell the runner ends on, beside the
    cells marked before, or alone when the call ends the episode. *)
Lemma runStep_explored app (random1 random2 : float) h app' h' :
  runStep app random1 random2 h = Returns (app', h') →
  gridInternal app' = gridInternal app ∧
  (exploredCellsInternal app'
     = {[ key_of (x (agentPosInternal app')) (y (agentPosInternal app')) ]}
         ∪ exploredCellsInternal app ∨
   exploredCellsInternal app'
     = {[ key_of (x (agentPosInternal app')) (y (agentPosInternal app')) ]}).
Proof.
  unfold runStep. destruct (isGoalReached _ || _).
  { intros [= <- <-]. split; [done | by right]. }
  destruct (QLearningAgent.chooseAction _ _ _ _ _) as [action h1].
  intros (hitWall & _ & Hret)%bind_Returns.
  destruct hitWall; [|destruct (_ && _)]; injection Hret as <- _;
    (split; [done | by left]).
Qed.

(** X26: only floor cells are marked as explored, and the cell of the
    runner is marked.  On a grid that has a cell at every row and column
    below [MAZE_SIZE], with the runner and the start on floor cells, if
    every key of [exploredCellsInternal] is the key of a floor cell within
    the bounds, it is so after any sequence of calls of [runStep], and the
    key of the cell the runner is on is then one of them. *)
Theorem run_explores_floor app (draws : list (float * float)) h app' h' :
  arena app →
  (∀ k, k ∈ exploredCellsInternal app →
     ∃ p, k = key_of (x p) (y p) ∧ in_bounds MAZE_SIZE MAZE_SIZE p ∧
          floor_at (gridInternal app) p) →
  draws ≠ [] →
  run draws app h = Returns (app', h') →
  (∀ k, k ∈ exploredCellsInternal app' →
     ∃ p, k = key_of (x p) (y p) ∧ in_bounds MAZE_SIZE MAZE_SIZE p ∧
          floor_at (gridInternal app) p) ∧
  key_of (x (agentPosInternal app')) (y (agentPosInternal app'))
    ∈ exploredCellsInternal app'.
Proof.
  revert app h. induction draws as [|[random1 random2] draws IH];
    intros app h Harena Hfloor Hne; [done|].
  intros (app1 & h1 & Hstep & Hrun)%run_cons.
  pose proof (runStep_arena _ _ _ _ _ _ Harena Hstep) as Harena1.
  destruct (runStep_explored _ _ _ _ _ _ Hstep) as [Hgrid Hmarked].
  assert (key_of (x (agentPosInternal app1)) (y (agentPosInternal app1))
            ∈ exploredCellsInternal app1) as Hin1.
  { destruct Hmarked as [-> | ->]; [apply elem_of_union; left|];
      by apply elem_of_singleton. }
  assert (∀ k, k ∈ exploredCellsInternal app1 →
            ∃ p, k = key_of (x p) (y p) ∧ in_bounds MAZE_SIZE MAZE_SIZE p ∧
                 floor_at (gridInternal app1) p) as Hfloor1.
  { intros k Hk. destruct Harena1 as [_ [Hb Hf] _].
    assert (k = key_of (x (agentPosInternal app1)) (y (agentPosInternal app1))
            ∨ k ∈ exploredCellsInternal app) as [-> | Hold].
    { destruct Hmarked as [Heq | Heq]; rewrite Heq in Hk.
      - apply elem_of_union in Hk as [Hk%elem_of_singleton | Hk]; auto.
      - apply elem_of_singleton in Hk. auto. }
    - by exists (agentPosInternal app1).
    - rewrite Hgrid. by apply Hfloor. }
  destruct draws as [|draw draws].
  { injection Hrun as <- <-. rewrite <- Hgrid. by split. }
  rewrite <- Hgrid. by apply (IH app1 h1).
Qed.

Lemma run_explores_floor_witness :
  ∃ grid gen,
    MazeGenerator.generate (MazeGenerator.new MAZE_SIZE MAZE_SIZE)
      = Returns (grid, gen) ∧
    let app :=
      {| agentRef := (QLearningAgent.new 0.1 0.9 0.2 empty_heap).1;
         simInternalState := freshState;
         agentPosInternal := DEFAULT_START;
         gridInternal := grid;
         exploredCellsInternal := {[ key_of 0 0 ]};
         startPos := DEFAULT_START;
         goalPos := DEFAULT_GOAL |} in
    ∃ app' h',
      run [(0.5, 0.1); (0.05, 0.3); (0.5, 0.9)]%float app
        (QLearningAgent.new 0.1 0.9 0.2 empty_heap).2 = Returns (app', h') ∧
      key_of (x (agentPosInternal app')) (y (agentPosInternal app'))
        ∈ exploredCellsInternal app'.
Proof.
  destruct app_maze as (grid & gen & E & Hpop & Hstart & _).
  exists grid, gen. split; [exact E|]. clear E. intros app.
  assert (in_bounds MAZE_SIZE MAZE_SIZE DEFAULT_START) as Hin
    by (unfold in_bounds, MAZE_SIZE; cbn; lia).
  assert (arena app) as Harena.
  { split.
    - intros row col Hrow Hcol. by eapply populated_cell_at.
    - split; [exact Hin | exact Hstart].
    - split; [exact Hin | exact Hstart]. }
  assert (∀ k, k ∈ exploredCellsInternal app →
            ∃ p, k = key_of (x p) (y p) ∧ in_bounds MAZE_SIZE MAZE_SIZE p ∧
                 floor_at (gridInternal app) p) as Hfloor.
  { intros k Hk. change (k ∈ ({[ key_of 0 0 ]} : gset string)) in Hk.
    apply elem_of_singleton in Hk. exists DEFAULT_START.
    split; [exact Hk|]. split; [exact Hin | exact Hstart]. }
  assert ([(0.5, 0.1); (0.05, 0.3); (0.5, 0.9)]%float ≠ []) as Hne
    by discriminate.
  destruct (run_arena [(0.5, 0.1); (0.05, 0.3); (0.5, 0.9)]%float app
              (QLearningAgent.new 0.1 0.9 0.2 empty_heap).2 Harena)
    as (app' & h' & Hrun & _).
  exists app', h'. split; [exact Hrun|].
  exact (proj2 (run_explores_floor app _ _ app' h' Harena Hfloor Hne Hrun)).
Defined.

End AppSpec.
